(** * gvrm-hackathon: Walker, Interaction and InteractionManager

    A shallow embedding of the avatar behaviour layer: the per-avatar
    [Walker] (second part of src/app5/main.js), the two-avatar
    [Interaction] base class (src/app2/interaction.js) and the
    [InteractionManager] (second part of src/app4/main.js).

    Numbers.  A JavaScript number is modelled by a rational [Q].  Most
    functions are written with exact arithmetic, rounding left out; what
    is proved of them are bounds and outcomes that rounding to binary64
    keeps.  Where rounding decides the outcome (the turning step of the
    walker, the weighted selection, the virtual clock) every operation of
    the source is rounded with [Double.round], round to nearest even on a
    53-bit significand.  [Math.PI] is the rational value of the IEEE double.
    [Math.sqrt], [Math.atan2] and the sine and cosine behind three.js'
    quaternions are implementation-approximated in ECMAScript; they are the
    fields of a [MathImpl] record that every geometric function takes.
    Integer-valued quantities (hours, frame counters, array indices) are [Z]
    or [nat].  [Math.random()] is an input: every call site receives its
    draw from the caller.

    Objects.  Avatars (GVRM handles) and walkers live in two arrays that
    the main loop, the interactions and the manager share; an interaction
    refers to its participants by their index in these arrays, so that a
    write through [walker1] is seen by the main loop's [walkers[i]]. *)

From Stdlib Require Import QArith Qround Qabs Qpower ZArith List Bool Lia Lqa String.
From Stdlib Require Import DecimalString Permutation.
Import ListNotations.
Open Scope Q_scope.

(** ** JavaScript numerics *)

Definition Math_PI : Q := 884279719003555 # 281474976710656.

Definition Qltb (a b : Q) : bool := negb (Qle_bool b a).
Definition Qleb (a b : Q) : bool := Qle_bool a b.

Infix "<?" := Qltb (at level 70, no associativity) : Q_scope.
Infix "<=?" := Qleb (at level 70, no associativity) : Q_scope.
Notation "a >? b" := (Qltb b a) (at level 70, no associativity, only parsing) : Q_scope.
Notation "a >=? b" := (Qleb b a) (at level 70, no associativity, only parsing) : Q_scope.

Definition Math_abs (x : Q) : Q := Qabs x.
Definition Math_max (a b : Q) : Q := if a <? b then b else a.
Definition Math_min (a b : Q) : Q := if b <? a then b else a.
Definition Math_floor (x : Q) : Z := Qfloor x.

(** ** Binary64 *)

(** The arithmetic of a JavaScript number: the exact result rounded to the
    nearest number with a 53-bit significand, ties to the even significand.
    The exponent is not bounded: overflow and subnormal numbers are left
    out, the values of this program stay far from both. *)
Module Double.

Definition pow2 (e : Z) : Q := 2 ^ e.

(** 2^-53: half a unit in the last place, relative to the number. *)
Definition eps : Q := 1 # 9007199254740992.

(** The nearest integer, the even one of two equally near. *)
Definition nearestEven (q : Q) : Z :=
  let f := Qfloor q in
  let r := q - inject_Z f in
  if r <? 1 # 2 then f
  else if (1 # 2) <? r then (f + 1)%Z
  else if Z.even f then f else (f + 1)%Z.

(** The binary exponent of a positive number: 2^e <= q < 2^(e+1). *)
Definition ilog2 (q : Q) : Z :=
  let e := (Z.log2 (Qnum q) - Z.log2 (Zpos (Qden q)))%Z in
  if q <? pow2 e then (e - 1)%Z else e.

(** Rounding of a positive number: its significand, scaled to
    [2^52, 2^53), goes to the nearest integer. *)
Definition roundPos (q : Q) : Q :=
  inject_Z (nearestEven (q * pow2 (52 - ilog2 q))) * pow2 (ilog2 q - 52).

Definition round (q : Q) : Q :=
  if Qeq_bool q 0 then 0
  else
    let e := ilog2 (Qabs q) in
    let m := nearestEven (Qabs q * pow2 (52 - e)) in
    let r := Qred (inject_Z m * pow2 (e - 52)) in
    if q <? 0 then - r else r.

End Double.

Record MathImpl : Type := mkMath {
  Math_sqrt : Q -> Q;
  Math_atan2 : Q -> Q -> Q;
  Math_sin : Q -> Q;
  Math_cos : Q -> Q
}.

(** A reference implementation on which examples are evaluated.  The square
    root of [n/d] is [floor (sqrt (n*d)) / d], exact on rational squares;
    sine and cosine are their Taylor polynomials of degree 5 and 4; [atan2]
    is exact on the two half-axes the examples use and a first-order
    approximation elsewhere. *)
Definition sqrtQ (x : Q) : Q :=
  Z.sqrt (Qnum x * Zpos (Qden x)) # Qden x.
Definition sinQ (a : Q) : Q := a - a * a * a / 6 + a * a * a * a * a / 120.
Definition cosQ (a : Q) : Q := 1 - a * a / 2 + a * a * a * a / 24.
Definition atan2Q (y x : Q) : Q :=
  if 0 <? x then (if Qeq_bool y 0 then 0 else y / x)
  else if x <? 0 then (if Qeq_bool y 0 then Math_PI else Math_PI + y / x)
  else if 0 <? y then Math_PI / 2
  else if y <? 0 then - (Math_PI / 2) else 0.
Definition refMath : MathImpl := mkMath sqrtQ atan2Q sinQ cosQ.

(** The two loops
    [while (a > Math.PI) a -= Math.PI * 2;]
    [while (a < -Math.PI) a += Math.PI * 2;]
    that [Walker.update] runs on [rotDiff] and on [currentRotation].  Each loop is
    a fuelled iteration; [turns a] is the fuel, and [whileAbove_exits] and
    [whileBelow_exits] below show that it is enough for the loop condition
    to be false on exit. *)
Fixpoint whileAbove (fuel : nat) (a : Q) : Q :=
  match fuel with
  | O => a
  | S f => if a >? Math_PI then whileAbove f (a - Math_PI * 2) else a
  end.

Fixpoint whileBelow (fuel : nat) (a : Q) : Q :=
  match fuel with
  | O => a
  | S f => if a <? - Math_PI then whileBelow f (a + Math_PI * 2) else a
  end.

Definition turns (a : Q) : nat :=
  Z.to_nat (Qceiling (Qabs a / (Math_PI * 2))).

Definition normalizeAngle (a : Q) : Q :=
  let a1 := whileAbove (turns a) a in
  whileBelow (turns a1) a1.

(** ** Avatar handle (GVRM) *)

(** What the behaviour layer reads and writes of a GVRM:
    [gvrm.isReady], [gvrm.character.isLoading()], the scene position,
    [rotation0.y], and the heading about the Y axis that
    [quaternion.copy(setFromAxisAngle(Y, a))] and [rotation.y = a] set. *)
Record Gvrm : Type := mkGvrm {
  isReady : bool;
  isLoading : bool;
  posX : Q;
  posY : Q;
  posZ : Q;
  rot0y : Q;
  yaw : Q
}.

Definition setPosXZ (x z : Q) (g : Gvrm) : Gvrm :=
  mkGvrm (isReady g) (isLoading g) x (posY g) z (rot0y g) (yaw g).
Definition setYaw (a : Q) (g : Gvrm) : Gvrm :=
  mkGvrm (isReady g) (isLoading g) (posX g) (posY g) (posZ g) (rot0y g) a.

(** ** Walker *)

Module Walker.

Inductive Animation : Type := idle | walking | special.

Definition Animation_eqb (a b : Animation) : bool :=
  match a, b with
  | idle, idle | walking, walking | special, special => true
  | _, _ => false
  end.

(** The fields the constructor sets, in its order.  [walkingAction] and
    [idleAction] record whether the action object is non-null.
    [inInteraction] is not set by the constructor: it is the property that
    [Interaction.start] and [Interaction.end] write on the walker object,
    [None] while undefined. *)
Record t : Type := mk {
  index : nat;
  speed : Q;
  isWalking : bool;
  currentAnimation : Animation;
  walkingAction : bool;
  idleAction : bool;
  walkTimer : Q;
  walkDuration : Q;
  stopDuration : Q;
  shouldWalk : bool;
  boundary : Q;
  targetX : Q;
  targetZ : Q;
  targetRotation : Q;
  currentRotation : Q;
  arrivalThreshold : Q;
  justChangedTarget : bool;
  animationsLoaded : bool;
  currentSpecialAnimation : option string;
  isPlayingSpecial : bool;
  inInteraction : option bool
}.

Definition specialAnimations : list string :=
  ["Acknowledging"; "Around"; "Breathing"; "Chicken Dance"; "Dizzy Idle";
   "Flying"; "Gangnam Style"; "Happy Idle"; "Jab Cross"; "Listening";
   "Pointing"; "Shrugging"; "Warrior"]%string.

(** Field assignments. *)
Definition set_isWalking (b : bool) (w : t) : t :=
  mk (index w) (speed w) b (currentAnimation w) (walkingAction w)
     (idleAction w) (walkTimer w) (walkDuration w) (stopDuration w)
     (shouldWalk w) (boundary w) (targetX w) (targetZ w) (targetRotation w)
     (currentRotation w) (arrivalThreshold w) (justChangedTarget w)
     (animationsLoaded w) (currentSpecialAnimation w) (isPlayingSpecial w)
     (inInteraction w).
Definition set_currentAnimation (a : Animation) (w : t) : t :=
  mk (index w) (speed w) (isWalking w) a (walkingAction w)
     (idleAction w) (walkTimer w) (walkDuration w) (stopDuration w)
     (shouldWalk w) (boundary w) (targetX w) (targetZ w) (targetRotation w)
     (currentRotation w) (arrivalThreshold w) (justChangedTarget w)
     (animationsLoaded w) (currentSpecialAnimation w) (isPlayingSpecial w)
     (inInteraction w).
Definition set_actions (wa ia : bool) (w : t) : t :=
  mk (index w) (speed w) (isWalking w) (currentAnimation w) wa
     ia (walkTimer w) (walkDuration w) (stopDuration w)
     (shouldWalk w) (boundary w) (targetX w) (targetZ w) (targetRotation w)
     (currentRotation w) (arrivalThreshold w) (justChangedTarget w)
     (animationsLoaded w) (currentSpecialAnimation w) (isPlayingSpecial w)
     (inInteraction w).
Definition set_walkTimer (x : Q) (w : t) : t :=
  mk (index w) (speed w) (isWalking w) (currentAnimation w) (walkingAction w)
     (idleAction w) x (walkDuration w) (stopDuration w)
     (shouldWalk w) (boundary w) (targetX w) (targetZ w) (targetRotation w)
     (currentRotation w) (arrivalThreshold w) (justChangedTarget w)
     (animationsLoaded w) (currentSpecialAnimation w) (isPlayingSpecial w)
     (inInteraction w).
Definition set_walkDuration (x : Q) (w : t) : t :=
  mk (index w) (speed w) (isWalking w) (currentAnimation w) (walkingAction w)
     (idleAction w) (walkTimer w) x (stopDuration w)
     (shouldWalk w) (boundary w) (targetX w) (targetZ w) (targetRotation w)
     (currentRotation w) (arrivalThreshold w) (justChangedTarget w)
     (animationsLoaded w) (currentSpecialAnimation w) (isPlayingSpecial w)
     (inInteraction w).
Definition set_stopDuration (x : Q) (w : t) : t :=
  mk (index w) (speed w) (isWalking w) (currentAnimation w) (walkingAction w)
     (idleAction w) (walkTimer w) (walkDuration w) x
     (shouldWalk w) (boundary w) (targetX w) (targetZ w) (targetRotation w)
     (currentRotation w) (arrivalThreshold w) (justChangedTarget w)
     (animationsLoaded w) (currentSpecialAnimation w) (isPlayingSpecial w)
     (inInteraction w).
Definition set_shouldWalk (b : bool) (w : t) : t :=
  mk (index w) (speed w) (isWalking w) (currentAnimation w) (walkingAction w)
     (idleAction w) (walkTimer w) (walkDuration w) (stopDuration w)
     b (boundary w) (targetX w) (targetZ w) (targetRotation w)
     (currentRotation w) (arrivalThreshold w) (justChangedTarget w)
     (animationsLoaded w) (currentSpecialAnimation w) (isPlayingSpecial w)
     (inInteraction w).
Definition set_target (x z : Q) (w : t) : t :=
  mk (index w) (speed w) (isWalking w) (currentAnimation w) (walkingAction w)
     (idleAction w) (walkTimer w) (walkDuration w) (stopDuration w)
     (shouldWalk w) (boundary w) x z (targetRotation w)
     (currentRotation w) (arrivalThreshold w) (justChangedTarget w)
     (animationsLoaded w) (currentSpecialAnimation w) (isPlayingSpecial w)
     (inInteraction w).
Definition set_targetRotation (a : Q) (w : t) : t :=
  mk (index w) (speed w) (isWalking w) (currentAnimation w) (walkingAction w)
     (idleAction w) (walkTimer w) (walkDuration w) (stopDuration w)
     (shouldWalk w) (boundary w) (targetX w) (targetZ w) a
     (currentRotation w) (arrivalThreshold w) (justChangedTarget w)
     (animationsLoaded w) (currentSpecialAnimation w) (isPlayingSpecial w)
     (inInteraction w).
Definition set_currentRotation (a : Q) (w : t) : t :=
  mk (index w) (speed w) (isWalking w) (currentAnimation w) (walkingAction w)
     (idleAction w) (walkTimer w) (walkDuration w) (stopDuration w)
     (shouldWalk w) (boundary w) (targetX w) (targetZ w) (targetRotation w)
     a (arrivalThreshold w) (justChangedTarget w)
     (animationsLoaded w) (currentSpecialAnimation w) (isPlayingSpecial w)
     (inInteraction w).
Definition set_justChangedTarget (b : bool) (w : t) : t :=
  mk (index w) (speed w) (isWalking w) (currentAnimation w) (walkingAction w)
     (idleAction w) (walkTimer w) (walkDuration w) (stopDuration w)
     (shouldWalk w) (boundary w) (targetX w) (targetZ w) (targetRotation w)
     (currentRotation w) (arrivalThreshold w) b
     (animationsLoaded w) (currentSpecialAnimation w) (isPlayingSpecial w)
     (inInteraction w).
Definition set_animationsLoaded (b : bool) (w : t) : t :=
  mk (index w) (speed w) (isWalking w) (currentAnimation w) (walkingAction w)
     (idleAction w) (walkTimer w) (walkDuration w) (stopDuration w)
     (shouldWalk w) (boundary w) (targetX w) (targetZ w) (targetRotation w)
     (currentRotation w) (arrivalThreshold w) (justChangedTarget w)
     b (currentSpecialAnimation w) (isPlayingSpecial w)
     (inInteraction w).
Definition set_special (name : option string) (playing : bool) (w : t) : t :=
  mk (index w) (speed w) (isWalking w) (currentAnimation w) (walkingAction w)
     (idleAction w) (walkTimer w) (walkDuration w) (stopDuration w)
     (shouldWalk w) (boundary w) (targetX w) (targetZ w) (targetRotation w)
     (currentRotation w) (arrivalThreshold w) (justChangedTarget w)
     (animationsLoaded w) name playing
     (inInteraction w).
Definition set_inInteraction (b : bool) (w : t) : t :=
  mk (index w) (speed w) (isWalking w) (currentAnimation w) (walkingAction w)
     (idleAction w) (walkTimer w) (walkDuration w) (stopDuration w)
     (shouldWalk w) (boundary w) (targetX w) (targetZ w) (targetRotation w)
     (currentRotation w) (arrivalThreshold w) (justChangedTarget w)
     (animationsLoaded w) (currentSpecialAnimation w) (isPlayingSpecial w)
     (Some b).

(** [setNewTarget()], with its two draws. *)
Definition setNewTarget (rx rz : Q) (w : t) : t :=
  let maxRange := boundary w * 0.85 in
  set_target ((rx - 0.5) * 2 * maxRange) ((rz - 0.5) * 2 * maxRange) w.

(** The draws of the constructor, in call order. *)
Record CtorRand : Type := mkCtorRand {
  cWalkDuration : Q;
  cStopDuration : Q;
  cShouldWalk : Q;
  cTargetX : Q;
  cTargetZ : Q;
  cRotation : Q
}.

Definition constructor (r : CtorRand) (idx : nat) : t :=
  let w :=
    mk idx
       0.03                               (* speed *)
       false idle false false             (* isWalking .. idleAction *)
       0                                  (* walkTimer *)
       (120 + cWalkDuration r * 180)
       (60 + cStopDuration r * 120)
       (cShouldWalk r >? 0.5)
       11.25                              (* boundary *)
       0 0                                (* target, set just below *)
       0 0                                (* rotations, set just below *)
       0.15                               (* arrivalThreshold *)
       false false None false None in
  let w := setNewTarget (cTargetX r) (cTargetZ r) w in
  let initialRotation := (cRotation r - 0.5) * Math_PI * 2 in
  set_currentRotation initialRotation (set_targetRotation 0 w).

(** [switchToWalking()]: it has no [await], so the whole body runs within
    the call. *)
Definition switchToWalking (w : t) : t :=
  if negb (walkingAction w) || negb (idleAction w) then w
  else if Animation_eqb (currentAnimation w) walking then w
  else set_isWalking true (set_currentAnimation walking w).

(** [switchToIdle()] up to its first [await].  With [isPlayingSpecial] set
    the body suspends on [changeFBX] before any assignment;
    [idleReloaded] is its continuation. *)
Definition switchToIdle (w : t) : t :=
  if negb (idleAction w) then w
  else if Animation_eqb (currentAnimation w) idle then w
  else if isPlayingSpecial w then w
  else if negb (walkingAction w) then w
  else set_special None false
         (set_isWalking false (set_currentAnimation idle w)).

(** The draws of one [update()] call, one per call site of
    [Math.random()]. *)
Record Rand : Type := mkRand {
  rDuration : Q;     (* new stopDuration or walkDuration on a toggle *)
  rArriveX : Q;      (* setNewTarget on arrival *)
  rArriveZ : Q;
  rSpecial : Q;      (* the 33% test *)
  rIndex : Q;        (* playRandomSpecialAnimation's index *)
  rBoundX : Q;       (* setNewTarget at the boundary *)
  rBoundZ : Q
}.

Definition safetyMargin : Q := 0.5.
Definition rotationThreshold : Q := 0.1.

(** "Toggle between walking and stopping". *)
Definition toggle (r : Rand) (w : t) : t :=
  let w := set_walkTimer (walkTimer w + 1) w in
  if shouldWalk w then
    if walkTimer w >=? walkDuration w then
      switchToIdle
        (set_stopDuration (60 + rDuration r * 120)
           (set_walkTimer 0 (set_shouldWalk false w)))
    else w
  else
    if walkTimer w >=? stopDuration w then
      switchToWalking
        (set_walkDuration (120 + rDuration r * 180)
           (set_walkTimer 0 (set_shouldWalk true w)))
    else w.

(** "Calculate distance and direction to target".  The call of
    [playRandomSpecialAnimation()] assigns no field of the walker before its
    [await]; [specialRequested] tells whether it was called. *)
Definition specialRequested (M : MathImpl) (r : Rand) (w : t) (c : Gvrm) : bool :=
  let dx := targetX w - posX c in
  let dz := targetZ w - posZ c in
  shouldWalk w
  && (Math_sqrt M (dx * dx + dz * dz) <? arrivalThreshold w)
  && (rSpecial r <? 0.33).

Definition navigate (M : MathImpl) (r : Rand) (w : t) (c : Gvrm) : t :=
  if shouldWalk w then
    let dx := targetX w - posX c in
    let dz := targetZ w - posZ c in
    let distanceToTarget := Math_sqrt M (dx * dx + dz * dz) in
    let worldRotation := Math_atan2 M dx dz in
    let w := set_targetRotation (worldRotation - rot0y c) w in
    if distanceToTarget <? arrivalThreshold w
    then setNewTarget (rArriveX r) (rArriveZ r) w
    else w
  else w.

(** "Smoothly rotate": the normalised difference, and the walker after the
    10% step and the second normalisation. *)
Definition rotDiffOf (w : t) : Q :=
  normalizeAngle (targetRotation w - currentRotation w).

Definition rotate (w : t) : t :=
  set_currentRotation
    (normalizeAngle (currentRotation w + rotDiffOf w * 0.1)) w.

(** "Walk movement".  The forward vector is (0,0,1) turned by the product of
    the heading quaternion and the quaternion of angle [-rot0.y], both about
    the Y axis: the vector (sin a, 0, cos a) for
    a = currentRotation - rot0.y. *)
Definition clamp (lo hi x : Q) : Q := Math_max lo (Math_min hi x).

Definition walk (M : MathImpl) (r : Rand) (isRotationComplete : bool)
    (w : t) (c : Gvrm) : t * Gvrm :=
  if shouldWalk w && isWalking w && isRotationComplete then
    let a := currentRotation w - rot0y c in
    let newX := posX c + speed w * Math_sin M a in
    let newZ := posZ c + speed w * Math_cos M a in
    if (Math_abs newX <? boundary w - safetyMargin)
       && (Math_abs newZ <? boundary w - safetyMargin)
    then (w, setPosXZ newX newZ c)
    else
      let c' :=
        setPosXZ
          (clamp (- boundary w + safetyMargin) (boundary w - safetyMargin) newX)
          (clamp (- boundary w + safetyMargin) (boundary w - safetyMargin) newZ)
          c in
      if negb (justChangedTarget w)
      then (set_justChangedTarget true
              (setNewTarget (rBoundX r) (rBoundZ r) w), c')
      else (w, c')
  else (w, c).

(** [update()].  The avatar is [None] when [this.gvrm] is null. *)
Definition update (M : MathImpl) (r : Rand) (w : t) (g : option Gvrm)
    : t * option Gvrm :=
  match g with
  | None => (w, g)
  | Some c =>
    if negb (isReady c) || negb (animationsLoaded w) then (w, g)
    else if isPlayingSpecial w then (w, g)
    else
      let w1 := toggle r w in
      let w2 := navigate M r w1 c in
      let rotDiff := rotDiffOf w2 in
      let w3 := rotate w2 in
      let isRotationComplete := Math_abs rotDiff <? rotationThreshold in
      let c1 := setYaw (currentRotation w3) c in
      let '(w4, c2) := walk M r isRotationComplete w3 c1 in
      (w4, Some c2)
  end.

(** Events that reach the walker outside [update()]. *)

(** [initAnimations()] when both loads succeed.  The actions are what
    [gvrm.character.action] holds after each load (non-null or not);
    [this.idleAction.play()] throws on a null action and the [catch] leaves
    [animationsLoaded] unset. *)
Definition initAnimations (g : option Gvrm) (walkingOk idleOk : bool) (w : t)
    : t :=
  match g with
  | None => w
  | Some c =>
    if negb (isReady c) then w
    else
      let w := set_actions walkingOk idleOk w in
      if idleOk
      then set_animationsLoaded true (set_currentAnimation idle w)
      else w
  end.

(** Continuation of [playRandomSpecialAnimation()] after the clip loaded:
    "Update state" and "Stop walking while playing animation". *)
Definition specialStarted (name : string) (w : t) : t :=
  set_walkTimer 0
    (set_shouldWalk false
       (set_special (Some name) true
          (set_isWalking false (set_currentAnimation special w)))).

(** Continuation of [switchToIdle()] when it came from a special clip, and
    the [stopDuration] drawn by the [finished] handler. *)
Definition idleReloaded (walkingOk idleOk : bool) (rStop : Q) (w : t) : t :=
  set_stopDuration (60 + rStop * 120)
    (set_actions walkingOk idleOk
       (set_special None false
          (set_isWalking false (set_currentAnimation idle w)))).

(** The [setTimeout] callback of the boundary branch. *)
Definition debounceExpired (w : t) : t := set_justChangedTarget false w.

End Walker.

(** ** The turning step in binary64 *)

(** "Smoothly rotate" of [Walker.update()] (src/app5/main.js, 971-981) as
    the engine computes it: the subtraction, the product with 0.1, the sum
    and each step of the two normalisation loops are rounded to binary64.
    [Math.PI * 2] and [-Math.PI] are exact.  [fuel] bounds the iterations
    of each loop: for headings within two turns one iteration is enough,
    and more fuel gives the same result ([normalize_spec] below). *)
Module Turning.

Definition tau : Q := Double.round (Math_PI * 2).

Fixpoint whileAbove (fuel : nat) (a : Q) : Q :=
  match fuel with
  | O => a
  | S f => if a >? Math_PI then whileAbove f (Double.round (a - tau)) else a
  end.

Fixpoint whileBelow (fuel : nat) (a : Q) : Q :=
  match fuel with
  | O => a
  | S f => if a <? - Math_PI then whileBelow f (Double.round (a + tau)) else a
  end.

Definition normalizeAngle (fuel : nat) (a : Q) : Q :=
  whileBelow fuel (whileAbove fuel a).

(** [rotDiff] after its two loops, and [currentRotation] after the 10%
    step and its two loops, for the headings [tr] (target) and [cr]. *)
Definition rotDiff (fuel : nat) (tr cr : Q) : Q :=
  normalizeAngle fuel (Double.round (tr - cr)).

Definition step (fuel : nat) (tr cr : Q) : Q :=
  normalizeAngle fuel
    (Double.round (cr + Double.round (rotDiff fuel tr cr * Double.round 0.1))).

Definition rotDiffOf (fuel : nat) (w : Walker.t) : Q :=
  rotDiff fuel (Walker.targetRotation w) (Walker.currentRotation w).

Definition rotate (fuel : nat) (w : Walker.t) : Walker.t :=
  Walker.set_currentRotation
    (step fuel (Walker.targetRotation w) (Walker.currentRotation w)) w.

End Turning.

(** ** The shared arrays *)

(** [gvrms] and [walkers] of main.js: one walker is pushed for each avatar.
    References to a walker or an avatar are indices into these arrays. *)
Record Scene : Type := mkScene {
  gvrms : list Gvrm;
  walkers : list Walker.t
}.

Fixpoint updateNth {A : Type} (n : nat) (f : A -> A) (l : list A) : list A :=
  match l, n with
  | [], _ => []
  | x :: tl, O => f x :: tl
  | x :: tl, S k => x :: updateNth k f tl
  end.

Definition onWalker (i : nat) (f : Walker.t -> Walker.t) (s : Scene) : Scene :=
  mkScene (gvrms s) (updateNth i f (walkers s)).
Definition onGvrm (i : nat) (f : Gvrm -> Gvrm) (s : Scene) : Scene :=
  mkScene (updateNth i f (gvrms s)) (walkers s).

(** ** three.js vectors *)

Record Vector3 : Type := vec3 { vx : Q; vy : Q; vz : Q }.

Definition subVectors (a b : Vector3) : Vector3 :=
  vec3 (vx a - vx b) (vy a - vy b) (vz a - vz b).
Definition addV (a b : Vector3) : Vector3 :=
  vec3 (vx a + vx b) (vy a + vy b) (vz a + vz b).
Definition subV (a b : Vector3) : Vector3 := subVectors a b.
Definition multiplyScalar (v : Vector3) (k : Q) : Vector3 :=
  vec3 (vx v * k) (vy v * k) (vz v * k).
Definition lengthV (M : MathImpl) (v : Vector3) : Q :=
  Math_sqrt M (vx v * vx v + vy v * vy v + vz v * vz v).
(** [normalize()] is [divideScalar(this.length() || 1)]. *)
Definition normalize (M : MathImpl) (v : Vector3) : Vector3 :=
  let l := lengthV M v in
  multiplyScalar v (1 / (if Qeq_bool l 0 then 1 else l)).
Definition distanceTo (M : MathImpl) (a b : Vector3) : Q :=
  lengthV M (subVectors a b).
Definition position (g : Gvrm) : Vector3 := vec3 (posX g) (posY g) (posZ g).

(** ** Interaction *)

Inductive InteractionClass : Type :=
  | GreetingInteraction | DancePartyInteraction | ChickenDanceInteraction
  | ListeningInteraction | PointingInteraction | WarriorPoseInteraction
  | DizzySpinInteraction | FlyingDreamInteraction | ShrugInteraction
  | CombatTrainingInteraction | HappyMeetingInteraction
  | BreathingExerciseInteraction | WalkTogetherInteraction
  | MorningGreetingInteraction | EveningGoodbyeInteraction
  | NearHouseMeetingInteraction | FarDistanceWaveInteraction
  | CircleDanceInteraction | MutualPointingInteraction
  | NightSkyGazingInteraction | FlyingShowInteraction
  | ListeningCircleInteraction | WarriorCombatInteraction
  | RelaxBreakInteraction | MixedDancePartyInteraction.

Definition InteractionClass_eq_dec (a b : InteractionClass) : {a = b} + {a <> b}.
Proof. decide equality. Defined.

Definition isClass (a b : InteractionClass) : bool :=
  if InteractionClass_eq_dec a b then true else false.

(** The state of a promise after the code that creates it has run. *)
Inductive PromiseState : Type :=
  | Pending
  | Resolved
  | Rejected (error : string).

Module Interaction.

(** [gvrm1], [walker1] are [gvrms[index1]], [walkers[index1]], and likewise
    for the second participant.  [targetPos] is the field that
    [WalkTogetherInteraction.onStart] adds.  [endCalls] is not a field of
    the source: it counts the calls of [end()]. *)
Record t : Type := mk {
  cls : InteractionClass;
  index1 : nat;
  index2 : nat;
  isActive : bool;
  duration : Q;
  frameCount : Z;
  interactionDistance : Q;
  original1 : bool;
  original2 : bool;
  targetPos : option Vector3;
  endCalls : nat
}.

Definition constructor (c : InteractionClass) (i1 i2 : nat) : t :=
  mk c i1 i2 false (7.5 * 60) 0%Z 0.8 false false None O.

Definition gvrm1 (i : t) (s : Scene) : option Gvrm := nth_error (gvrms s) (index1 i).
Definition gvrm2 (i : t) (s : Scene) : option Gvrm := nth_error (gvrms s) (index2 i).
Definition walker1 (i : t) (s : Scene) : option Walker.t := nth_error (walkers s) (index1 i).
Definition walker2 (i : t) (s : Scene) : option Walker.t := nth_error (walkers s) (index2 i).

Definition posOf (g : option Gvrm) : Vector3 :=
  match g with Some c => position c | None => vec3 0 0 0 end.

(** [getDistance()]. *)
Definition getDistance (M : MathImpl) (i : t) (s : Scene) : Q :=
  distanceTo M (posOf (gvrm1 i s)) (posOf (gvrm2 i s)).

(** The targets of [moveAvatarsTogether()]: the two branches of its [if],
    as written. *)
Definition meetingTargets (M : MathImpl) (interactionDistance : Q)
    (pos1 pos2 : Vector3) : Vector3 * Vector3 :=
  let currentDistance := distanceTo M pos1 pos2 in
  if currentDistance <? interactionDistance * 2 then
    let direction := normalize M (subVectors pos2 pos1) in
    let walkDistance : Q := 3 in
    let midpoint := vec3 ((vx pos1 + vx pos2) / 2) 0 ((vz pos1 + vz pos2) / 2) in
    (subV midpoint (multiplyScalar direction (interactionDistance / 2)),
     addV midpoint (multiplyScalar direction (interactionDistance / 2)))
  else
    let midpoint := vec3 ((vx pos1 + vx pos2) / 2) 0 ((vz pos1 + vz pos2) / 2) in
    let direction := normalize M (subVectors pos2 pos1) in
    let halfDistance := interactionDistance / 2 in
    (subV midpoint (multiplyScalar direction halfDistance),
     addV midpoint (multiplyScalar direction halfDistance)).

(** [moveAvatarsTogether()] up to the return of the promise.  The executor
    hands each walker its destination and a callback with
    [setTemporaryTarget] and returns: the promise is pending until both
    callbacks have run and the timer of [checkBothArrived] has fired. *)
Definition moveAvatarsTogether (M : MathImpl) (i : t) (s : Scene)
    : (Vector3 * Vector3) * PromiseState :=
  let targets :=
    meetingTargets M (interactionDistance i)
      (posOf (gvrm1 i s)) (posOf (gvrm2 i s)) in
  (targets, Pending).


Definition set_active (b : bool) (i : t) : t :=
  mk (cls i) (index1 i) (index2 i) b (duration i) (frameCount i)
     (interactionDistance i) (original1 i) (original2 i) (targetPos i)
     (endCalls i).
Definition set_frameCount (n : Z) (i : t) : t :=
  mk (cls i) (index1 i) (index2 i) (isActive i) (duration i) n
     (interactionDistance i) (original1 i) (original2 i) (targetPos i)
     (endCalls i).
Definition set_original (b1 b2 : bool) (i : t) : t :=
  mk (cls i) (index1 i) (index2 i) (isActive i) (duration i) (frameCount i)
     (interactionDistance i) b1 b2 (targetPos i) (endCalls i).
Definition set_targetPos (p : option Vector3) (i : t) : t :=
  mk (cls i) (index1 i) (index2 i) (isActive i) (duration i) (frameCount i)
     (interactionDistance i) (original1 i) (original2 i) p (endCalls i).
Definition count_end (i : t) : t :=
  mk (cls i) (index1 i) (index2 i) (isActive i) (duration i) (frameCount i)
     (interactionDistance i) (original1 i) (original2 i) (targetPos i)
     (S (endCalls i)).

Definition walkingOf (w : option Walker.t) : bool :=
  match w with Some x => Walker.isWalking x | None => false end.

(** [start()] up to its first [await]: the flags, the snapshot of the
    walkers, and the call of [moveAvatarsTogether()]. *)
Definition start (M : MathImpl) (i : t) (s : Scene) : t * PromiseState :=
  let i := set_frameCount 0%Z (set_active true i) in
  let i := set_original (walkingOf (walker1 i s)) (walkingOf (walker2 i s)) i in
  (i, snd (moveAvatarsTogether M i s)).

(** The rest of [start()], run when the promise of
    [moveAvatarsTogether()] resolves: "Now pause walkers during interaction
    animation (prevent walker from updating)", then [onStart()]. *)
Definition suspendWalker (w : Walker.t) : Walker.t :=
  Walker.set_inInteraction true
    (Walker.set_shouldWalk false (Walker.set_isWalking false w)).



(** [end()]: "Restore walker states".  [onEnd()] only changes animations
    and shows speech. *)
Definition resumeWalker (original : bool) (w : Walker.t) : Walker.t :=
  Walker.set_inInteraction false (Walker.set_isWalking original w).

Definition end_ (i : t) (s : Scene) : t * Scene :=
  let i := count_end (set_active false i) in
  let s := onWalker (index1 i) (resumeWalker (original1 i)) s in
  let s := onWalker (index2 i) (resumeWalker (original2 i)) s in
  (i, s).

(** [moveCharacterTowards(gvrm, targetPos, speed)]. *)
Definition moveCharacterTowards (M : MathImpl) (targetPos : Vector3)
    (speed : Q) (g : Gvrm) : Gvrm :=
  let currentPos := position g in
  let direction := subVectors targetPos currentPos in
  let distance := lengthV M direction in
  if distance >? 0.1 then
    let step := multiplyScalar (normalize M direction) speed in
    let p := addV currentPos step in
    mkGvrm (isReady g) (isLoading g) (vx p) (vy p) (vz p) (rot0y g)
      (Math_atan2 M (vx step) (vz step))
  else g.

(** [onUpdate()]: empty in the base class and in every variant except
    [WalkTogetherInteraction]. *)
Definition onUpdate (M : MathImpl) (i : t) (s : Scene) : Scene :=
  match cls i, targetPos i with
  | WalkTogetherInteraction, Some p =>
    if inject_Z (frameCount i) <? duration i / 2 then
      let s := onGvrm (index1 i) (moveCharacterTowards M p 0.02) s in
      onGvrm (index2 i) (moveCharacterTowards M (addV p (vec3 1.5 0 0)) 0.02) s
    else s
  | _, _ => s
  end.

(** [update()]. *)
Definition update (M : MathImpl) (i : t) (s : Scene) : t * Scene :=
  if negb (isActive i) then (i, s)
  else
    let i := set_frameCount (frameCount i + 1)%Z i in
    if inject_Z (frameCount i) >=? duration i then end_ i s
    else (i, onUpdate M i s).

End Interaction.

(** ** The Walker of the interaction pages *)

(** [Interaction] writes [inInteraction] on its walkers and calls their
    [setTemporaryTarget].  The class it is used with is the [Walker] of
    [./walker.js], imported by src/app2/main.js; that file is not under
    src/.  The [Walker] under src/ is the one of src/app5, a page without
    interactions ("Interaction manager removed"): it has neither the
    suspension nor the temporary target.  The two mechanisms are therefore
    taken from the specification (sections 3 and 4.1); everything else of
    the class is [Walker] above. *)
Module SpecWalker.

(** Modelled from the spec: the state of the missing Walker of
    [./walker.js].  "A flag [inInteraction] / [temporaryTarget] override
    that, when set, suspends normal target selection": the flag is the
    property of [walker]; [temporaryTarget] is the one-off destination
    while the override is active.  [callbackCalls] counts how often the
    completion callback given with the destination has been invoked. *)
Record t : Type := mk {
  walker : Walker.t;
  temporaryTarget : option (Q * Q);
  callbackCalls : nat
}.

(** Modelled from the spec: "mark the Walker in interaction", the mark of
    the missing Walker that [Interaction.start] sets to true and
    [Interaction.end] to false. *)
Definition suspended (w : t) : bool :=
  match Walker.inInteraction (walker w) with
  | Some true => true
  | _ => false
  end.

(** Modelled from the spec: [setTemporaryTarget(x, z, callback)] of the
    missing Walker.  "External callers may set a one-off destination with
    a completion callback and a stricter arrival threshold." *)
Definition setTemporaryTarget (x z : Q) (w : t) : t :=
  mk (walker w) (Some (x, z)) 0.

(** Modelled from the spec: arrival at the temporary destination of the
    missing Walker, a distance below the stricter threshold.  The spec
    gives no value for [threshold]. *)
Definition arrived (M : MathImpl) (threshold x z : Q) (c : Gvrm) : bool :=
  let dx := x - posX c in
  let dz := z - posZ c in
  Math_sqrt M (dx * dx + dz * dz) <? threshold.

(** Modelled from the spec: [update()] of the missing Walker.  It "must be
    a no-op if the avatar is not ready or its animation set is not yet
    loaded, or if the Walker is currently suspended for an interaction".
    The override, "while active, overrides normal target selection (not
    the gesture-trigger logic) and invokes the callback exactly once on
    arrival"; it is one-off.  Without override the frame is the
    [Walker.update] of the code.  How a frame takes the avatar toward the
    temporary destination is not said: [approach] stands for it. *)
Definition update (M : MathImpl) (threshold : Q)
    (approach : Q -> Q -> Walker.Rand -> Walker.t -> Gvrm -> Walker.t * Gvrm)
    (r : Walker.Rand) (w : t) (g : option Gvrm) : t * option Gvrm :=
  if suspended w then (w, g)
  else
    match temporaryTarget w with
    | Some (x, z) =>
      match g with
      | Some c =>
        if negb (isReady c) || negb (Walker.animationsLoaded (walker w))
        then (w, g)
        else if arrived M threshold x z c then
          (mk (walker w) None (S (callbackCalls w)), g)
        else
          let '(w', c') := approach x z r (walker w) c in
          (mk w' (Some (x, z)) (callbackCalls w), Some c')
      | None => (w, g)
      end
    | None =>
      let '(w', g') := Walker.update M r (walker w) g in
      (mk w' None (callbackCalls w), g')
    end.


(** Modelled from the spec: successive frames of the missing Walker, one
    [update()] per entry of [rs]. *)
Fixpoint updates (M : MathImpl) (threshold : Q)
    (approach : Q -> Q -> Walker.Rand -> Walker.t -> Gvrm -> Walker.t * Gvrm)
    (rs : list Walker.Rand) (w : t) (g : option Gvrm) : t * option Gvrm :=
  match rs with
  | [] => (w, g)
  | r :: rest =>
    let '(w', g') := update M threshold approach r w g in
    updates M threshold approach rest w' g'
  end.


End SpecWalker.

(** ** InteractionManager *)

(** A JavaScript number that may be [Infinity]: the distances of
    [getDistance] and [getDistanceFromHouse]. *)
Inductive Distance : Type :=
  | Finite (d : Q)
  | Infinity.

Definition Distance_gt (d : Distance) (k : Q) : bool :=
  match d with Finite x => x >? k | Infinity => true end.
Definition Distance_lt (d : Distance) (k : Q) : bool :=
  match d with Finite x => x <? k | Infinity => false end.

Module InteractionManager.

(** [gvrms] and [walkers] are the shared arrays of the [Scene];
    [timeOfDay] is [context.timeOfDay]. *)
Record t : Type := mk {
  activeInteraction : option Interaction.t;
  lastInteractionHour : Z;
  timeOfDay : Q
}.

Definition constructor (timeOfDay : Q) : t := mk None (-1)%Z timeOfDay.

Definition interactionTypes : list InteractionClass :=
  [GreetingInteraction; DancePartyInteraction; ChickenDanceInteraction;
   ListeningInteraction; PointingInteraction; WarriorPoseInteraction;
   DizzySpinInteraction; FlyingDreamInteraction; ShrugInteraction;
   CombatTrainingInteraction; HappyMeetingInteraction;
   BreathingExerciseInteraction; WalkTogetherInteraction;
   MorningGreetingInteraction; EveningGoodbyeInteraction;
   NearHouseMeetingInteraction; FarDistanceWaveInteraction;
   CircleDanceInteraction; MutualPointingInteraction;
   NightSkyGazingInteraction; FlyingShowInteraction;
   ListeningCircleInteraction; WarriorCombatInteraction;
   RelaxBreakInteraction; MixedDancePartyInteraction].

Definition updateContext (tod : Q) (m : t) : t :=
  mk (activeInteraction m) (lastInteractionHour m) tod.

(** [selectTwoRandomAvatars()].  [draws] are the results of the successive
    [Math.random()] calls; the [while (index2 === index1)] loop takes one
    draw per iteration and the model stops with [None] when they run out. *)
Definition randomIndex (u : Q) (n : nat) : nat :=
  Z.to_nat (Math_floor (u * inject_Z (Z.of_nat n))).

Fixpoint redraw (index1 index2 : nat) (n : nat) (draws : list Q) : option nat :=
  if Nat.eqb index2 index1 then
    match draws with
    | [] => None
    | u :: rest => redraw index1 (randomIndex u n) n rest
    end
  else Some index2.

Inductive Avatars : Type :=
  | NoAvatars                         (* [return null] *)
  | OutOfDraws
  | Pair (index1 index2 : nat).

Definition selectTwoRandomAvatars (draws : list Q) (s : Scene) : Avatars :=
  let n := List.length (gvrms s) in
  if (n <? 2)%nat then NoAvatars
  else
    match draws with
    | u1 :: u2 :: rest =>
      let index1 := randomIndex u1 n in
      match redraw index1 (randomIndex u2 n) n rest with
      | Some index2 => Pair index1 index2
      | None => OutOfDraws
      end
    | _ => OutOfDraws
    end.

(** [getDistance(gvrm1, gvrm2)] and [getDistanceFromHouse(gvrm)]. *)
Definition getDistance (M : MathImpl) (g1 g2 : option Gvrm) : Distance :=
  match g1, g2 with
  | Some a, Some b =>
    if negb (isReady a) || negb (isReady b) then Infinity
    else Finite (distanceTo M (position a) (position b))
  | _, _ => Infinity
  end.

Definition getDistanceFromHouse (M : MathImpl) (g : option Gvrm) : Distance :=
  match g with
  | Some a =>
    if negb (isReady a) then Infinity
    else
      let dx := posX a - 0 in
      let dz := posZ a - (-10) in
      Finite (Math_sqrt M (dx * dx + dz * dz))
  | None => Infinity
  end.

(** The body of the [forEach] of [selectInteraction]: the weight of one
    class.  The weights are binary64 numbers: 0.3, 0.5 and 0.8 are the
    numbers nearest to these decimals, and the two products are rounded. *)
Definition weightOf (timeOfDay : Q) (distance dHouse1 dHouse2 : Distance)
    (c : InteractionClass) : Q :=
  let weight : Q := 1.0 in
  let weight :=
    if isClass c MorningGreetingInteraction then
      if (timeOfDay >=? 6) && (timeOfDay <? 12) then 3.0 else 0.5
    else if isClass c EveningGoodbyeInteraction then
      if (timeOfDay >=? 18) || (timeOfDay <? 6) then 3.0 else 0.5
    else if isClass c NightSkyGazingInteraction then
      if ((timeOfDay >=? 18) && (timeOfDay <=? 24))
         || ((timeOfDay >=? 0) && (timeOfDay <? 6)) then 3.0
      else Double.round 0.3
    else weight in
  let weight :=
    if isClass c FarDistanceWaveInteraction then
      if Distance_gt distance 7 then 3.0 else Double.round 0.3
    else if isClass c WalkTogetherInteraction then
      if Distance_lt distance 3 then 2.0 else 0.5
    else weight in
  let weight :=
    if isClass c NearHouseMeetingInteraction then
      let nearHouse := Distance_lt dHouse1 5 || Distance_lt dHouse2 5 in
      if nearHouse then 3.0 else Double.round 0.3
    else weight in
  if isClass c GreetingInteraction || isClass c HappyMeetingInteraction
  then Double.round (weight * 1.5)
  else if isClass c DancePartyInteraction || isClass c ChickenDanceInteraction
  then Double.round (weight * Double.round 0.8)
  else weight.

Definition weightsOf (timeOfDay : Q) (distance dHouse1 dHouse2 : Distance)
    : list (InteractionClass * Q) :=
  map (fun c => (c, weightOf timeOfDay distance dHouse1 dHouse2 c))
      interactionTypes.

(** [weights.reduce((sum, item) => sum + item.weight, 0)]: every sum is
    rounded. *)
Definition totalWeight (weights : list (InteractionClass * Q)) : Q :=
  fold_left (fun sum item => Double.round (sum + snd item)) weights 0.

(** The [for (const item of weights)] loop: [Some] class when an iteration
    returns, [None] when the loop ends without returning.
    [random -= item.weight] is a rounded subtraction. *)
Fixpoint walkWeights (random : Q) (weights : list (InteractionClass * Q))
    : option InteractionClass :=
  match weights with
  | [] => None
  | item :: rest =>
    let random := Double.round (random - snd item) in
    if random <=? 0 then Some (fst item) else walkWeights random rest
  end.

(** "Weighted random selection" on a list of weights, for the draw [u] of
    [Math.random()]. *)
Definition weightedSelection (weights : list (InteractionClass * Q)) (u : Q)
    : InteractionClass :=
  let random := Double.round (u * totalWeight weights) in
  match walkWeights random weights with
  | Some c => c
  | None => GreetingInteraction      (* "Fallback to greeting" *)
  end.

Definition selectInteraction (M : MathImpl) (u : Q) (m : t) (s : Scene)
    (index1 index2 : nat) : Interaction.t :=
  let gvrm1 := nth_error (gvrms s) index1 in
  let gvrm2 := nth_error (gvrms s) index2 in
  let distance := getDistance M gvrm1 gvrm2 in
  let distanceFromHouse1 := getDistanceFromHouse M gvrm1 in
  let distanceFromHouse2 := getDistanceFromHouse M gvrm2 in
  let weights :=
    weightsOf (timeOfDay m) distance distanceFromHouse1 distanceFromHouse2 in
  Interaction.constructor (weightedSelection weights u) index1 index2.

Definition hasActive (m : t) : bool :=
  match activeInteraction m with
  | Some i => Interaction.isActive i
  | None => false
  end.

(** [shouldStartInteraction(currentHour)]. *)
Definition shouldStartInteraction (m : t) (s : Scene) (currentHour : Z) : bool :=
  if hasActive m then false
  else
    let last := lastInteractionHour m in
    let inCooldown :=
      if negb (last =? -1)%Z then
        let hoursPassed := (currentHour - last)%Z in
        if (hoursPassed <? 4)%Z && (hoursPassed >=? 0)%Z then true
        else if (currentHour <? last)%Z && (24 - last + currentHour <? 4)%Z
        then true
        else false
      else false in
    if inCooldown then false
    else if (List.length (gvrms s) <? 2)%nat then false
    else true.

Definition readyAt (s : Scene) (i : nat) : bool :=
  match nth_error (gvrms s) i with
  | Some g => isReady g
  | None => false
  end.

(** [startNewInteraction(currentHour)] up to its [await]: everything it
    assigns is assigned before. *)
Definition startNewInteraction (M : MathImpl) (draws : list Q) (u : Q)
    (currentHour : Z) (m : t) (s : Scene) : t :=
  if negb (shouldStartInteraction m s currentHour) then m
  else
    let m := mk (activeInteraction m) currentHour (timeOfDay m) in
    match selectTwoRandomAvatars draws s with
    | Pair index1 index2 =>
      if negb (readyAt s index1) || negb (readyAt s index2) then m
      else
        let interaction := selectInteraction M u m s index1 index2 in
        mk (Some (fst (Interaction.start M interaction s)))
           (lastInteractionHour m) (timeOfDay m)
    | _ => m
    end.

(** [update(virtualTime)]. *)
Definition update (M : MathImpl) (draws : list Q) (u : Q) (virtualTime : Q)
    (m : t) (s : Scene) : t * Scene :=
  let currentHour := Math_floor virtualTime in
  let m := updateContext virtualTime m in
  let m := startNewInteraction M draws u currentHour m s in
  match activeInteraction m with
  | Some i =>
    if Interaction.isActive i then
      let '(i', s') := Interaction.update M i s in
      if negb (Interaction.isActive i')
      then (mk None (lastInteractionHour m) (timeOfDay m), s')
      else (mk (Some i') (lastInteractionHour m) (timeOfDay m), s')
    else (m, s)
  | None => (m, s)
  end.

End InteractionManager.

(** ** Runs and statements *)

(** [n] successive frames of a walker, with the draws of each frame. *)
Fixpoint updates (M : MathImpl) (rs : list Walker.Rand) (w : Walker.t)
    (g : option Gvrm) : Walker.t * option Gvrm :=
  match rs with
  | [] => (w, g)
  | r :: rest =>
    let '(w', g') := Walker.update M r w g in
    updates M rest w' g'
  end.

(** The states a walker object goes through: built by the constructor with
    draws of [Math.random()], which lie in [0, 1), then changed by
    [update()], by the continuations of its asynchronous methods, by its
    timer, and by the writes of [Interaction.start] and [Interaction.end]. *)
Definition isDraw (u : Q) : Prop := 0 <= u /\ u < 1.

Inductive reachable : Walker.t -> Prop :=
  | reach_constructor r idx :
      isDraw (Walker.cRotation r) ->
      reachable (Walker.constructor r idx)
  | reach_update M r w g :
      reachable w -> reachable (fst (Walker.update M r w g))
  | reach_initAnimations g wa ia w :
      reachable w -> reachable (Walker.initAnimations g wa ia w)
  | reach_specialStarted name w :
      reachable w -> reachable (Walker.specialStarted name w)
  | reach_switchToIdle w :
      reachable w -> reachable (Walker.switchToIdle w)
  | reach_idleReloaded wa ia u w :
      reachable w -> reachable (Walker.idleReloaded wa ia u w)
  | reach_debounceExpired w :
      reachable w -> reachable (Walker.debounceExpired w)
  | reach_suspend w :
      reachable w -> reachable (Interaction.suspendWalker w)
  | reach_resume b w :
      reachable w -> reachable (Interaction.resumeWalker b w).

(** The arena of a walker, inside its safety margin. *)
Definition withinArena (w : Walker.t) (c : Gvrm) : Prop :=
  Qabs (posX c) <= Walker.boundary w - Walker.safetyMargin
  /\ Qabs (posZ c) <= Walker.boundary w - Walker.safetyMargin.

(** The walker as [update()] has it when it reaches "Walk movement", and
    the condition of that branch. *)
Definition turned (M : MathImpl) (r : Walker.Rand) (w : Walker.t) (c : Gvrm)
    : Walker.t :=
  Walker.rotate (Walker.navigate M r (Walker.toggle r w) c).

Definition stepsForward (M : MathImpl) (r : Walker.Rand) (w : Walker.t)
    (c : Gvrm) : bool :=
  let w2 := Walker.navigate M r (Walker.toggle r w) c in
  Walker.shouldWalk w2 && Walker.isWalking w2
  && (Math_abs (Walker.rotDiffOf w2) <? Walker.rotationThreshold).

Definition newX (M : MathImpl) (r : Walker.Rand) (w : Walker.t) (c : Gvrm) : Q :=
  let w3 := turned M r w c in
  posX c + Walker.speed w3 * Math_sin M (Walker.currentRotation w3 - rot0y c).
Definition newZ (M : MathImpl) (r : Walker.Rand) (w : Walker.t) (c : Gvrm) : Q :=
  let w3 := turned M r w c in
  posZ c + Walker.speed w3 * Math_cos M (Walker.currentRotation w3 - rot0y c).

(** The forward step would leave the arena: the [else] of the "Boundary
    check". *)
Definition wouldExit (M : MathImpl) (r : Walker.Rand) (w : Walker.t)
    (c : Gvrm) : bool :=
  negb ((Math_abs (newX M r w c) <? Walker.boundary w - Walker.safetyMargin)
        && (Math_abs (newZ M r w c) <? Walker.boundary w - Walker.safetyMargin)).

(** [update()] runs past its two early returns. *)
Definition active (w : Walker.t) (c : Gvrm) : Prop :=
  isReady c = true /\ Walker.animationsLoaded w = true
  /\ Walker.isPlayingSpecial w = false.

(** [k] successive frames of an interaction. *)
Fixpoint frames (M : MathImpl) (k : nat) (i : Interaction.t) (s : Scene)
    : Interaction.t * Scene :=
  match k with
  | O => (i, s)
  | S k' => let '(i', s') := frames M k' i s in Interaction.update M i' s'
  end.

(** The first frame number, counted from 1, that is at least [d]. *)
Definition firstFrameReaching (d : Q) : Z := Z.max 1 (Qceiling d).

(** Hours since the last start, around the 24-hour clock. *)
Definition elapsedWithWrap (currentHour last : Z) : Z :=
  ((currentHour - last) mod 24)%Z.

Definition isHour (h : Z) : Prop := (0 <= h < 24)%Z.

Definition readyCount (s : Scene) : nat :=
  List.length (filter isReady (gvrms s)).

(** The value of [random] in the selection loop after [k] iterations. *)
Fixpoint remainderAfter (random : Q) (weights : list (InteractionClass * Q))
    (k : nat) : Q :=
  match k, weights with
  | S k', item :: rest =>
    remainderAfter (Double.round (random - snd item)) rest k'
  | _, _ => random
  end.

Definition distanceXZ2 (a b : Vector3) : Q :=
  (vx a - vx b) * (vx a - vx b) + (vz a - vz b) * (vz a - vz b).

(** The interaction after [n] frames, for first ending frame [K]. *)
Definition framesInvariant (d : Q) (e0 : nat) (n : nat) (i : Interaction.t)
    : Prop :=
  let K := firstFrameReaching d in
  Interaction.duration i = d
  /\ Interaction.frameCount i = Z.min (Z.of_nat n) K
  /\ Interaction.isActive i = (Z.of_nat n <? K)%Z
  /\ Interaction.endCalls i =
       (e0 + (if (K <=? Z.of_nat n)%Z then 1 else 0))%nat.

(** Two vectors with equal components. *)
Definition Veq (a b : Vector3) : Prop :=
  vx a == vx b /\ vy a == vy b /\ vz a == vz b.

(** The targets of [moveAvatarsTogether()] as its [else] branch computes
    them. *)
Definition midpointTargets (M : MathImpl) (interactionDistance : Q)
    (pos1 pos2 : Vector3) : Vector3 * Vector3 :=
  let midpoint := vec3 ((vx pos1 + vx pos2) / 2) 0 ((vz pos1 + vz pos2) / 2) in
  let direction := normalize M (subVectors pos2 pos1) in
  let halfDistance := interactionDistance / 2 in
  (subV midpoint (multiplyScalar direction halfDistance),
   addV midpoint (multiplyScalar direction halfDistance)).

(** ** Sample data *)

(** Draws of [Math.random()], an avatar in the middle of the arena, and a
    walker built by the constructor and after [initAnimations()].  With
    these draws the walker starts idle ([shouldWalk] false), stops for 60
    frames and faces a quarter turn away from its target heading. *)
Definition draws0 : Walker.Rand :=
  Walker.mkRand 0.5 0.5 0.5 0.5 0.5 0.5 0.5.
Definition ctorDraws0 : Walker.CtorRand :=
  Walker.mkCtorRand 0.5 0 0.25 0.5 0.5 0.75.
Definition avatar0 : Gvrm := mkGvrm true false 4 0 4 0 0.
Definition avatar1 : Gvrm := mkGvrm true false (- 5) 0 6 0 0.
Definition walker0 : Walker.t :=
  Walker.initAnimations (Some avatar0) true true (Walker.constructor ctorDraws0 0).


(** An avatar as [generateRandomPosition(11.25, 3.5)] of main.js may place
    it: x = (random - 0.5) * 11.25 * 2 with random = 0.99. *)
Definition avatarEdge : Gvrm :=
  mkGvrm true false ((0.99 - 0.5) * 11.25 * 2) 0 0 0 0.

(** A walker of the interaction pages after the writes of
    [Interaction.start], and one that was handed a temporary destination;
    a way to approach it that steps the avatar a tenth of the way. *)
Definition suspendedWalker : SpecWalker.t :=
  SpecWalker.mk (Interaction.suspendWalker walker0) None 0.
Definition headingWalker : SpecWalker.t :=
  SpecWalker.setTemporaryTarget 4 5 (SpecWalker.mk walker0 None 0).
Definition approach0 (x z : Q) (r : Walker.Rand) (w : Walker.t) (c : Gvrm)
    : Walker.t * Gvrm :=
  (w, setPosXZ (posX c + (x - posX c) * 0.1) (posZ c + (z - posZ c) * 0.1) c).

(** Two avatars that are not ready yet, with their walkers; the same two
    once ready; and a manager that has not started any interaction. *)
Definition loadingAvatar (x z : Q) : Gvrm := mkGvrm false true x 0 z 0 0.
Definition sceneLoading : Scene :=
  mkScene [loadingAvatar 1 1; loadingAvatar 2 5]
          [walker0; Walker.constructor ctorDraws0 1].
Definition sceneReady : Scene :=
  mkScene [avatar0; avatar1]
          [walker0;
           Walker.initAnimations (Some avatar1) true true
             (Walker.constructor ctorDraws0 1)].
Definition manager0 : InteractionManager.t := InteractionManager.constructor 5.5.

(** ** Walkers driven by draws of [Math.random()] *)

Definition validCtorRand (r : Walker.CtorRand) : Prop :=
  isDraw (Walker.cWalkDuration r) /\ isDraw (Walker.cStopDuration r)
  /\ isDraw (Walker.cShouldWalk r) /\ isDraw (Walker.cTargetX r)
  /\ isDraw (Walker.cTargetZ r) /\ isDraw (Walker.cRotation r).

Definition validRand (r : Walker.Rand) : Prop :=
  isDraw (Walker.rDuration r) /\ isDraw (Walker.rArriveX r)
  /\ isDraw (Walker.rArriveZ r) /\ isDraw (Walker.rSpecial r)
  /\ isDraw (Walker.rIndex r) /\ isDraw (Walker.rBoundX r)
  /\ isDraw (Walker.rBoundZ r).

(** The states of a walker whose every draw lies in [0, 1). *)
Inductive wellDriven : Walker.t -> Prop :=
  | wd_constructor r idx :
      validCtorRand r -> wellDriven (Walker.constructor r idx)
  | wd_update M r w g :
      validRand r -> wellDriven w -> wellDriven (fst (Walker.update M r w g))
  | wd_initAnimations g wa ia w :
      wellDriven w -> wellDriven (Walker.initAnimations g wa ia w)
  | wd_specialStarted name w :
      wellDriven w -> wellDriven (Walker.specialStarted name w)
  | wd_switchToIdle w :
      wellDriven w -> wellDriven (Walker.switchToIdle w)
  | wd_idleReloaded wa ia u w :
      isDraw u -> wellDriven w -> wellDriven (Walker.idleReloaded wa ia u w)
  | wd_debounceExpired w :
      wellDriven w -> wellDriven (Walker.debounceExpired w)
  | wd_suspend w :
      wellDriven w -> wellDriven (Interaction.suspendWalker w)
  | wd_resume b w :
      wellDriven w -> wellDriven (Interaction.resumeWalker b w).

(** What the draws keep: the constants of the constructor, a target inside
    85% of the boundary, and the two durations inside their ranges. *)
Definition targetInRange (w : Walker.t) : Prop :=
  Qabs (Walker.targetX w) <= 11.25 * 0.85
  /\ Qabs (Walker.targetZ w) <= 11.25 * 0.85.

Definition durationsInRange (w : Walker.t) : Prop :=
  (120 <= Walker.walkDuration w /\ Walker.walkDuration w < 300)
  /\ (60 <= Walker.stopDuration w /\ Walker.stopDuration w < 180).

Definition wellFormed (w : Walker.t) : Prop :=
  Walker.boundary w = 11.25 /\ targetInRange w /\ durationsInRange w.

(** The durations [120 + Math.random() * 180] and
    [60 + Math.random() * 120] of the constructor and of the toggle, as
    binary64 computes them from the draw [u]. *)
Definition walkDuration64 (u : Q) : Q :=
  Double.round (120 + Double.round (u * 180)).
Definition stopDuration64 (u : Q) : Q :=
  Double.round (60 + Double.round (u * 120)).

(** [update()] returns at once: no avatar, avatar not ready, animations not
    loaded, or a special animation playing. *)
Definition frozen (w : Walker.t) (g : option Gvrm) : Prop :=
  Walker.isPlayingSpecial w = true
  \/ Walker.animationsLoaded w = false
  \/ g = None
  \/ exists c, g = Some c /\ isReady c = false.

(** ** Manager frames *)

(** The inputs of one [InteractionManager.update(virtualTime)]: the draws
    for the pair, the draw for the variant, and the virtual time. *)
Record ManagerInput : Type := mkManagerInput {
  pairDraws : list Q;
  variantDraw : Q;
  virtualTimeAt : Q
}.

Fixpoint managerRun (M : MathImpl) (inputs : list ManagerInput)
    (m : InteractionManager.t) (s : Scene) : InteractionManager.t * Scene :=
  match inputs with
  | [] => (m, s)
  | x :: rest =>
    let '(m', s') :=
      InteractionManager.update M (pairDraws x) (variantDraw x)
        (virtualTimeAt x) m s in
    managerRun M rest m' s'
  end.



(** ** The main loop and its helpers (src/app5/main.js) *)

Module Main.

(** [timeSpeed] and the first statements of [animate()]:
    [virtualTime += timeSpeed / 60; if (virtualTime >= 24) virtualTime -= 24],
    each quotient, sum and difference rounded to binary64. *)
Definition timeSpeed : Q := Double.round (24 / 60).

Definition advanceTime (virtualTime : Q) : Q :=
  let virtualTime :=
    Double.round (virtualTime + Double.round (timeSpeed / 60)) in
  if virtualTime >=? 24 then Double.round (virtualTime - 24) else virtualTime.

Fixpoint advanceFrames (n : nat) (virtualTime : Q) : Q :=
  match n with
  | O => virtualTime
  | S k => advanceTime (advanceFrames k virtualTime)
  end.

(** "Update analog clock": [%] is the remainder of JavaScript, [Z.rem]. *)
Definition clockHours (virtualTime : Q) : Z :=
  Z.rem (Math_floor virtualTime) 12.
Definition clockMinutes (virtualTime : Q) : Q :=
  (virtualTime - inject_Z (Math_floor virtualTime)) * 60.
Definition hourDegrees (virtualTime : Q) : Q :=
  (inject_Z (clockHours virtualTime) * 30) + (clockMinutes virtualTime * 0.5).
Definition minuteDegrees (virtualTime : Q) : Q :=
  clockMinutes virtualTime * 6.

(** [n.toString()] on an integer and [s.padStart(2, '0')]. *)
Definition toString (z : Z) : string := NilZero.string_of_int (Z.to_int z).

Definition padStart2 (s : string) : string :=
  match String.length s with
  | O => "00"
  | S O => "0" ++ s
  | _ => s
  end%string.

(** [formatTimeHM(virtualTime)]: the difference and the product are
    rounded to binary64 before the floor. *)
Definition formatTimeHM (virtualTime : Q) : string :=
  let hours := Math_floor virtualTime in
  let minutes :=
    Math_floor (Double.round (Double.round (virtualTime - inject_Z hours) * 60)) in
  (padStart2 (toString hours) ++ ":" ++ padStart2 (toString minutes))%string.

(** [addTimelineEvent(virtualTime, eventText)] on the children of
    [#timeline-entries], first child first; [None] when the element is
    missing.  An entry is its time label and its text.  The [while] loop
    removes the last child as long as there are more than 50; it runs at
    most once per child. *)
Definition TimelineEntry : Type := (string * string)%type.

Fixpoint limitEntries (fuel : nat) (l : list TimelineEntry)
    : list TimelineEntry :=
  match fuel with
  | O => l
  | S f =>
    if (50 <? List.length l)%nat then limitEntries f (removelast l) else l
  end.

Definition addTimelineEvent (virtualTime : Q) (eventText : string)
    (timelineEntries : option (list TimelineEntry))
    : option (list TimelineEntry) :=
  match timelineEntries with
  | None => None
  | Some children =>
    let entry := (formatTimeHM virtualTime, eventText) in
    let children := entry :: children in
    Some (limitEntries (List.length children) children)
  end.

(** [shuffleAnimations()] for [fbxFiles.length = n].  [draws i] is the draw
    of the iteration with index [i].
    [[indices[i], indices[j]] = [indices[j], indices[i]]] reads both
    elements, then writes [indices[i]], then [indices[j]]. *)
Definition setNth (i : nat) (v : nat) (l : list nat) : list nat :=
  updateNth i (fun _ => v) l.

Definition swap (i j : nat) (indices : list nat) : list nat :=
  let vj := nth j indices O in
  let vi := nth i indices O in
  setNth j vi (setNth i vj indices).

Fixpoint shuffleLoop (i : nat) (draws : nat -> Q) (indices : list nat)
    : list nat :=
  match i with
  | O => indices
  | S i' =>
    let j := Z.to_nat (Math_floor (draws i * inject_Z (Z.of_nat (i + 1)))) in
    shuffleLoop i' draws (swap i j indices)
  end.

Definition shuffleAnimations (n : nat) (draws : nat -> Q) : list nat :=
  let indices := seq 0 n in
  shuffleLoop (List.length indices - 1) draws indices.

(** [generateRandomPosition(boundary, houseRadius)].  [draws k] are the two
    draws of attempt [k]; the loop makes at most [maxAttempts] = 50
    attempts. *)
Definition maxAttempts : nat := 50.

Definition attemptPosition (boundary : Q) (d : Q * Q) : Q * Q :=
  ((fst d - 0.5) * boundary * 2, (snd d - 0.5) * boundary * 2).

Fixpoint attemptLoop (M : MathImpl) (boundary houseRadius : Q)
    (remaining attempts : nat) (draws : nat -> Q * Q) : option (Q * Q) :=
  match remaining with
  | O => None
  | S r =>
    let '(x, z) := attemptPosition boundary (draws attempts) in
    let distanceFromCenter := Math_sqrt M (x * x + z * z) in
    if distanceFromCenter >? houseRadius then Some (x, z)
    else attemptLoop M boundary houseRadius r (S attempts) draws
  end.

Definition generateRandomPosition (M : MathImpl) (boundary houseRadius : Q)
    (draws : nat -> Q * Q) (fallbackDraw : Q) : Q * Q :=
  match attemptLoop M boundary houseRadius maxAttempts 0 draws with
  | Some p => p
  | None =>
    let angle := fallbackDraw * Math_PI * 2 in
    let radius := boundary * 0.8 in
    (Math_cos M angle * radius, Math_sin M angle * radius)
  end.

(** [getRandomGag()]: [gagsData] is [None] while null. *)
Definition defaultGag : string := "やっほー".

Definition getRandomGag (gagsData : option (list string)) (u : Q) : string :=
  match gagsData with
  | None => defaultGag
  | Some gags =>
    if (List.length gags =? 0)%nat then defaultGag
    else
      let randomIndex :=
        Z.to_nat (Math_floor (u * inject_Z (Z.of_nat (List.length gags)))) in
      nth randomIndex gags defaultGag
  end.

(** The state of the speech bubbles: for each index whether a bubble
    exists and carries the class [show], and its text; [lastTwoHourBlock]
    and [lastRandomSpeechTime]. *)
Record Bubble : Type := mkBubble { shown : bool; textContent : string }.

Record Speech : Type := mkSpeech {
  speechBubbles : list (option Bubble);
  lastTwoHourBlock : Z;
  lastRandomSpeechTime : Z
}.

Definition isShown (bubbles : list (option Bubble)) (i : nat) : bool :=
  match nth_error bubbles i with
  | Some (Some b) => shown b
  | _ => false
  end.

(** [showSpeechBubble(index, comment)]: nothing when the avatar is missing
    or not ready.  Otherwise [bubble.textContent = comment] is the first
    use of [speechBubbles[index]]: it throws a TypeError when there is no
    such bubble ([None]); on a bubble the text is set and [show] added. *)
Definition setBubble (i : nat) (comment : string)
    (bubbles : list (option Bubble)) : list (option Bubble) :=
  updateNth i (option_map (fun _ => mkBubble true comment)) bubbles.

Definition showSpeechBubble (gvrms : list Gvrm) (index : nat)
    (comment : string) (bubbles : list (option Bubble))
    : option (list (option Bubble)) :=
  match nth_error gvrms index with
  | Some g =>
    if isReady g then
      match nth_error bubbles index with
      | Some (Some _) => Some (setBubble index comment bubbles)
      | _ => None
      end
    else Some bubbles
  | None => Some bubbles
  end.

(** The first part of [updateSpeechBubbles()], up to the positions of the
    bubbles on screen.  [now] is [Date.now()]; the result also tells which
    avatar was asked to speak, or that [showSpeechBubble] threw, which
    ends the call with [lastTwoHourBlock] assigned and
    [lastRandomSpeechTime] not. *)
Inductive Spoken : Type :=
  | Asked (index : nat)
  | Nobody
  | Threw (index : nat).

Definition availableIndices (n : nat) (bubbles : list (option Bubble))
    : list nat :=
  filter (fun i => negb (isShown bubbles i)) (seq 1 (n - 1)).

Definition updateSpeechBubbles (gvrms : list Gvrm)
    (gagsData : option (list string)) (virtualTime : Q) (now : Z)
    (uIndex uGag : Q) (sp : Speech) : Speech * Spoken :=
  let currentTwoHourBlock := Math_floor (virtualTime / 2) in
  if negb (currentTwoHourBlock =? lastTwoHourBlock sp)%Z
     && (1 <? List.length gvrms)%nat
     && (1000 <? now - lastRandomSpeechTime sp)%Z
  then
    let available := availableIndices (List.length gvrms) (speechBubbles sp) in
    if (0 <? List.length available)%nat then
      let randomIndex :=
        nth (Z.to_nat (Math_floor
                         (uIndex * inject_Z (Z.of_nat (List.length available)))))
            available O in
      let gag := getRandomGag gagsData uGag in
      match showSpeechBubble gvrms randomIndex gag (speechBubbles sp) with
      | Some bubbles =>
        (mkSpeech bubbles currentTwoHourBlock now, Asked randomIndex)
      | None =>
        (mkSpeech (speechBubbles sp) currentTwoHourBlock
                  (lastRandomSpeechTime sp), Threw randomIndex)
      end
    else (mkSpeech (speechBubbles sp) currentTwoHourBlock
                   (lastRandomSpeechTime sp), Nobody)
  else (sp, Nobody).

End Main.

(** Two decimal digits of a number below 100. *)
Definition digitChar (k : nat) : Ascii.ascii := Ascii.ascii_of_nat (48 + k).
Definition twoDigits (n : nat) : string :=
  String (digitChar (n / 10)) (String (digitChar (n mod 10)) EmptyString).

(** Attempt [k] of [generateRandomPosition] lands outside the house
    radius, as the loop tests it. *)
Definition outsideHouse (M : MathImpl) (boundary houseRadius : Q)
    (draws : nat -> Q * Q) (k : nat) : Prop :=
  let p := Main.attemptPosition boundary (draws k) in
  houseRadius < Math_sqrt M (fst p * fst p + snd p * snd p).

(** ** The performance system (src/app4/main.js) *)

Module Performance.

Inductive CharacterState : Type :=
  | watching | walking_to_center | performing | falling.

Definition WALK_SPEED : Q := 0.05.
Definition GRAVITY : Q := 0.02.
Definition SPEECH_DURATION : Z := 5000.

(** [Math.sign]. *)
Definition Math_sign (x : Q) : Q :=
  if 0 <? x then 1 else if x <? 0 then - (1) else 0.

(** [getNextGag()].  [usedGags] holds indices, with -1 where [indexOf]
    found nothing; the gag is [None] where JavaScript has [undefined]. *)
Definition includes (index : nat) (usedGags : list Z) : bool :=
  existsb (Z.eqb (Z.of_nat index)) usedGags.

Fixpoint indexOfFrom (s : string) (l : list string) (i : nat) : Z :=
  match l with
  | [] => (-1)%Z
  | x :: rest => if String.eqb x s then Z.of_nat i else indexOfFrom s rest (S i)
  end.

Definition indexOf (s : option string) (l : list string) : Z :=
  match s with
  | Some x => indexOfFrom x l 0
  | None => (-1)%Z
  end.

Definition availableGags (gags : list string) (usedGags : list Z)
    : list string :=
  map snd
      (filter (fun p => negb (includes (fst p) usedGags))
              (combine (seq 0 (List.length gags)) gags)).

Definition getNextGag (gagsData : option (list string)) (usedGags : list Z)
    (u : Q) : option string * list Z :=
  match gagsData with
  | None => (Some Main.defaultGag, usedGags)
  | Some gags =>
    if (List.length gags =? 0)%nat then (Some Main.defaultGag, usedGags)
    else
      let usedGags :=
        if (List.length gags <=? List.length usedGags)%nat then []
        else usedGags in
      let available := availableGags gags usedGags in
      let randomIndex :=
        Z.to_nat (Math_floor (u * inject_Z (Z.of_nat (List.length available)))) in
      let selectedGag := nth_error available randomIndex in
      let originalIndex := indexOf selectedGag gags in
      (selectedGag, usedGags ++ [originalIndex])
  end.

(** The arrays and variables of the performance system.  The three arrays
    are pushed together in [loadAllModels()].  [timersSet] is not a
    variable of the source: it counts the
    [setTimeout(() => startNextPerformer(), 1000)] calls. *)
Record t : Type := mk {
  gvrms : list Gvrm;
  characterStates : list CharacterState;
  characterFallVelocities : list Q;
  currentPerformerIndex : nat;
  performanceTimer : Z;
  usedGags : list Z;
  timersSet : nat
}.

(** What one frame receives: [Date.now()] and the draws of the character
    that reaches the centre (animation index, gag). *)
Record FrameInput : Type := mkFrameInput {
  now : Z;
  animationDraw : Q;
  gagDraw : Q
}.

Definition setGvrm (i : nat) (f : Gvrm -> Gvrm) (p : t) : t :=
  mk (updateNth i f (gvrms p)) (characterStates p)
     (characterFallVelocities p) (currentPerformerIndex p)
     (performanceTimer p) (usedGags p) (timersSet p).
Definition setState (i : nat) (st : CharacterState) (p : t) : t :=
  mk (gvrms p) (updateNth i (fun _ => st) (characterStates p))
     (characterFallVelocities p) (currentPerformerIndex p)
     (performanceTimer p) (usedGags p) (timersSet p).
Definition setVelocity (i : nat) (v : Q) (p : t) : t :=
  mk (gvrms p) (characterStates p)
     (updateNth i (fun _ => v) (characterFallVelocities p))
     (currentPerformerIndex p) (performanceTimer p) (usedGags p)
     (timersSet p).

Definition placeAt (x y z : Q) (g : Gvrm) : Gvrm :=
  mkGvrm (isReady g) (isLoading g) x y z (rot0y g) (yaw g).

(** The watching position of character [i] among [N]. *)
Definition watchingX (N : nat) (i : nat) : Q :=
  let spacing := 10 / Math_max (inject_Z (Z.of_nat N) - 1) 1 in
  - (5) + (inject_Z (Z.of_nat i) * spacing).

(** The body of the [for] loop of [updatePerformanceSystem()] for the
    character of index [i]. *)
Definition stepCharacter (N : nat) (gagsData : option (list string))
    (x : FrameInput) (i : nat) (p : t) : t :=
  match nth_error (gvrms p) i with
  | None => p
  | Some g =>
    if negb (isReady g) then p
    else
      match nth_error (characterStates p) i with
      | Some walking_to_center =>
        let targetZ : Q := 0 in
        let dz := targetZ - posZ g in
        if Math_abs dz >? 0.1 then
          setGvrm i
            (fun c => setYaw Math_PI
                        (placeAt (posX c) (posY c)
                           (posZ c + Math_sign dz * WALK_SPEED) c)) p
        else
          let p := setGvrm i (fun c => placeAt (posX c) (posY c) 0 c) p in
          let p := setState i performing p in
          let used := snd (getNextGag gagsData (usedGags p) (gagDraw x)) in
          mk (gvrms p) (characterStates p) (characterFallVelocities p)
             (currentPerformerIndex p) (now x) used (timersSet p)
      | Some performing =>
        if (now x - performanceTimer p >=? SPEECH_DURATION)%Z then
          setVelocity i 0 (setState i falling p)
        else p
      | Some falling =>
        let v := nth i (characterFallVelocities p) 0 + GRAVITY in
        let p := setVelocity i v p in
        let p := setGvrm i (fun c => placeAt (posX c) (posY c - v) (posZ c) c) p in
        if posY g - v <=? - (100) then
          let p := setState i watching p in
          let p := setGvrm i
                     (fun c => setYaw Math_PI (placeAt (watchingX N i) 0 5 c)) p in
          mk (gvrms p) (characterStates p) (characterFallVelocities p)
             (currentPerformerIndex p + 1) (performanceTimer p) (usedGags p)
             (S (timersSet p))
        else p
      | _ => p
      end
  end.

(** [updatePerformanceSystem()], without the placement of the bubbles on
    screen. *)
Definition updatePerformanceSystem (N : nat)
    (gagsData : option (list string)) (x : FrameInput) (p : t) : t :=
  fold_left (fun q i => stepCharacter N gagsData x i q)
            (seq 0 (List.length (gvrms p))) p.

Fixpoint frames (N : nat) (gagsData : option (list string))
    (xs : list FrameInput) (p : t) : t :=
  match xs with
  | [] => p
  | x :: rest => frames N gagsData rest (updatePerformanceSystem N gagsData x p)
  end.

(** [startNextPerformer()]. *)
Definition startNextPerformer (p : t) : t :=
  let index :=
    if (List.length (gvrms p) <=? currentPerformerIndex p)%nat then O
    else currentPerformerIndex p in
  let p := mk (gvrms p) (characterStates p) (characterFallVelocities p)
              index (performanceTimer p) (usedGags p) (timersSet p) in
  match nth_error (gvrms p) index with
  | None => p
  | Some g =>
    if negb (isReady g) then p
    else setState index walking_to_center
           (setGvrm index (placeAt 0 0 (- (10))) p)
  end.

(** What the system holds of one character. *)
Definition view (p : t) (i : nat)
    : option Gvrm * option CharacterState * Q :=
  (nth_error (gvrms p) i, nth_error (characterStates p) i,
   nth i (characterFallVelocities p) 0).

End Performance.

(** ** The performance loop in binary64 *)

(** The value after [n] steps, and a test along the way: [holdsAlong step
    P n j a] tests [P j a], [P (j+1) (step a)], ... for [n] steps. *)
Fixpoint after {A : Type} (step : A -> A) (n : nat) (a : A) : A :=
  match n with
  | O => a
  | S k => after step k (step a)
  end.

Fixpoint holdsAlong {A : Type} (step : A -> A) (P : nat -> A -> bool)
    (n j : nat) (a : A) : bool :=
  match n with
  | O => true
  | S k => P j a && holdsAlong step P k (S j) (step a)
  end.

(** The loop body of [updatePerformanceSystem()] with every sum,
    difference, product and quotient rounded to binary64 and the literals
    0.05, 0.02 and 0.1 as binary64 reads them.  The state, the branches
    and the writes are those of [Performance.stepCharacter]. *)
Module Performance64.

Import Performance.

Definition WALK_SPEED : Q := Double.round 0.05.
Definition GRAVITY : Q := Double.round 0.02.

Definition watchingX (N : nat) (i : nat) : Q :=
  let spacing :=
    Double.round
      (10 / Math_max (Double.round (inject_Z (Z.of_nat N) - 1)) 1) in
  Double.round (- (5) + Double.round (inject_Z (Z.of_nat i) * spacing)).

Definition stepCharacter (N : nat) (gagsData : option (list string))
    (x : FrameInput) (i : nat) (p : t) : t :=
  match nth_error (gvrms p) i with
  | None => p
  | Some g =>
    if negb (isReady g) then p
    else
      match nth_error (characterStates p) i with
      | Some walking_to_center =>
        let targetZ : Q := 0 in
        let dz := Double.round (targetZ - posZ g) in
        if Math_abs dz >? Double.round 0.1 then
          setGvrm i
            (fun c => setYaw Math_PI
                        (placeAt (posX c) (posY c)
                           (Double.round
                              (posZ c
                               + Double.round (Math_sign dz * WALK_SPEED)))
                           c)) p
        else
          let p := setGvrm i (fun c => placeAt (posX c) (posY c) 0 c) p in
          let p := setState i performing p in
          let used := snd (getNextGag gagsData (usedGags p) (gagDraw x)) in
          mk (gvrms p) (characterStates p) (characterFallVelocities p)
             (currentPerformerIndex p) (now x) used (timersSet p)
      | Some performing =>
        if (now x - performanceTimer p >=? SPEECH_DURATION)%Z then
          setVelocity i 0 (setState i falling p)
        else p
      | Some falling =>
        let v :=
          Double.round (nth i (characterFallVelocities p) 0 + GRAVITY) in
        let p := setVelocity i v p in
        let p :=
          setGvrm i
            (fun c => placeAt (posX c) (Double.round (posY c - v)) (posZ c) c)
            p in
        if Double.round (posY g - v) <=? - (100) then
          let p := setState i watching p in
          let p := setGvrm i
                     (fun c => setYaw Math_PI (placeAt (watchingX N i) 0 5 c)) p in
          mk (gvrms p) (characterStates p) (characterFallVelocities p)
             (currentPerformerIndex p + 1) (performanceTimer p) (usedGags p)
             (S (timersSet p))
        else p
      | _ => p
      end
  end.

Definition updatePerformanceSystem (N : nat)
    (gagsData : option (list string)) (x : FrameInput) (p : t) : t :=
  fold_left (fun q i => stepCharacter N gagsData x i q)
            (seq 0 (List.length (gvrms p))) p.

Fixpoint frames (N : nat) (gagsData : option (list string))
    (xs : list FrameInput) (p : t) : t :=
  match xs with
  | [] => p
  | x :: rest => frames N gagsData rest (updatePerformanceSystem N gagsData x p)
  end.

(** What the walking branch does to z, and its test. *)
Definition farFromCentre (z : Q) : bool :=
  Math_abs (Double.round (0 - z)) >? Double.round 0.1.
Definition walkStep (z : Q) : Q :=
  Double.round
    (z + Double.round (Math_sign (Double.round (0 - z)) * WALK_SPEED)).

(** What the falling branch does to the velocity and the height, and its
    test on the new height. *)
Definition fallStep (s : Q * Q) : Q * Q :=
  let v := Double.round (fst s + GRAVITY) in
  (v, Double.round (snd s - v)).
Definition keepsFalling (s : Q * Q) : bool :=
  negb (snd (fallStep s) <=? - (100)).

(** Within 2^-40 of the exact walk from z = -10 and of the exact fall
    from rest at height 0. *)
Definition nearWalk (n : nat) (z : Q) : bool :=
  Math_abs (z - (- (10) + 0.05 * inject_Z (Z.of_nat n)))
  <=? Double.pow2 (- 40).
Definition nearFall (n : nat) (s : Q * Q) : bool :=
  (Math_abs (fst s - 0.02 * inject_Z (Z.of_nat n)) <=? Double.pow2 (- 40))
  && (Math_abs (snd s + 0.01 * inject_Z (Z.of_nat n)
                            * (inject_Z (Z.of_nat n) + 1))
      <=? Double.pow2 (- 40)).

End Performance64.

(** ** The show of app4: frames and timers *)

(** The state once every model is loaded, [loadAllModels()]: each avatar
    on the watching row, every state ['watching'], every fall velocity 0,
    and the one timer set for the first [startNextPerformer()]. *)
Definition loaded (N : nat) (gs : list Gvrm) : Performance.t :=
  Performance.mk
    (map (fun ig => setYaw Math_PI
                      (Performance.placeAt (Performance.watchingX N (fst ig))
                         0 5 (snd ig)))
         (combine (seq 0 (List.length gs)) gs))
    (repeat Performance.watching (List.length gs))
    (repeat 0 (List.length gs))
    0 0 [] 1.

Definition isWatching (st : Performance.CharacterState) : bool :=
  match st with
  | Performance.watching => true
  | _ => false
  end.

(** How many characters are off the watching row. *)
Definition onStage (states : list Performance.CharacterState) : nat :=
  List.length (filter (fun st => negb (isWatching st)) states).

(** What happens to the system: a frame of [animate()], or one of the
    timers set with [setTimeout(() => startNextPerformer(), ...)] fires. *)
Inductive ShowEvent : Type :=
  | Frame (x : Performance.FrameInput)
  | TimerFires.

Record Show : Type := mkShow {
  system : Performance.t;
  timersFired : nat
}.

Definition pendingTimers (s : Show) : nat :=
  (Performance.timersSet (system s) - timersFired s)%nat.

Definition handle (N : nat) (gagsData : option (list string))
    (e : ShowEvent) (s : Show) : Show :=
  match e with
  | Frame x =>
    mkShow (Performance.updatePerformanceSystem N gagsData x (system s))
           (timersFired s)
  | TimerFires =>
    if (timersFired s <? Performance.timersSet (system s))%nat then
      mkShow (Performance.startNextPerformer (system s)) (S (timersFired s))
    else s
  end.

Definition runShow (N : nat) (gagsData : option (list string))
    (es : list ShowEvent) (s : Show) : Show :=
  fold_left (fun s e => handle N gagsData e s) es s.

(** A sample: three loaded avatars, the second one walking in from
    z = -10. *)
Definition audience : list Gvrm := [avatar0; avatar1; avatar0].
Definition frame0 : Performance.FrameInput :=
  Performance.mkFrameInput 1000 0.5 0.5.
Definition gags0 : list string := ["a"%string; "b"%string; "c"%string].
Definition show0 : Performance.t :=
  Performance.startNextPerformer
    (Performance.mk (Performance.gvrms (loaded 3 audience))
       (Performance.characterStates (loaded 3 audience))
       (Performance.characterFallVelocities (loaded 3 audience))
       1 0 [] 1).

(** The sample performer at the centre when its speech has ended, and
    just above the landing height, at y = -99 with speed 1.98. *)
Definition showFalling : Performance.t :=
  Performance.setVelocity 1 0
    (Performance.setState 1 Performance.falling
       (Performance.setGvrm 1 (Performance.placeAt 0 0 0) show0)).
Definition showLanding : Performance.t :=
  Performance.setVelocity 1 1.98
    (Performance.setGvrm 1 (Performance.placeAt 0 (- (99)) 0) showFalling).

(** Successive calls of [getNextGag()], one draw each: the gags returned
    and [usedGags] at the end. *)
Fixpoint tellGags (gags : list string) (us : list Q) (usedGags : list Z)
    : list (option string) * list Z :=
  match us with
  | [] => ([], usedGags)
  | u :: rest =>
    let r := Performance.getNextGag (Some gags) usedGags u in
    let rs := tellGags gags rest (snd r) in
    (fst r :: fst rs, snd rs)
  end.

(** * Properties *)

(** ** Comparisons *)

Lemma Qltb_true (a b : Q) : (a <? b) = true <-> a < b.
Proof.
  unfold Qltb. rewrite negb_true_iff.
  split; intro H.
  - apply Qnot_le_lt. intro Hle. apply Qle_bool_iff in Hle. congruence.
  - destruct (Qle_bool b a) eqn:E; [|reflexivity].
    apply Qle_bool_iff in E. lra.
Qed.

Lemma Qltb_false (a b : Q) : (a <? b) = false <-> b <= a.
Proof.
  unfold Qltb. rewrite negb_false_iff. apply Qle_bool_iff.
Qed.

Lemma Qleb_true (a b : Q) : (a <=? b) = true <-> a <= b.
Proof. apply Qle_bool_iff. Qed.

Lemma Qleb_false (a b : Q) : (a <=? b) = false <-> b < a.
Proof.
  unfold Qleb. split; intro H.
  - apply Qnot_le_lt. intro Hle. apply Qle_bool_iff in Hle. congruence.
  - destruct (Qle_bool a b) eqn:E; [|reflexivity].
    apply Qle_bool_iff in E. lra.
Qed.

Lemma Qltb_comp (a a' b b' : Q) : a == a' -> b == b' -> (a <? b) = (a' <? b').
Proof.
  intros Ha Hb.
  destruct (a' <? b') eqn:E.
  - apply Qltb_true in E. apply Qltb_true. lra.
  - apply Qltb_false in E. apply Qltb_false. lra.
Qed.

Lemma Math_PI_pos : 0 < Math_PI.
Proof. reflexivity. Qed.

(** ** Binary64 rounding *)

Lemma pow2_pos (e : Z) : 0 < Double.pow2 e.
Proof. unfold Double.pow2. apply Qpower_0_lt. reflexivity. Qed.

Lemma pow2_add (a b : Z) : Double.pow2 (a + b) == Double.pow2 a * Double.pow2 b.
Proof. unfold Double.pow2. apply Qpower_plus. discriminate. Qed.

Lemma pow2_0 : Double.pow2 0 == 1.
Proof. reflexivity. Qed.

Lemma pow2_succ (a : Z) : Double.pow2 (a + 1) == 2 * Double.pow2 a.
Proof. rewrite pow2_add. change (Double.pow2 1) with 2. ring. Qed.

Lemma pow2_mono (a b : Z) : (a <= b)%Z -> Double.pow2 a <= Double.pow2 b.
Proof.
  intro H. unfold Double.pow2. apply Qpower_le_compat_l; [exact H|].
  unfold Qle. cbn. lia.
Qed.

Lemma pow2_lt (a b : Z) : (a < b)%Z -> Double.pow2 a < Double.pow2 b.
Proof.
  intro H. assert (L : Double.pow2 (a + 1) <= Double.pow2 b) by (apply pow2_mono; lia).
  rewrite pow2_succ in L. pose proof (pow2_pos a). lra.
Qed.

Lemma pow2_inject (n : Z) : (0 <= n)%Z -> inject_Z (2 ^ n) == Double.pow2 n.
Proof. intro H. unfold Double.pow2. rewrite Zpower_Qpower by exact H. reflexivity. Qed.

Lemma pow2_opp (a : Z) : Double.pow2 a * Double.pow2 (- a) == 1.
Proof. rewrite <- pow2_add, Z.add_opp_diag_r. reflexivity. Qed.

(** The binary exponent. *)
Lemma Zlog2_bounds (n : Z) : (0 < n)%Z ->
  Double.pow2 (Z.log2 n) <= inject_Z n /\ inject_Z n < Double.pow2 (Z.log2 n + 1).
Proof.
  intro H. destruct (Z.log2_spec n H) as [A B].
  pose proof (Z.log2_nonneg n) as L.
  rewrite <- !pow2_inject by lia. rewrite <- Zle_Qle, <- Zlt_Qlt.
  unfold Z.succ in B. split; assumption.
Qed.

Lemma Q_as_div (q : Q) : q == inject_Z (Qnum q) / inject_Z (Zpos (Qden q)).
Proof.
  destruct q as [n d]. cbn [Qnum Qden]. unfold Qdiv, Qinv, inject_Z, Qmult, Qeq.
  cbn. lia.
Qed.

Lemma ilog2_spec (q : Q) : 0 < q ->
  Double.pow2 (Double.ilog2 q) <= q /\ q < Double.pow2 (Double.ilog2 q + 1).
Proof.
  intro Hq.
  assert (Hn : (0 < Qnum q)%Z).
  { destruct q as [n d]. unfold Qlt in Hq. cbn in *. lia. }
  destruct (Zlog2_bounds _ Hn) as [N1 N2].
  destruct (Zlog2_bounds (Zpos (Qden q)) (Pos2Z.is_pos _)) as [D1 D2].
  set (ln := Z.log2 (Qnum q)) in *. set (ld := Z.log2 (Zpos (Qden q))) in *.
  assert (Hd : 0 < inject_Z (Zpos (Qden q))).
  { change 0 with (inject_Z 0). rewrite <- Zlt_Qlt. lia. }
  pose proof (Q_as_div q) as Eq.
  set (n := inject_Z (Qnum q)) in *. set (d := inject_Z (Zpos (Qden q))) in *.
  assert (Hqd : q * d == n).
  { rewrite Eq. field. lra. }
  (* upper: q < pow2 (ln - ld + 1) *)
  assert (U : q < Double.pow2 (ln - ld + 1)).
  { assert (E : Double.pow2 (ln + 1) == Double.pow2 (ln - ld + 1) * Double.pow2 ld).
    { rewrite <- pow2_add. replace (ln - ld + 1 + ld)%Z with (ln + 1)%Z by lia.
      reflexivity. }
    pose proof (pow2_pos ld). pose proof (pow2_pos (ln - ld + 1)).
    apply Qnot_le_lt. intro C.
    assert (Double.pow2 (ln - ld + 1) * Double.pow2 ld <= q * d) by nra.
    lra. }
  assert (L : Double.pow2 (ln - ld - 1) < q).
  { assert (E : Double.pow2 ln == Double.pow2 (ln - ld - 1) * Double.pow2 (ld + 1)).
    { rewrite <- pow2_add. replace (ln - ld - 1 + (ld + 1))%Z with ln by lia.
      reflexivity. }
    pose proof (pow2_pos (ld + 1)). pose proof (pow2_pos (ln - ld - 1)).
    apply Qnot_le_lt. intro C.
    assert (q * d < Double.pow2 (ln - ld - 1) * Double.pow2 (ld + 1)) by nra.
    lra. }
  unfold Double.ilog2. fold ln ld.
  destruct (q <? Double.pow2 (ln - ld)) eqn:E.
  - apply Qltb_true in E. replace (ln - ld - 1 + 1)%Z with (ln - ld)%Z by lia.
    split; lra.
  - apply Qltb_false in E. split; [exact E|exact U].
Qed.

Lemma ilog2_unique (q : Q) (e : Z) :
  Double.pow2 e <= q -> q < Double.pow2 (e + 1) -> Double.ilog2 q = e.
Proof.
  intros A B.
  assert (Hq : 0 < q) by (pose proof (pow2_pos e); lra).
  destruct (ilog2_spec q Hq) as [C D].
  set (e' := Double.ilog2 q) in *.
  destruct (Z.lt_trichotomy e' e) as [H|[H|H]]; [|exact H|].
  - assert (Double.pow2 (e' + 1) <= Double.pow2 e) by (apply pow2_mono; lia). lra.
  - assert (Double.pow2 (e + 1) <= Double.pow2 e') by (apply pow2_mono; lia). lra.
Qed.

Lemma ilog2_comp (p q : Q) : 0 < p -> p == q -> Double.ilog2 p = Double.ilog2 q.
Proof.
  intros Hp E. symmetry. destruct (ilog2_spec p Hp) as [A B].
  apply ilog2_unique; rewrite <- E; assumption.
Qed.

Lemma ilog2_mono (p q : Q) : 0 < p -> p <= q -> (Double.ilog2 p <= Double.ilog2 q)%Z.
Proof.
  intros Hp H. destruct (ilog2_spec p Hp) as [A B].
  destruct (ilog2_spec q) as [C D]; [lra|].
  destruct (Z_le_gt_dec (Double.ilog2 p) (Double.ilog2 q)) as [L|G]; [exact L|].
  assert (Double.pow2 (Double.ilog2 q + 1) <= Double.pow2 (Double.ilog2 p))
    by (apply pow2_mono; lia).
  lra.
Qed.

(** The nearest integer. *)
Lemma Qfloor_frac (q : Q) : 0 <= q - inject_Z (Qfloor q) /\ q - inject_Z (Qfloor q) < 1.
Proof.
  pose proof (Qfloor_le q) as A. pose proof (Qlt_floor q) as B.
  rewrite inject_Z_plus in B. change (inject_Z 1) with 1 in B. split; lra.
Qed.

Lemma NE_cases (q : Q) :
  (Double.nearestEven q = Qfloor q /\ q - inject_Z (Qfloor q) <= 1 # 2)
  \/ (Double.nearestEven q = (Qfloor q + 1)%Z /\ (1 # 2) <= q - inject_Z (Qfloor q)).
Proof.
  unfold Double.nearestEven. cbv zeta.
  destruct (q - inject_Z (Qfloor q) <? 1 # 2) eqn:E1.
  - apply Qltb_true in E1. left. split; [reflexivity|lra].
  - apply Qltb_false in E1.
    destruct ((1 # 2) <? q - inject_Z (Qfloor q)) eqn:E2.
    + right. split; [reflexivity|exact E1].
    + apply Qltb_false in E2. destruct (Z.even (Qfloor q)).
      * left. split; [reflexivity|exact E2].
      * right. split; [reflexivity|exact E1].
Qed.

Lemma NE_err (q : Q) : Qabs (inject_Z (Double.nearestEven q) - q) <= 1 # 2.
Proof.
  destruct (Qfloor_frac q) as [A B].
  apply Qabs_Qle_condition.
  destruct (NE_cases q) as [[E H]|[E H]]; rewrite E.
  - split; lra.
  - rewrite inject_Z_plus. change (inject_Z 1) with 1. split; lra.
Qed.

Lemma NE_comp (p q : Q) : p == q -> Double.nearestEven p = Double.nearestEven q.
Proof.
  intro E. unfold Double.nearestEven. cbv zeta.
  rewrite (Qfloor_comp p q E).
  assert (R : p - inject_Z (Qfloor q) == q - inject_Z (Qfloor q)) by (rewrite E; reflexivity).
  assert (B1 : (p - inject_Z (Qfloor q) <? 1 # 2) = (q - inject_Z (Qfloor q) <? 1 # 2)).
  { destruct (q - inject_Z (Qfloor q) <? 1 # 2) eqn:X.
    - apply Qltb_true in X. apply Qltb_true. lra.
    - apply Qltb_false in X. apply Qltb_false. lra. }
  assert (B2 : ((1 # 2) <? p - inject_Z (Qfloor q)) = ((1 # 2) <? q - inject_Z (Qfloor q))).
  { destruct ((1 # 2) <? q - inject_Z (Qfloor q)) eqn:X.
    - apply Qltb_true in X. apply Qltb_true. lra.
    - apply Qltb_false in X. apply Qltb_false. lra. }
  rewrite B1, B2. reflexivity.
Qed.

Lemma NE_int (n : Z) : Double.nearestEven (inject_Z n) = n.
Proof.
  unfold Double.nearestEven. cbv zeta. rewrite Qfloor_Z.
  assert (E : (inject_Z n - inject_Z n <? 1 # 2) = true) by (apply Qltb_true; lra).
  rewrite E. reflexivity.
Qed.

Lemma NE_mono (p q : Q) : p <= q -> (Double.nearestEven p <= Double.nearestEven q)%Z.
Proof.
  intro H. pose proof (Qfloor_resp_le p q H) as F.
  destruct (Z.eq_dec (Qfloor p) (Qfloor q)) as [Ef|Nf].
  - unfold Double.nearestEven. cbv zeta. rewrite Ef.
    assert (R : p - inject_Z (Qfloor q) <= q - inject_Z (Qfloor q)) by lra.
    destruct (p - inject_Z (Qfloor q) <? 1 # 2) eqn:P1.
    + destruct (q - inject_Z (Qfloor q) <? 1 # 2); [lia|].
      destruct ((1 # 2) <? q - inject_Z (Qfloor q)); [lia|].
      destruct (Z.even (Qfloor q)); lia.
    + apply Qltb_false in P1.
      assert (Q1 : (q - inject_Z (Qfloor q) <? 1 # 2) = false) by (apply Qltb_false; lra).
      rewrite Q1.
      destruct ((1 # 2) <? p - inject_Z (Qfloor q)) eqn:P2.
      * apply Qltb_true in P2.
        assert (Q2 : ((1 # 2) <? q - inject_Z (Qfloor q)) = true) by (apply Qltb_true; lra).
        rewrite Q2. lia.
      * destruct ((1 # 2) <? q - inject_Z (Qfloor q)); destruct (Z.even (Qfloor q)); lia.
  - destruct (NE_cases p) as [[Ep _]|[Ep _]], (NE_cases q) as [[Eq _]|[Eq _]];
      rewrite Ep, Eq; lia.
Qed.

Lemma Qeq_bool_false (q : Q) : ~ q == 0 -> Qeq_bool q 0 = false.
Proof.
  intro H. destruct (Qeq_bool q 0) eqn:E; [|reflexivity].
  apply Qeq_bool_iff in E. contradiction.
Qed.

Lemma round_pos (q : Q) : 0 < q -> Double.round q == Double.roundPos q.
Proof.
  intro H. unfold Double.round. rewrite Qeq_bool_false by lra. cbv zeta.
  assert (E : (q <? 0) = false) by (apply Qltb_false; lra). rewrite E.
  rewrite Qred_correct. unfold Double.roundPos.
  assert (A : Qabs q == q) by (apply Qabs_pos; lra).
  rewrite (ilog2_comp (Qabs q) q) by (rewrite ?A; lra).
  rewrite (NE_comp (Qabs q * _) (q * Double.pow2 (52 - Double.ilog2 q))) by (rewrite A; reflexivity).
  reflexivity.
Qed.

Lemma round_neg (q : Q) : q < 0 -> Double.round q == - Double.roundPos (- q).
Proof.
  intro H. unfold Double.round. rewrite Qeq_bool_false by lra. cbv zeta.
  assert (E : (q <? 0) = true) by (apply Qltb_true; lra). rewrite E.
  rewrite Qred_correct. unfold Double.roundPos.
  assert (A : Qabs q == - q) by (apply Qabs_neg; lra).
  rewrite (ilog2_comp (Qabs q) (- q)) by (rewrite ?A; lra).
  rewrite (NE_comp (Qabs q * _) (- q * Double.pow2 (52 - Double.ilog2 (- q)))) by (rewrite A; reflexivity).
  reflexivity.
Qed.

Lemma round_zero (q : Q) : q == 0 -> Double.round q = 0.
Proof.
  intro H. unfold Double.round.
  assert (E : Qeq_bool q 0 = true) by (apply Qeq_bool_iff; exact H).
  rewrite E. reflexivity.
Qed.

Lemma scaled_bounds (q : Q) : 0 < q ->
  Double.pow2 52 <= q * Double.pow2 (52 - Double.ilog2 q)
  /\ q * Double.pow2 (52 - Double.ilog2 q) < Double.pow2 53.
Proof.
  intro H. destruct (ilog2_spec q H) as [A B].
  set (e := Double.ilog2 q) in *.
  pose proof (pow2_pos (52 - e)) as P.
  assert (E1 : Double.pow2 52 == Double.pow2 e * Double.pow2 (52 - e)).
  { rewrite <- pow2_add. replace (e + (52 - e))%Z with 52%Z by lia. reflexivity. }
  assert (E2 : Double.pow2 53 == Double.pow2 (e + 1) * Double.pow2 (52 - e)).
  { rewrite <- pow2_add. replace (e + 1 + (52 - e))%Z with 53%Z by lia. reflexivity. }
  rewrite E1, E2. split; nra.
Qed.

Lemma roundPos_bounds (q : Q) : 0 < q ->
  Double.pow2 (Double.ilog2 q) <= Double.roundPos q
  /\ Double.roundPos q <= Double.pow2 (Double.ilog2 q + 1).
Proof.
  intro H. destruct (scaled_bounds q H) as [A B].
  set (e := Double.ilog2 q) in *. unfold Double.roundPos. fold e.
  set (x := q * Double.pow2 (52 - e)) in *.
  assert (M1 : (2 ^ 52 <= Double.nearestEven x)%Z).
  { rewrite <- (NE_int (2 ^ 52)). apply NE_mono.
    rewrite pow2_inject by lia. exact A. }
  assert (M2 : (Double.nearestEven x <= 2 ^ 53)%Z).
  { rewrite <- (NE_int (2 ^ 53)). apply NE_mono.
    rewrite pow2_inject by lia. lra. }
  rewrite Zle_Qle in M1, M2. rewrite !pow2_inject in M1, M2 by lia.
  pose proof (pow2_pos (e - 52)) as P.
  assert (E1 : Double.pow2 e == Double.pow2 52 * Double.pow2 (e - 52)).
  { rewrite <- pow2_add. replace (52 + (e - 52))%Z with e by lia. reflexivity. }
  assert (E2 : Double.pow2 (e + 1) == Double.pow2 53 * Double.pow2 (e - 52)).
  { rewrite <- pow2_add. replace (53 + (e - 52))%Z with (e + 1)%Z by lia. reflexivity. }
  rewrite E1, E2. split; nra.
Qed.

Lemma roundPos_err (q : Q) : 0 < q ->
  Qabs (Double.roundPos q - q) <= Double.pow2 (Double.ilog2 q - 53).
Proof.
  intro H. set (e := Double.ilog2 q). unfold Double.roundPos. fold e.
  set (x := q * Double.pow2 (52 - e)).
  pose proof (NE_err x) as N.
  pose proof (pow2_pos (e - 52)) as P.
  assert (Eq : q == x * Double.pow2 (e - 52)).
  { unfold x. rewrite <- Qmult_assoc, <- pow2_add.
    replace (52 - e + (e - 52))%Z with 0%Z by lia. rewrite pow2_0. ring. }
  assert (Ed : inject_Z (Double.nearestEven x) * Double.pow2 (e - 52) - q
               == (inject_Z (Double.nearestEven x) - x) * Double.pow2 (e - 52)).
  { rewrite Eq at 1. ring. }
  rewrite Ed, Qabs_Qmult, (Qabs_pos (Double.pow2 (e - 52))) by lra.
  assert (E53 : Double.pow2 (e - 53) == (1 # 2) * Double.pow2 (e - 52)).
  { replace (e - 52)%Z with ((e - 53) + 1)%Z by lia. rewrite pow2_succ. ring. }
  rewrite E53. apply Qmult_le_compat_r; [exact N|lra].
Qed.

Lemma roundPos_mono (p q : Q) : 0 < p -> p <= q -> Double.roundPos p <= Double.roundPos q.
Proof.
  intros Hp H. assert (Hq : 0 < q) by lra.
  pose proof (ilog2_mono p q Hp H) as L.
  destruct (Z.eq_dec (Double.ilog2 p) (Double.ilog2 q)) as [E|N].
  - unfold Double.roundPos. rewrite E. pose proof (pow2_pos (Double.ilog2 q - 52)) as P.
    apply Qmult_le_compat_r; [|lra]. rewrite <- Zle_Qle. apply NE_mono.
    pose proof (pow2_pos (52 - Double.ilog2 q)). nra.
  - destruct (roundPos_bounds p Hp) as [_ A]. destruct (roundPos_bounds q Hq) as [B _].
    assert (Double.pow2 (Double.ilog2 p + 1) <= Double.pow2 (Double.ilog2 q))
      by (apply pow2_mono; lia).
    lra.
Qed.

Lemma roundPos_comp (p q : Q) : 0 < p -> p == q -> Double.roundPos p == Double.roundPos q.
Proof.
  intros Hp E. unfold Double.roundPos. rewrite (ilog2_comp p q Hp E).
  rewrite (NE_comp (p * _) (q * Double.pow2 (52 - Double.ilog2 q))) by (rewrite E; reflexivity).
  reflexivity.
Qed.

(** Rounding respects equality of rationals, is odd and monotone. *)
Lemma round_comp (p q : Q) : p == q -> Double.round p == Double.round q.
Proof.
  intro E. destruct (Q_dec p 0) as [[H|H]|H].
  - rewrite (round_neg p H), (round_neg q) by lra.
    rewrite (roundPos_comp (- p) (- q)) by (try lra; rewrite E; reflexivity). reflexivity.
  - rewrite (round_pos p H), (round_pos q) by lra. apply roundPos_comp; assumption.
  - rewrite (round_zero p H), (round_zero q) by lra. reflexivity.
Qed.

Lemma round_opp (q : Q) : Double.round (- q) == - Double.round q.
Proof.
  destruct (Q_dec q 0) as [[H|H]|H].
  - rewrite (round_neg q H), (round_pos (- q)) by lra. ring.
  - rewrite (round_pos q H), (round_neg (- q)) by lra.
    rewrite (roundPos_comp (- - q) q) by (try lra; ring). reflexivity.
  - rewrite (round_zero q H), (round_zero (- q)) by lra. reflexivity.
Qed.

Lemma round_nonneg (q : Q) : 0 <= q -> 0 <= Double.round q.
Proof.
  intro H. destruct (Q_dec q 0) as [[N|P]|Z]; [lra| |].
  - rewrite (round_pos q P). destruct (roundPos_bounds q P) as [A _].
    pose proof (pow2_pos (Double.ilog2 q)). lra.
  - rewrite (round_zero q Z). lra.
Qed.

Lemma round_mono (p q : Q) : p <= q -> Double.round p <= Double.round q.
Proof.
  intro H. destruct (Q_dec p 0) as [[Pn|Pp]|Pz].
  - destruct (Q_dec q 0) as [[Qn|Qp]|Qz].
    + rewrite (round_neg p Pn), (round_neg q Qn).
      assert (Double.roundPos (- q) <= Double.roundPos (- p)) by (apply roundPos_mono; lra). lra.
    + pose proof (round_nonneg q). rewrite (round_neg p Pn).
      destruct (roundPos_bounds (- p)) as [A _]; [lra|].
      pose proof (pow2_pos (Double.ilog2 (- p))). lra.
    + rewrite (round_zero q Qz), (round_neg p Pn).
      destruct (roundPos_bounds (- p)) as [A _]; [lra|].
      pose proof (pow2_pos (Double.ilog2 (- p))). lra.
  - rewrite (round_pos p Pp), (round_pos q) by lra. apply roundPos_mono; assumption.
  - rewrite (round_zero p Pz). apply round_nonneg. lra.
Qed.

(** The relative error is at most half a unit in the last place. *)
Lemma round_err (q : Q) :
  Qabs (Double.round q - q) <= Qabs q * Double.pow2 (- 53).
Proof.
  assert (P : forall x, 0 < x -> Qabs (Double.roundPos x - x) <= x * Double.pow2 (- 53)).
  { intros x Hx. pose proof (roundPos_err x Hx) as E.
    destruct (ilog2_spec x Hx) as [A _].
    assert (E53 : Double.pow2 (Double.ilog2 x - 53)
                  == Double.pow2 (Double.ilog2 x) * Double.pow2 (- 53)).
    { rewrite <- pow2_add. reflexivity. }
    pose proof (pow2_pos (- 53)). rewrite E53 in E. nra. }
  destruct (Q_dec q 0) as [[H|H]|H].
  - rewrite (round_neg q H), (Qabs_neg q) by lra.
    assert (E : - Double.roundPos (- q) - q == - (Double.roundPos (- q) - - q)) by ring.
    rewrite E, Qabs_opp. apply P. lra.
  - rewrite (round_pos q H), (Qabs_pos q) by lra. apply P. exact H.
  - rewrite (round_zero q H). rewrite H. cbn. unfold Qle. cbn. lia.
Qed.

(** A number with a significand of at most 53 bits is not changed. *)
Lemma round_exact (m k : Z) :
  (Z.abs m < 2 ^ 53)%Z ->
  Double.round (inject_Z m * Double.pow2 k) == inject_Z m * Double.pow2 k.
Proof.
  assert (P : forall m, (0 < m < 2 ^ 53)%Z ->
            Double.roundPos (inject_Z m * Double.pow2 k) == inject_Z m * Double.pow2 k).
  { clear m. intros m Hm. set (x := inject_Z m * Double.pow2 k).
    assert (Hm0 : 0 < inject_Z m) by (change 0 with (inject_Z 0); rewrite <- Zlt_Qlt; lia).
    assert (Hx : 0 < x) by (unfold x; pose proof (pow2_pos k); nra).
    destruct (ilog2_spec x Hx) as [A B]. set (e := Double.ilog2 x) in *.
    assert (Hek : (e - k <= 52)%Z).
    { destruct (Z_le_gt_dec (e - k) 52) as [L|G]; [exact L|exfalso].
      assert (Double.pow2 (53 + k) <= Double.pow2 e) by (apply pow2_mono; lia).
      assert (M : inject_Z m < Double.pow2 53).
      { rewrite <- pow2_inject by lia. rewrite <- Zlt_Qlt. lia. }
      rewrite pow2_add in H. pose proof (pow2_pos k). unfold x in A. nra. }
    unfold Double.roundPos. fold e.
    assert (Ei : x * Double.pow2 (52 - e) == inject_Z (m * 2 ^ (k + 52 - e))).
    { unfold x. rewrite inject_Z_mult, pow2_inject by lia.
      rewrite <- Qmult_assoc, <- pow2_add.
      replace (k + (52 - e))%Z with (k + 52 - e)%Z by lia. reflexivity. }
    rewrite (NE_comp _ _ Ei), NE_int, inject_Z_mult, pow2_inject by lia.
    unfold x. rewrite <- Qmult_assoc, <- pow2_add.
    replace (k + 52 - e + (e - 52))%Z with k by lia. reflexivity. }
  intro Hm. destruct (Z.lt_trichotomy m 0) as [N|[Z|Q]].
  - assert (E : inject_Z m * Double.pow2 k == - (inject_Z (- m) * Double.pow2 k)).
    { rewrite inject_Z_opp. ring. }
    assert (Hp : 0 < inject_Z (- m) * Double.pow2 k).
    { assert (0 < inject_Z (- m)) by (change 0 with (inject_Z 0); rewrite <- Zlt_Qlt; lia).
      pose proof (pow2_pos k). nra. }
    pose proof (round_comp _ _ E) as R1.
    pose proof (round_opp (inject_Z (- m) * Double.pow2 k)) as R2.
    pose proof (round_pos _ Hp) as R3.
    pose proof (P (- m)%Z ltac:(lia)) as R4.
    lra.
  - subst m. rewrite round_zero by (change (inject_Z 0) with 0; ring).
    change (inject_Z 0) with 0. ring.
  - rewrite round_pos.
    + apply P. lia.
    + assert (0 < inject_Z m) by (change 0 with (inject_Z 0); rewrite <- Zlt_Qlt; lia).
      pose proof (pow2_pos k). nra.
Qed.

Lemma round_int (n : Z) : (Z.abs n < 2 ^ 53)%Z -> Double.round (inject_Z n) == inject_Z n.
Proof.
  intro H. pose proof (round_exact n 0 H) as E.
  assert (X : inject_Z n == inject_Z n * Double.pow2 0).
  { change (Double.pow2 0) with 1. ring. }
  pose proof (round_comp _ _ X) as R. lra.
Qed.



(** A positive binary64 number is an integer significand in
    [2^52, 2^53) times a power of two. *)
Lemma double_significand (t : Q) :
  0 < t -> Double.round t == t ->
  exists m : Z,
    (2 ^ 52 <= m < 2 ^ 53)%Z
    /\ t == inject_Z m * Double.pow2 (Double.ilog2 t - 52).
Proof.
  intros Ht Hd. rewrite (round_pos t Ht) in Hd.
  destruct (scaled_bounds t Ht) as [A B].
  destruct (ilog2_spec t Ht) as [L U].
  set (e := Double.ilog2 t) in *.
  unfold Double.roundPos in Hd. fold e in Hd.
  set (m := Double.nearestEven (t * Double.pow2 (52 - e))) in *.
  exists m. split; [|symmetry; exact Hd].
  assert (M1 : (2 ^ 52 <= m)%Z).
  { unfold m. rewrite <- (NE_int (2 ^ 52)). apply NE_mono.
    rewrite pow2_inject by lia. exact A. }
  split; [exact M1|].
  destruct (Z_lt_ge_dec m (2 ^ 53)) as [Lt|Ge]; [exact Lt|exfalso].
  assert (G : Double.pow2 53 <= inject_Z m).
  { rewrite <- pow2_inject by lia. rewrite <- Zle_Qle. lia. }
  assert (E2 : Double.pow2 (e + 1) == Double.pow2 53 * Double.pow2 (e - 52)).
  { rewrite <- pow2_add. replace (53 + (e - 52))%Z with (e + 1)%Z by lia. reflexivity. }
  pose proof (pow2_pos (e - 52)). nra.
Qed.

Lemma round_idem (q : Q) : Double.round (Double.round q) == Double.round q.
Proof.
  assert (P : forall x, 0 < x -> Double.round (Double.roundPos x) == Double.roundPos x).
  { intros x Hx. destruct (scaled_bounds x Hx) as [A B].
    set (e := Double.ilog2 x) in *. unfold Double.roundPos. fold e.
    set (m := Double.nearestEven (x * Double.pow2 (52 - e))).
    assert (M1 : (2 ^ 52 <= m)%Z).
    { unfold m. rewrite <- (NE_int (2 ^ 52)). apply NE_mono.
      rewrite pow2_inject by lia. exact A. }
    assert (M2 : (m <= 2 ^ 53)%Z).
    { unfold m. rewrite <- (NE_int (2 ^ 53)). apply NE_mono.
      rewrite pow2_inject by lia. lra. }
    destruct (Z.eq_dec m (2 ^ 53)) as [E|N].
    - rewrite E.
      assert (X : inject_Z (2 ^ 53) * Double.pow2 (e - 52)
                  == inject_Z 1 * Double.pow2 (e + 1)).
      { rewrite pow2_inject by lia. rewrite <- pow2_add.
        replace (53 + (e - 52))%Z with (e + 1)%Z by lia.
        change (inject_Z 1) with 1. ring. }
      rewrite (round_comp _ _ X), X. apply round_exact. cbn. lia.
    - apply round_exact. lia. }
  destruct (Q_dec q 0) as [[H|H]|H].
  - pose proof (round_neg q H) as R.
    rewrite (round_comp _ _ R), round_opp, P by lra. symmetry. exact R.
  - pose proof (round_pos q H) as R.
    rewrite (round_comp _ _ R), P by lra. symmetry. exact R.
  - rewrite (round_zero q H). reflexivity.
Qed.

Lemma NE_below (y : Q) (n : Z) :
  y < inject_Z n - (1 # 2) -> (Double.nearestEven y <= n - 1)%Z.
Proof.
  intro H. pose proof (Qfloor_le y) as F.
  destruct (NE_cases y) as [[E _]|[E G]]; rewrite E.
  - assert (inject_Z (Qfloor y) < inject_Z n) by lra.
    rewrite <- Zlt_Qlt in H0. lia.
  - assert (inject_Z (Qfloor y) < inject_Z n - 1) by lra.
    assert (inject_Z (Qfloor y) < inject_Z (n - 1)).
    { unfold Z.sub. rewrite inject_Z_plus. exact H0. }
    rewrite <- Zlt_Qlt in H1. lia.
Qed.

(** Below a positive binary64 number [t], by at least [t * 2^-53], rounding
    stays below [t]. *)
Lemma round_below_double (t x : Q) :
  0 < t -> Double.round t == t ->
  0 <= x -> x <= t * (1 - Double.eps) ->
  Double.round x < t.
Proof.
  intros Ht Hd Hx0 Hx.
  assert (He : 0 < Double.eps /\ Double.eps < 1) by (split; reflexivity).
  destruct (Qle_lt_or_eq 0 x Hx0) as [Hpos|Hz].
  2:{ rewrite (round_zero x); [exact Ht|]. symmetry. exact Hz. }
  destruct (double_significand t Ht Hd) as (m & Hm & Et).
  assert (Hte : 0 < t * Double.eps) by (apply Qmult_lt_0_compat; lra).
  assert (Hxt : x <= t) by lra.
  pose proof (ilog2_mono x t Hpos Hxt) as Le.
  destruct (scaled_bounds x Hpos) as [A B].
  set (ex := Double.ilog2 x) in *. set (et := Double.ilog2 t) in *.
  set (N := (m * 2 ^ (et - ex))%Z).
  assert (EN : t * Double.pow2 (52 - ex) == inject_Z N).
  { unfold N. rewrite inject_Z_mult, pow2_inject by lia. rewrite Et at 1.
    rewrite <- Qmult_assoc, <- pow2_add.
    replace (et - 52 + (52 - ex))%Z with (et - ex)%Z by lia. reflexivity. }
  set (y := x * Double.pow2 (52 - ex)) in *.
  pose proof (pow2_pos (52 - ex)) as Ps.
  assert (Hy : y <= inject_Z N * (1 - Double.eps)).
  { rewrite <- EN. unfold y. nra. }
  assert (HN : Double.pow2 52 <= inject_Z N) by nra.
  assert (E52 : Double.pow2 52 * Double.eps == 1 # 2) by reflexivity.
  assert (Hlt : y < inject_Z N - (1 # 2)).
  { destruct (Qle_lt_or_eq _ _ HN) as [G|G].
    - nra.
    - exfalso. nra. }
  pose proof (NE_below y N Hlt) as Hne.
  rewrite (round_pos x Hpos). unfold Double.roundPos. fold ex. fold y.
  assert (T2 : t == inject_Z N * Double.pow2 (ex - 52)).
  { rewrite <- EN, <- Qmult_assoc, <- pow2_add.
    replace (52 - ex + (ex - 52))%Z with 0%Z by lia. rewrite pow2_0. ring. }
  rewrite T2. pose proof (pow2_pos (ex - 52)) as Pe.
  assert (inject_Z (Double.nearestEven y) < inject_Z N).
  { rewrite <- Zlt_Qlt. lia. }
  nra.
Qed.

(** The largest binary64 number below 1 is 1 - 2^-53. *)
Lemma double_below_one (u : Q) :
  Double.round u == u -> u < 1 -> u <= 1 - Double.eps.
Proof.
  intros Hd H1.
  destruct (Qlt_le_dec u (1 # 2)) as [S|L].
  { assert (Double.eps < 1 # 2) by reflexivity. lra. }
  assert (Hu : 0 < u) by lra.
  assert (Ee : Double.ilog2 u = (-1)%Z).
  { apply ilog2_unique; [exact L|exact H1]. }
  destruct (double_significand u Hu Hd) as (m & Hm & Eu).
  rewrite Ee in Eu. change (Double.pow2 (-1 - 52)) with Double.eps in Eu.
  assert (M : (m <= 2 ^ 53 - 1)%Z) by lia.
  rewrite Zle_Qle in M.
  assert (E1 : inject_Z (2 ^ 53 - 1) * Double.eps == 1 - Double.eps) by reflexivity.
  assert (0 < Double.eps) by reflexivity. nra.
Qed.

Lemma pow2_m53 : Double.pow2 (- 53) == Double.eps.
Proof. reflexivity. Qed.

Lemma round_close (x B : Q) :
  Qabs x <= B -> x - B * Double.eps <= Double.round x /\ Double.round x <= x + B * Double.eps.
Proof.
  intro H. pose proof (round_err x) as E. rewrite pow2_m53 in E.
  assert (E' : Qabs (Double.round x - x) <= B * Double.eps).
  { assert (0 < Double.eps) by reflexivity. pose proof (Qabs_nonneg x). nra. }
  apply Qabs_Qle_condition in E'. split; lra.
Qed.

Lemma Qabs_le_iff (x B : Q) : Qabs x <= B <-> - B <= x /\ x <= B.
Proof. apply Qabs_Qle_condition. Qed.

Example normalizeAngle_three_half_turns : normalizeAngle (Math_PI * 3) == Math_PI.
Proof. vm_compute. reflexivity. Qed.

Example normalizeAngle_below : normalizeAngle (- 4) == - 4 + Math_PI * 2.
Proof. vm_compute. reflexivity. Qed.

Example normalizeAngle_inside : normalizeAngle 1.5 == 1.5.
Proof. vm_compute. reflexivity. Qed.

(** ** The normalisation loops *)

Section Loops.

Local Abbreviation tau := (Math_PI * 2).

Lemma whileAbove_comp (n : nat) (a b : Q) :
  a == b -> whileAbove n a == whileAbove n b.
Proof.
  revert a b. induction n as [|n IH]; intros a b Hab; simpl; [exact Hab|].
  rewrite (Qltb_comp Math_PI Math_PI a b) by (reflexivity || exact Hab).
  destruct (Math_PI <? b); [|exact Hab].
  apply IH. rewrite Hab. reflexivity.
Qed.

Lemma whileBelow_comp (n : nat) (a b : Q) :
  a == b -> whileBelow n a == whileBelow n b.
Proof.
  revert a b. induction n as [|n IH]; intros a b Hab; simpl; [exact Hab|].
  rewrite (Qltb_comp a b (- Math_PI) (- Math_PI)) by (reflexivity || exact Hab).
  destruct (b <? - Math_PI); [|exact Hab].
  apply IH. rewrite Hab. reflexivity.
Qed.

(** With enough fuel the first loop ends with its condition false. *)
Lemma whileAbove_le (n : nat) (a : Q) :
  a <= Math_PI + inject_Z (Z.of_nat n) * tau -> whileAbove n a <= Math_PI.
Proof.
  revert a. induction n as [|n IH]; intros a Ha.
  - simpl in *. change (inject_Z 0) with 0 in Ha. lra.
  - simpl whileAbove. destruct (Math_PI <? a) eqn:E.
    + apply IH. rewrite Nat2Z.inj_succ in Ha. unfold Z.succ in Ha.
      rewrite inject_Z_plus in Ha. change (inject_Z 1) with 1 in Ha.
      lra.
    + apply Qltb_false in E. exact E.
Qed.

Lemma whileBelow_ge (n : nat) (a : Q) :
  - Math_PI - inject_Z (Z.of_nat n) * tau <= a -> - Math_PI <= whileBelow n a.
Proof.
  revert a. induction n as [|n IH]; intros a Ha.
  - simpl in *. change (inject_Z 0) with 0 in Ha. lra.
  - simpl whileBelow. destruct (a <? - Math_PI) eqn:E.
    + apply IH. rewrite Nat2Z.inj_succ in Ha. unfold Z.succ in Ha.
      rewrite inject_Z_plus in Ha. change (inject_Z 1) with 1 in Ha.
      lra.
    + apply Qltb_false in E. exact E.
Qed.

(** A loop never crosses the other bound. *)
Lemma whileAbove_ge (n : nat) (a : Q) :
  - Math_PI <= a -> - Math_PI <= whileAbove n a.
Proof.
  pose proof Math_PI_pos as Hpi.
  revert a. induction n as [|n IH]; intros a Ha; simpl; [exact Ha|].
  destruct (Math_PI <? a) eqn:E; [|exact Ha].
  apply Qltb_true in E. apply IH. lra.
Qed.

Lemma whileBelow_le (n : nat) (a : Q) :
  a <= Math_PI -> whileBelow n a <= Math_PI.
Proof.
  pose proof Math_PI_pos as Hpi.
  revert a. induction n as [|n IH]; intros a Ha; simpl; [exact Ha|].
  destruct (a <? - Math_PI) eqn:E; [|exact Ha].
  apply Qltb_true in E. apply IH. lra.
Qed.

(** The first loop leaves a value above [-PI] when it runs at all. *)
Lemma whileAbove_floor (n : nat) (a : Q) :
  - Math_PI <= whileAbove n a \/ whileAbove n a = a.
Proof.
  pose proof Math_PI_pos as Hpi.
  destruct n as [|n]; simpl; [right; reflexivity|].
  destruct (Math_PI <? a) eqn:E; [|right; reflexivity].
  apply Qltb_true in E. left. apply whileAbove_ge. lra.
Qed.

(** Each loop moves its argument by a whole number of turns. *)
Lemma whileAbove_turns (n : nat) (a : Q) :
  exists k : Z, whileAbove n a == a + inject_Z k * tau.
Proof.
  revert a. induction n as [|n IH]; intros a; simpl.
  - exists 0%Z. change (inject_Z 0) with 0. lra.
  - destruct (Math_PI <? a).
    + destruct (IH (a - Math_PI * 2)) as [k Hk].
      exists (k + -1)%Z. rewrite Hk.
      rewrite inject_Z_plus. change (inject_Z (-1)) with (-1).
      lra.
    + exists 0%Z. change (inject_Z 0) with 0. lra.
Qed.

Lemma whileBelow_turns (n : nat) (a : Q) :
  exists k : Z, whileBelow n a == a + inject_Z k * tau.
Proof.
  revert a. induction n as [|n IH]; intros a; simpl.
  - exists 0%Z. change (inject_Z 0) with 0. lra.
  - destruct (a <? - Math_PI).
    + destruct (IH (a + Math_PI * 2)) as [k Hk].
      exists (k + 1)%Z. rewrite Hk.
      rewrite inject_Z_plus. change (inject_Z 1) with 1. lra.
    + exists 0%Z. change (inject_Z 0) with 0. lra.
Qed.

(** [turns a] is enough fuel for either loop. *)
Lemma turns_bound (a : Q) : Qabs a <= inject_Z (Z.of_nat (turns a)) * tau.
Proof.
  pose proof Math_PI_pos as Hpi.
  unfold turns.
  assert (Htau : 0 < tau) by lra.
  assert (H0 : 0 <= Qabs a / tau).
  { apply Qle_shift_div_l; [exact Htau|]. pose proof (Qabs_nonneg a). lra. }
  pose proof (Qle_ceiling (Qabs a / tau)) as Hc.
  rewrite Z2Nat.id.
  - pose proof (Qmult_le_compat_r _ _ tau Hc (Qlt_le_weak _ _ Htau)) as Hm.
    assert (E : Qabs a / tau * tau == Qabs a) by (field; lra).
    rewrite E in Hm. exact Hm.
  - assert (H1 : 0 <= inject_Z (Qceiling (Qabs a / tau))) by lra.
    rewrite <- (Zle_Qle 0) in H1. exact H1.
Qed.

Lemma whileAbove_exits (a : Q) : whileAbove (turns a) a <= Math_PI.
Proof.
  pose proof Math_PI_pos as Hpi.
  apply whileAbove_le.
  pose proof (turns_bound a). pose proof (Qle_Qabs a). lra.
Qed.

Lemma whileBelow_exits (a : Q) : - Math_PI <= whileBelow (turns a) a.
Proof.
  pose proof Math_PI_pos as Hpi.
  apply whileBelow_ge.
  pose proof (turns_bound a) as Ht.
  pose proof (Qle_Qabs (- a)) as Hn. rewrite Qabs_opp in Hn. lra.
Qed.

End Loops.

(** ** [normalizeAngle] *)

Lemma turns_comp (a b : Q) : a == b -> turns a = turns b.
Proof.
  intro H. unfold turns. f_equal. apply Qceiling_comp.
  rewrite H. reflexivity.
Qed.

Lemma normalizeAngle_comp (a b : Q) :
  a == b -> normalizeAngle a == normalizeAngle b.
Proof.
  intro H. unfold normalizeAngle.
  rewrite (turns_comp a b H).
  pose proof (whileAbove_comp (turns b) a b H) as H1.
  rewrite (turns_comp _ _ H1).
  apply whileBelow_comp. exact H1.
Qed.

Lemma normalizeAngle_range (a : Q) :
  - Math_PI <= normalizeAngle a /\ normalizeAngle a <= Math_PI.
Proof.
  unfold normalizeAngle. split.
  - apply whileBelow_exits.
  - apply whileBelow_le. apply whileAbove_exits.
Qed.

Lemma normalizeAngle_turns (a : Q) :
  exists k : Z, normalizeAngle a == a + inject_Z k * (Math_PI * 2).
Proof.
  unfold normalizeAngle.
  destruct (whileAbove_turns (turns a) a) as [k Hk].
  destruct (whileBelow_turns (turns (whileAbove (turns a) a))
              (whileAbove (turns a) a)) as [j Hj].
  exists (k + j)%Z. rewrite Hj, Hk, inject_Z_plus. lra.
Qed.

(** An integer number of turns of size below one turn is no turn. *)
Lemma no_turn (m : Z) :
  - (Math_PI * 2) < inject_Z m * (Math_PI * 2) ->
  inject_Z m * (Math_PI * 2) < Math_PI * 2 ->
  m = 0%Z.
Proof.
  pose proof Math_PI_pos as Hpi. intros Hlo Hhi.
  assert (H1 : inject_Z m < 1).
  { apply Qnot_le_lt. intro Hc.
    pose proof (Qmult_le_compat_r _ _ (Math_PI * 2) Hc) as Hm. lra. }
  assert (H2 : -1 < inject_Z m).
  { apply Qnot_le_lt. intro Hc.
    pose proof (Qmult_le_compat_r _ _ (Math_PI * 2) Hc) as Hm. lra. }
  change 1 with (inject_Z 1) in H1. rewrite <- Zlt_Qlt in H1.
  change (-1) with (inject_Z (-1)) in H2. rewrite <- Zlt_Qlt in H2.
  lia.
Qed.

(** The representative strictly inside the half-turn is the one the loops
    find. *)
Lemma normalizeAngle_unique (a v : Q) (k : Z) :
  - Math_PI < v -> v < Math_PI ->
  a == v + inject_Z k * (Math_PI * 2) ->
  normalizeAngle a == v.
Proof.
  intros Hlo Hhi Ha.
  destruct (normalizeAngle_turns a) as [j Hj].
  destruct (normalizeAngle_range a) as [R1 R2].
  assert (E : normalizeAngle a == v + inject_Z (k + j) * (Math_PI * 2)).
  { rewrite Hj, Ha, inject_Z_plus. lra. }
  assert (Z0 : (k + j)%Z = 0%Z).
  { apply no_turn; lra. }
  rewrite Z0 in E. change (inject_Z 0) with 0 in E. lra.
Qed.

(** ** Walker: what each part of [update()] assigns *)

Ltac split_ifs :=
  repeat match goal with
         | |- context [if ?b then _ else _] => destruct b
         end.

Lemma toggle_rotations (r : Walker.Rand) (w : Walker.t) :
  Walker.currentRotation (Walker.toggle r w) = Walker.currentRotation w
  /\ Walker.targetRotation (Walker.toggle r w) = Walker.targetRotation w.
Proof.
  unfold Walker.toggle, Walker.switchToIdle, Walker.switchToWalking.
  simpl. split_ifs; split; reflexivity.
Qed.

Lemma navigate_currentRotation (M : MathImpl) (r : Walker.Rand)
    (w : Walker.t) (c : Gvrm) :
  Walker.currentRotation (Walker.navigate M r w c) = Walker.currentRotation w.
Proof.
  unfold Walker.navigate. simpl. split_ifs; reflexivity.
Qed.

Lemma walk_rotations (M : MathImpl) (r : Walker.Rand) (b : bool)
    (w : Walker.t) (c : Gvrm) :
  Walker.currentRotation (fst (Walker.walk M r b w c)) = Walker.currentRotation w
  /\ Walker.targetRotation (fst (Walker.walk M r b w c)) = Walker.targetRotation w.
Proof.
  unfold Walker.walk. split_ifs; split; reflexivity.
Qed.

(** Past the early returns, [update()] is the composition of its parts. *)
Lemma update_active (M : MathImpl) (r : Walker.Rand) (w : Walker.t) (c : Gvrm) :
  active w c ->
  Walker.update M r w (Some c) =
    let w2 := Walker.navigate M r (Walker.toggle r w) c in
    let w3 := Walker.rotate w2 in
    let res :=
      Walker.walk M r (Math_abs (Walker.rotDiffOf w2) <? Walker.rotationThreshold)
        w3 (setYaw (Walker.currentRotation w3) c) in
    (fst res, Some (snd res)).
Proof.
  intros (Hr & Hl & Hs). unfold Walker.update. rewrite Hr, Hl, Hs.
  cbn [negb orb]. cbv zeta.
  destruct (Walker.walk _ _ _ _ _). reflexivity.
Qed.

Lemma update_skipped (M : MathImpl) (r : Walker.Rand) (w : Walker.t)
    (g : option Gvrm) :
  (forall c, g = Some c -> ~ active w c) ->
  Walker.update M r w g = (w, g).
Proof.
  intro H. unfold Walker.update. destruct g as [c|]; [|reflexivity].
  specialize (H c eq_refl). unfold active in H.
  destruct (isReady c); cbn [negb orb]; [|reflexivity].
  destruct (Walker.animationsLoaded w); cbn [negb orb]; [|reflexivity].
  destruct (Walker.isPlayingSpecial w); [reflexivity|].
  exfalso. apply H. repeat split.
Qed.

Lemma active_dec (w : Walker.t) (c : Gvrm) : active w c \/ ~ active w c.
Proof.
  unfold active.
  destruct (isReady c), (Walker.animationsLoaded w), (Walker.isPlayingSpecial w);
    try (left; repeat split; reflexivity);
    right; intros (A & B & C); discriminate.
Qed.

Lemma update_currentRotation (M : MathImpl) (r : Walker.Rand)
    (w : Walker.t) (c : Gvrm) :
  active w c ->
  let w2 := Walker.navigate M r (Walker.toggle r w) c in
  Walker.currentRotation (fst (Walker.update M r w (Some c))) =
    normalizeAngle (Walker.currentRotation w + Walker.rotDiffOf w2 * 0.1)
  /\ Walker.targetRotation (fst (Walker.update M r w (Some c))) =
       Walker.targetRotation w2.
Proof.
  intros Ha w2. rewrite (update_active M r w c Ha). cbv zeta. cbn [fst].
  fold w2.
  destruct (walk_rotations M r
              (Math_abs (Walker.rotDiffOf w2) <? Walker.rotationThreshold)
              (Walker.rotate w2)
              (setYaw (Walker.currentRotation (Walker.rotate w2)) c)) as [E1 E2].
  rewrite E1, E2. unfold Walker.rotate. simpl.
  split; [|reflexivity].
  unfold w2 at 1. rewrite navigate_currentRotation.
  rewrite (proj1 (toggle_rotations r w)). reflexivity.
Qed.

(** ** Heading *)

Lemma constructor_currentRotation (r : Walker.CtorRand) (idx : nat) :
  Walker.currentRotation (Walker.constructor r idx)
  = (Walker.cRotation r - 0.5) * Math_PI * 2.
Proof. reflexivity. Qed.

(** C10: the heading [currentRotation] of a walker lies in [-PI, PI] after
    construction and after every [update()], whatever its mode and whatever
    an interaction wrote on it: the running path normalises it, the other
    paths and the other events leave it as it is. *)
Theorem currentRotation_in_range (w : Walker.t) :
  reachable w ->
  - Math_PI <= Walker.currentRotation w /\ Walker.currentRotation w <= Math_PI.
Proof.
  induction 1 as [r idx [Hlo Hhi]|M r w g Hw IH| | | | | | | ];
    try exact IHreachable.
  - rewrite constructor_currentRotation. unfold Math_PI. split; lra.
  - destruct g as [c|].
    + destruct (active_dec w c) as [Ha|Hn].
      * rewrite (proj1 (update_currentRotation M r w c Ha)).
        apply normalizeAngle_range.
      * rewrite update_skipped; [exact IH|].
        intros c' E. injection E as <-. exact Hn.
    + rewrite update_skipped; [exact IH|]. discriminate.
  - unfold Walker.initAnimations. destruct g as [c|]; [|exact IHreachable].
    split_ifs; exact IHreachable.
  - unfold Walker.switchToIdle. split_ifs; exact IHreachable.
Qed.

(** *** The turning step with rounding *)












(** ** Arena *)

Lemma clamp_range (lo hi x : Q) :
  lo <= hi -> lo <= Walker.clamp lo hi x /\ Walker.clamp lo hi x <= hi.
Proof.
  intro H. unfold Walker.clamp, Math_max, Math_min.
  destruct (x <? hi) eqn:E1.
  - apply Qltb_true in E1.
    destruct (lo <? x) eqn:E2.
    + apply Qltb_true in E2. split; lra.
    + split; lra.
  - destruct (lo <? hi) eqn:E2.
    + split; lra.
    + apply Qltb_false in E2. split; lra.
Qed.

Lemma before_walk_fields (M : MathImpl) (r : Walker.Rand) (w : Walker.t)
    (c : Gvrm) :
  Walker.boundary (turned M r w c) = Walker.boundary w
  /\ Walker.justChangedTarget (turned M r w c) = Walker.justChangedTarget w.
Proof.
  unfold turned, Walker.rotate, Walker.navigate, Walker.toggle,
    Walker.switchToIdle, Walker.switchToWalking, Walker.setNewTarget.
  simpl. split_ifs; split; reflexivity.
Qed.

Lemma walk_boundary (M : MathImpl) (r : Walker.Rand) (b : bool)
    (w : Walker.t) (c : Gvrm) :
  Walker.boundary (fst (Walker.walk M r b w c)) = Walker.boundary w.
Proof.
  unfold Walker.walk. split_ifs; reflexivity.
Qed.

Lemma update_boundary (M : MathImpl) (r : Walker.Rand) (w : Walker.t)
    (g : option Gvrm) :
  Walker.boundary (fst (Walker.update M r w g)) = Walker.boundary w.
Proof.
  destruct g as [c|]; [|reflexivity].
  destruct (active_dec w c) as [Ha|Hn].
  - rewrite (update_active M r w c Ha). cbv zeta. cbn [fst].
    rewrite walk_boundary. apply (before_walk_fields M r w c).
  - rewrite update_skipped; [reflexivity|].
    intros c' E. injection E as <-. exact Hn.
Qed.

(** The result of [update()] on a frame in which the walker steps
    forward. *)
Lemma update_stepping (M : MathImpl) (r : Walker.Rand) (w : Walker.t)
    (c : Gvrm) :
  active w c -> stepsForward M r w c = true ->
  let w3 := turned M r w c in
  let lo := - Walker.boundary w + Walker.safetyMargin in
  let hi := Walker.boundary w - Walker.safetyMargin in
  Walker.update M r w (Some c) =
    if wouldExit M r w c then
      (if negb (Walker.justChangedTarget w)
       then Walker.set_justChangedTarget true
              (Walker.setNewTarget (Walker.rBoundX r) (Walker.rBoundZ r) w3)
       else w3,
       Some (setPosXZ (Walker.clamp lo hi (newX M r w c)) (Walker.clamp lo hi (newZ M r w c))
               (setYaw (Walker.currentRotation w3) c)))
    else
      (w3, Some (setPosXZ (newX M r w c) (newZ M r w c)
                   (setYaw (Walker.currentRotation w3) c))).
Proof.
  intros Ha Hs. cbv zeta.
  rewrite (update_active M r w c Ha). cbv zeta.
  unfold stepsForward in Hs. cbv zeta in Hs.
  unfold Walker.walk.
  change (Walker.shouldWalk (Walker.rotate ?x)) with (Walker.shouldWalk x).
  change (Walker.isWalking (Walker.rotate ?x)) with (Walker.isWalking x).
  rewrite Hs.
  destruct (before_walk_fields M r w c) as [Eb Ej].
  unfold wouldExit, newX, newZ. cbv zeta. fold (turned M r w c).
  cbn [posX posZ rot0y setYaw].
  rewrite Eb, Ej.
  destruct ((Math_abs _ <? _) && (Math_abs _ <? _)); cbn [negb fst snd];
    [reflexivity|].
  destruct (negb (Walker.justChangedTarget w)); reflexivity.
Qed.

Lemma update_not_stepping (M : MathImpl) (r : Walker.Rand) (w : Walker.t)
    (c : Gvrm) :
  active w c -> stepsForward M r w c = false ->
  Walker.update M r w (Some c) =
    (turned M r w c, Some (setYaw (Walker.currentRotation (turned M r w c)) c)).
Proof.
  intros Ha Hs.
  rewrite (update_active M r w c Ha). cbv zeta.
  unfold stepsForward in Hs. cbv zeta in Hs.
  unfold Walker.walk.
  change (Walker.shouldWalk (Walker.rotate ?x)) with (Walker.shouldWalk x).
  change (Walker.isWalking (Walker.rotate ?x)) with (Walker.isWalking x).
  rewrite Hs. reflexivity.
Qed.

Lemma within_of_bounds (w : Walker.t) (c : Gvrm) (b : Q) :
  Walker.boundary w = b ->
  - b + Walker.safetyMargin <= posX c -> posX c <= b - Walker.safetyMargin ->
  - b + Walker.safetyMargin <= posZ c -> posZ c <= b - Walker.safetyMargin ->
  withinArena w c.
Proof.
  intros Eb X1 X2 Z1 Z2. unfold withinArena. rewrite Eb.
  split; apply Qabs_Qle_condition; split; lra.
Qed.

(** C8, as the code has it: [update()] keeps an avatar that is inside the
    arena (|x| and |z| at most boundary - safetyMargin, 11.25 - 0.5) inside
    it; a frame that steps forward leaves the avatar inside it wherever it
    was before; and a step that would leave the arena sets the position to
    its clamped value and draws a new random target when
    [justChangedTarget] is not set. *)
Theorem update_keeps_avatar_in_arena (M : MathImpl) (r : Walker.Rand)
    (w : Walker.t) (c : Gvrm) :
  Walker.boundary w == 11.25 ->
  let lo := - Walker.boundary w + Walker.safetyMargin in
  let hi := Walker.boundary w - Walker.safetyMargin in
  exists w' c',
    Walker.update M r w (Some c) = (w', Some c')
    /\ (withinArena w c -> withinArena w' c')
    /\ (active w c -> stepsForward M r w c = true ->
        withinArena w' c'
        /\ (wouldExit M r w c = false ->
            posX c' = newX M r w c /\ posZ c' = newZ M r w c)
        /\ (wouldExit M r w c = true ->
            posX c' = Walker.clamp lo hi (newX M r w c)
            /\ posZ c' = Walker.clamp lo hi (newZ M r w c)
            /\ (Walker.justChangedTarget w = false ->
                w' = Walker.set_justChangedTarget true
                       (Walker.setNewTarget (Walker.rBoundX r) (Walker.rBoundZ r)
                          (turned M r w c))))).
Proof.
  intros Hb lo hi.
  assert (Hm : lo <= hi) by (unfold lo, hi, Walker.safetyMargin; lra).
  destruct (active_dec w c) as [Ha|Hn].
  2:{ exists w, c. split.
      - apply update_skipped. intros c' E. injection E as <-. exact Hn.
      - split; [tauto|]. intros Ha. contradiction. }
  destruct (before_walk_fields M r w c) as [Eb Ej].
  destruct (stepsForward M r w c) eqn:Hs.
  - pose proof (update_stepping M r w c Ha Hs) as E. cbv zeta in E.
    fold lo hi in E.
    destruct (wouldExit M r w c) eqn:Hx.
    + destruct (clamp_range lo hi (newX M r w c) Hm) as [X1 X2].
      destruct (clamp_range lo hi (newZ M r w c) Hm) as [Z1 Z2].
      eexists _, _. split; [exact E|].
      assert (W : forall w', Walker.boundary w' = Walker.boundary w ->
                withinArena w'
                  (setPosXZ (Walker.clamp lo hi (newX M r w c))
                     (Walker.clamp lo hi (newZ M r w c))
                     (setYaw (Walker.currentRotation (turned M r w c)) c))).
      { intros w' Ew. apply (within_of_bounds _ _ _ Ew); assumption. }
      assert (Ebw : Walker.boundary
                (if negb (Walker.justChangedTarget w)
                 then Walker.set_justChangedTarget true
                        (Walker.setNewTarget (Walker.rBoundX r)
                           (Walker.rBoundZ r) (turned M r w c))
                 else turned M r w c) = Walker.boundary w).
      { destruct (negb (Walker.justChangedTarget w)); exact Eb. }
      split; [intros _; apply W; exact Ebw|].
      intros _ _. split; [apply W; exact Ebw|].
      split; [discriminate|].
      intros _. split; [reflexivity|]. split; [reflexivity|].
      intros Hj. rewrite Hj. reflexivity.
    + unfold wouldExit in Hx. apply negb_false_iff in Hx.
      apply andb_true_iff in Hx. destruct Hx as [Hx Hz].
      apply Qltb_true in Hx, Hz. unfold Math_abs in Hx, Hz.
      assert (W : withinArena (turned M r w c)
                    (setPosXZ (newX M r w c) (newZ M r w c)
                       (setYaw (Walker.currentRotation (turned M r w c)) c))).
      { unfold withinArena. rewrite Eb. cbn [posX posZ setPosXZ]. split; lra. }
      eexists _, _. split; [exact E|].
      split; [intros _; exact W|].
      intros _ _. split; [exact W|].
      split; [intros _; split; reflexivity|discriminate].
  - eexists _, _. split; [apply (update_not_stepping M r w c Ha Hs)|].
    split; [|discriminate].
    unfold withinArena. rewrite Eb. cbn [posX posZ setYaw]. tauto.
Qed.

(** C10, on a walker after its first frame. *)
Lemma currentRotation_in_range_witness :
  reachable (fst (Walker.update refMath draws0 walker0 (Some avatar0)))
  /\ - Math_PI <= Walker.currentRotation
                    (fst (Walker.update refMath draws0 walker0 (Some avatar0)))
  /\ Walker.currentRotation
       (fst (Walker.update refMath draws0 walker0 (Some avatar0))) <= Math_PI.
Proof.
  assert (R : reachable (fst (Walker.update refMath draws0 walker0 (Some avatar0)))).
  { apply reach_update, reach_initAnimations, reach_constructor.
    unfold isDraw. simpl. split; lra. }
  split; [exact R|].
  exact (currentRotation_in_range _ R).
Defined.


(** C8 as stated fails on an avatar that was placed within the boundary
    but beyond the safety margin and whose walker is idle: [update()] runs
    and leaves the avatar where it is, at x = 11.025 > 10.75. *)
Lemma update_leaves_avatar_outside_margin :
  active walker0 avatarEdge
  /\ exists w' c',
       Walker.update refMath draws0 walker0 (Some avatarEdge) = (w', Some c')
       /\ posX c' == 11.025
       /\ ~ withinArena w' c'.
Proof.
  split; [repeat split; reflexivity|].
  eexists _, _. split; [vm_compute; reflexivity|].
  split; [reflexivity|].
  intros [H _]. vm_compute in H. apply H. reflexivity.
Qed.

(** C8, amended, on the same avatar and on one inside the arena. *)
Lemma update_keeps_avatar_in_arena_witness :
  Walker.boundary walker0 == 11.25
  /\ withinArena walker0 avatar0
  /\ exists w' c',
       Walker.update refMath draws0 walker0 (Some avatar0) = (w', Some c')
       /\ withinArena w' c'.
Proof.
  assert (B : Walker.boundary walker0 == 11.25) by reflexivity.
  assert (W : withinArena walker0 avatar0).
  { split; vm_compute; discriminate. }
  split; [exact B|]. split; [exact W|].
  destruct (update_keeps_avatar_in_arena refMath draws0 walker0 avatar0 B)
    as (w' & c' & E & Keep & _).
  exists w', c'. split; [exact E|]. exact (Keep W).
Defined.

(** ** Stopped walkers *)

(** A frame of a stopped walker below its stop duration: only the timer,
    the heading and the avatar's orientation change. *)
Lemma idle_frame (M : MathImpl) (r : Walker.Rand) (w : Walker.t) (c : Gvrm) :
  active w c -> Walker.shouldWalk w = false ->
  Walker.walkTimer w + 1 < Walker.stopDuration w ->
  Walker.update M r w (Some c) =
    (Walker.rotate (Walker.set_walkTimer (Walker.walkTimer w + 1) w),
     Some (setYaw
             (Walker.currentRotation
                (Walker.rotate (Walker.set_walkTimer (Walker.walkTimer w + 1) w)))
             c)).
Proof.
  intros Ha Hs Ht.
  assert (T : Walker.toggle r w
              = Walker.set_walkTimer (Walker.walkTimer w + 1) w).
  { unfold Walker.toggle.
    cbn [Walker.shouldWalk Walker.set_walkTimer Walker.walkTimer
         Walker.stopDuration].
    rewrite Hs. apply Qleb_false in Ht. rewrite Ht. reflexivity. }
  assert (N : Walker.navigate M r (Walker.toggle r w) c = Walker.toggle r w).
  { unfold Walker.navigate. rewrite T.
    cbn [Walker.shouldWalk Walker.set_walkTimer]. rewrite Hs. reflexivity. }
  assert (S : stepsForward M r w c = false).
  { unfold stepsForward. cbv zeta. rewrite N, T.
    cbn [Walker.shouldWalk Walker.set_walkTimer]. rewrite Hs. reflexivity. }
  rewrite (update_not_stepping M r w c Ha S).
  unfold turned. rewrite N, T. reflexivity.
Qed.

(** ** Suspension and temporary targets *)

Lemma update_suspended (M : MathImpl) (threshold : Q)
    (approach : Q -> Q -> Walker.Rand -> Walker.t -> Gvrm -> Walker.t * Gvrm)
    (r : Walker.Rand) (w : SpecWalker.t) (g : option Gvrm) :
  SpecWalker.suspended w = true ->
  SpecWalker.update M threshold approach r w g = (w, g).
Proof. intro H. unfold SpecWalker.update. rewrite H. reflexivity. Qed.

(** C1: a Walker suspended for an interaction is skipped by [update()]:
    any number of frames leaves the walker and its avatar exactly as they
    are, so that no walk/stop toggle, navigation, rotation, translation or
    gesture happens and [shouldWalk], forced to false, stays false.  The
    writes of [Interaction.start] give such a walker; after the writes of
    [Interaction.end] the walker is no longer suspended, and without a
    temporary target its frame is again the one of [Walker.update]. *)
Theorem suspended_walker_is_skipped (M : MathImpl) (threshold : Q)
    (approach : Q -> Q -> Walker.Rand -> Walker.t -> Gvrm -> Walker.t * Gvrm)
    (rs : list Walker.Rand) (w : SpecWalker.t) (g : option Gvrm) :
  SpecWalker.suspended w = true ->
  SpecWalker.updates M threshold approach rs w g = (w, g)
  /\ (Walker.shouldWalk (SpecWalker.walker w) = false ->
      Walker.shouldWalk
        (SpecWalker.walker
           (fst (SpecWalker.updates M threshold approach rs w g))) = false)
  /\ (forall (w0 : Walker.t) (tt : option (Q * Q)) (n : nat),
        SpecWalker.suspended
          (SpecWalker.mk (Interaction.suspendWalker w0) tt n) = true
        /\ Walker.shouldWalk (Interaction.suspendWalker w0) = false)
  /\ (forall (original : bool) (r : Walker.Rand),
        let resumed :=
          SpecWalker.mk
            (Interaction.resumeWalker original (SpecWalker.walker w))
            None (SpecWalker.callbackCalls w) in
        SpecWalker.suspended resumed = false
        /\ SpecWalker.update M threshold approach r resumed g
           = (SpecWalker.mk
                (fst (Walker.update M r (SpecWalker.walker resumed) g))
                None (SpecWalker.callbackCalls w),
              snd (Walker.update M r (SpecWalker.walker resumed) g))).
Proof.
  intro Hs.
  assert (Run : SpecWalker.updates M threshold approach rs w g = (w, g)).
  { induction rs as [|r rs IH]; [reflexivity|].
    cbn [SpecWalker.updates].
    rewrite (update_suspended M threshold approach r w g Hs). exact IH. }
  split; [exact Run|]. split.
  { intro Hw. rewrite Run. exact Hw. }
  split.
  { intros w0 tt n. split; reflexivity. }
  intros original r resumed.
  assert (Hr : SpecWalker.suspended resumed = false) by reflexivity.
  split; [exact Hr|].
  unfold SpecWalker.update. rewrite Hr.
  change (SpecWalker.temporaryTarget resumed) with (@None (Q * Q)).
  change (SpecWalker.callbackCalls resumed) with (SpecWalker.callbackCalls w).
  cbv iota.
  destruct (Walker.update M r (SpecWalker.walker resumed) g) as [w' g'].
  reflexivity.
Qed.

Lemma suspended_walker_is_skipped_witness :
  SpecWalker.suspended suspendedWalker = true
  /\ SpecWalker.updates refMath 0.05 approach0 (repeat draws0 60)
       suspendedWalker (Some avatar0)
     = (suspendedWalker, Some avatar0).
Proof.
  split; [reflexivity|].
  exact (proj1 (suspended_walker_is_skipped refMath 0.05 approach0
                  (repeat draws0 60) suspendedWalker (Some avatar0)
                  eq_refl)).
Defined.




(** ** Interaction: frame counter and [end()] *)

Lemma reaches_iff_ceiling (d : Q) (z : Z) :
  d <= inject_Z z <-> (Qceiling d <= z)%Z.
Proof.
  split; intro H.
  - rewrite <- (Qceiling_Z z). apply Qceiling_resp_le. exact H.
  - pose proof (Qle_ceiling d) as Hc. rewrite Zle_Qle in H. lra.
Qed.

Lemma firstFrameReaching_first (d : Q) :
  d <= inject_Z (firstFrameReaching d)
  /\ (1 <= firstFrameReaching d)%Z
  /\ forall k : Z, (1 <= k < firstFrameReaching d)%Z -> inject_Z k < d.
Proof.
  unfold firstFrameReaching. split; [|split].
  - apply reaches_iff_ceiling. lia.
  - lia.
  - intros k Hk. apply Qnot_le_lt. intro Hle.
    apply reaches_iff_ceiling in Hle. lia.
Qed.

Lemma start_fields (M : MathImpl) (i : Interaction.t) (s : Scene) :
  Interaction.frameCount (fst (Interaction.start M i s)) = 0%Z
  /\ Interaction.isActive (fst (Interaction.start M i s)) = true
  /\ Interaction.duration (fst (Interaction.start M i s)) = Interaction.duration i
  /\ Interaction.endCalls (fst (Interaction.start M i s)) = Interaction.endCalls i.
Proof. repeat split. Qed.

Lemma frames_invariant (M : MathImpl) (i : Interaction.t) (s : Scene) (n : nat) :
  Interaction.frameCount i = 0%Z -> Interaction.isActive i = true ->
  framesInvariant (Interaction.duration i) (Interaction.endCalls i) n
    (fst (frames M n i s)).
Proof.
  intros Hf Ha.
  destruct (firstFrameReaching_first (Interaction.duration i)) as (K1 & K2 & K3).
  induction n as [|n IH].
  - unfold framesInvariant. cbv zeta. cbn [frames fst].
    rewrite Hf, Ha.
    replace (firstFrameReaching (Interaction.duration i) <=? Z.of_nat 0)%Z
      with false by (symmetry; apply Z.leb_gt; lia).
    replace (Z.of_nat 0 <? firstFrameReaching (Interaction.duration i))%Z
      with true by (symmetry; apply Z.ltb_lt; lia).
    repeat split; try assumption; lia.
  - cbn [frames]. destruct (frames M n i s) as [i' s']. cbn [fst] in IH.
    destruct IH as (Hd & Hc & Hact & He).
    cbv zeta in Hc, Hact, He.
    unfold framesInvariant. cbv zeta.
    set (K := firstFrameReaching (Interaction.duration i)) in *.
    unfold Interaction.update.
    destruct (Z.ltb_spec (Z.of_nat n) K) as [Hlt|Hge].
    + rewrite Hact. cbn [negb].
      cbn [Interaction.frameCount Interaction.set_frameCount
           Interaction.duration].
      rewrite Hc, Hd, Z.min_l by lia.
      destruct (Interaction.duration i <=? inject_Z (Z.of_nat n + 1)) eqn:E.
      * apply Qleb_true in E. apply reaches_iff_ceiling in E.
        assert (HK : K = (Z.of_nat n + 1)%Z)
          by (unfold K, firstFrameReaching in *; lia).
        unfold Interaction.end_.
        cbn [fst Interaction.duration Interaction.frameCount
             Interaction.isActive Interaction.endCalls Interaction.count_end
             Interaction.set_active Interaction.set_frameCount].
        rewrite He, Hd.
        replace (K <=? Z.of_nat n)%Z with false
          by (symmetry; apply Z.leb_gt; lia).
        replace (K <=? Z.of_nat (S n))%Z with true
          by (symmetry; apply Z.leb_le; lia).
        replace (Z.of_nat (S n) <? K)%Z with false
          by (symmetry; apply Z.ltb_ge; lia).
        repeat split; try assumption; lia.
      * apply Qleb_false in E.
        assert (HK : (Z.of_nat n + 1 < K)%Z).
        { apply Z.lt_nge. intro Hle.
          assert (Hq : Interaction.duration i <= inject_Z (Z.of_nat n + 1)).
          { apply reaches_iff_ceiling.
            unfold K, firstFrameReaching in Hle. lia. }
          lra. }
        cbn [fst Interaction.duration Interaction.frameCount
             Interaction.isActive Interaction.endCalls
             Interaction.set_frameCount].
        rewrite He, Hd.
        replace (K <=? Z.of_nat n)%Z with false
          by (symmetry; apply Z.leb_gt; lia).
        replace (K <=? Z.of_nat (S n))%Z with false
          by (symmetry; apply Z.leb_gt; lia).
        replace (Z.of_nat (S n) <? K)%Z with true
          by (symmetry; apply Z.ltb_lt; lia).
        repeat split; try assumption; lia.
    + rewrite Hact. cbn [negb fst]. rewrite He, Hd, Hc, Hact.
      replace (K <=? Z.of_nat n)%Z with true
        by (symmetry; apply Z.leb_le; lia).
      replace (K <=? Z.of_nat (S n))%Z with true
        by (symmetry; apply Z.leb_le; lia).
      replace (Z.of_nat (S n) <? K)%Z with false
        by (symmetry; apply Z.ltb_ge; lia).
      repeat split; try assumption; lia.
Qed.

(** C4: [start()] sets [frameCount] to 0 as it begins; over the frames that
    follow [frameCount] never decreases; [end()] is called once, in the
    frame numbered [K], the first whose count reaches [duration], and in no
    other: before that frame the interaction is active, from it on it is
    not. *)
Theorem frameCount_and_end (M : MathImpl) (i0 : Interaction.t) (s0 : Scene)
    (n : nat) :
  let i1 := fst (Interaction.start M i0 s0) in
  let after k := fst (frames M k i1 s0) in
  let K := firstFrameReaching (Interaction.duration i0) in
  Interaction.frameCount i1 = 0%Z
  /\ (Interaction.frameCount (after n) <= Interaction.frameCount (after (S n)))%Z
  /\ (Interaction.duration i0 <= inject_Z K
      /\ (1 <= K)%Z
      /\ forall k : Z, (1 <= k < K)%Z -> inject_Z k < Interaction.duration i0)
  /\ Interaction.frameCount (after n) = Z.min (Z.of_nat n) K
  /\ Interaction.endCalls (after n) =
       (Interaction.endCalls i0 + (if (K <=? Z.of_nat n)%Z then 1 else 0))%nat
  /\ Interaction.isActive (after n) = (Z.of_nat n <? K)%Z.
Proof.
  intros i1 after K.
  destruct (start_fields M i0 s0) as (F0 & A0 & D0 & E0).
  fold i1 in F0, A0, D0, E0.
  pose proof (frames_invariant M i1 s0 n F0 A0) as (_ & Hc & Ha & He).
  pose proof (frames_invariant M i1 s0 (S n) F0 A0) as (_ & Hc' & _ & _).
  cbv zeta in Hc, Ha, He, Hc'. rewrite D0 in *. rewrite E0 in He.
  fold K in Hc, Ha, He, Hc'. fold (after n) in Hc, Ha, He.
  fold (after (S n)) in Hc'.
  split; [exact F0|].
  split; [rewrite Hc, Hc'; lia|].
  split; [apply firstFrameReaching_first|].
  split; [exact Hc|]. split; [exact He|exact Ha].
Qed.

(** The interactions the manager builds last 450 frames. *)
Lemma constructor_first_end (c : InteractionClass) (i1 i2 : nat) :
  firstFrameReaching (Interaction.duration (Interaction.constructor c i1 i2))
  = 450%Z.
Proof. reflexivity. Qed.

(** ** InteractionManager: when an interaction starts *)

(** The cooldown test of [shouldStartInteraction], for hours on the clock. *)
Lemma cooldown_is_wrapped_elapsed (currentHour last : Z) :
  isHour currentHour -> isHour last ->
  let hoursPassed := (currentHour - last)%Z in
  (if (hoursPassed <? 4)%Z && (hoursPassed >=? 0)%Z then true
   else if (currentHour <? last)%Z && (24 - last + currentHour <? 4)%Z
        then true else false) = (elapsedWithWrap currentHour last <? 4)%Z.
Proof.
  unfold isHour, elapsedWithWrap. intros Hc Hl. cbv zeta.
  destruct (Z.ltb_spec (currentHour - last) 4);
    destruct (Z.geb_spec (currentHour - last) 0);
    destruct (Z.ltb_spec currentHour last);
    destruct (Z.ltb_spec (24 - last + currentHour) 4);
    cbn [andb]; symmetry;
    first [ apply Z.ltb_lt | apply Z.ltb_ge ];
    try lia.
  all: try (rewrite Z.mod_small by lia; lia).
  all: try (replace (currentHour - last)%Z
              with ((24 - last + currentHour) + (-1) * 24)%Z by lia;
            rewrite Z.mod_add by lia; rewrite Z.mod_small by lia; lia).
Qed.

(** C3 as stated fails on the code: with two avatars that are both still
    loading, no interaction active and none started before,
    [shouldStartInteraction] returns true although no avatar is ready. *)
Lemma shouldStartInteraction_ignores_readiness :
  InteractionManager.shouldStartInteraction manager0 sceneLoading 5 = true
  /\ readyCount sceneLoading = 0%nat
  /\ ~ (InteractionManager.shouldStartInteraction manager0 sceneLoading 5 = true
        <-> InteractionManager.hasActive manager0 = false
            /\ (InteractionManager.lastInteractionHour manager0 = (-1)%Z
                \/ (4 <= elapsedWithWrap 5
                           (InteractionManager.lastInteractionHour manager0))%Z)
            /\ (2 <= readyCount sceneLoading)%nat).
Proof.
  split; [reflexivity|]. split; [reflexivity|].
  intros [H _]. specialize (H eq_refl). destruct H as (_ & _ & H).
  vm_compute in H. lia.
Qed.

(** C3, as the code has it: for hours on the 24-hour clock,
    [shouldStartInteraction] returns true exactly when no interaction is
    active, no interaction has started yet or at least 4 hours have passed
    since the last start counted around midnight, and the array holds at
    least 2 avatars (ready or not).  From 22 it is false at 1 and true at
    2; with an active interaction it is false at any hour. *)
Theorem shouldStartInteraction_iff (m : InteractionManager.t) (s : Scene)
    (currentHour : Z) :
  isHour currentHour ->
  InteractionManager.lastInteractionHour m = (-1)%Z
    \/ isHour (InteractionManager.lastInteractionHour m) ->
  (InteractionManager.shouldStartInteraction m s currentHour = true
   <-> InteractionManager.hasActive m = false
       /\ (InteractionManager.lastInteractionHour m = (-1)%Z
           \/ (4 <= elapsedWithWrap currentHour
                      (InteractionManager.lastInteractionHour m))%Z)
       /\ (2 <= List.length (gvrms s))%nat)
  /\ (InteractionManager.hasActive m = true ->
      forall h, InteractionManager.shouldStartInteraction m s h = false)
  /\ (InteractionManager.hasActive m = false ->
      InteractionManager.lastInteractionHour m = 22%Z ->
      (2 <= List.length (gvrms s))%nat ->
      InteractionManager.shouldStartInteraction m s 1 = false
      /\ InteractionManager.shouldStartInteraction m s 2 = true).
Proof.
  intros Hc Hl. split; [|split].
  - unfold InteractionManager.shouldStartInteraction.
    destruct (InteractionManager.hasActive m).
    { split; [discriminate|]. intros (H & _). discriminate H. }
    cbv zeta.
    destruct (Z.eqb_spec (InteractionManager.lastInteractionHour m) (-1))
      as [E|E]; cbn [negb].
    + destruct (Nat.ltb_spec (List.length (gvrms s)) 2).
      * split; [discriminate|]. intros (_ & _ & H2). lia.
      * split; [|reflexivity]. intros _. repeat split; auto.
    + destruct Hl as [Hl|Hl]; [contradiction|].
      rewrite (cooldown_is_wrapped_elapsed _ _ Hc Hl).
      destruct (Z.ltb_spec
                  (elapsedWithWrap currentHour
                     (InteractionManager.lastInteractionHour m)) 4).
      * split; [discriminate|]. intros (_ & [H1|H1] & _); [contradiction|lia].
      * destruct (Nat.ltb_spec (List.length (gvrms s)) 2).
        -- split; [discriminate|]. intros (_ & _ & H2). lia.
        -- split; [|reflexivity]. intros _. repeat split; auto.
  - intros Ha h. unfold InteractionManager.shouldStartInteraction.
    rewrite Ha. reflexivity.
  - intros Ha H22 Hn. unfold InteractionManager.shouldStartInteraction.
    rewrite Ha, H22.
    destruct (Nat.ltb_spec (List.length (gvrms s)) 2); [lia|].
    split; reflexivity.
Qed.

(** C3, amended, on a manager that last started an interaction at 22, at
    hour 2. *)
Lemma shouldStartInteraction_iff_witness :
  isHour 2
  /\ isHour 22
  /\ InteractionManager.shouldStartInteraction
       (InteractionManager.mk None 22 2.5) sceneReady 2 = true
  /\ (4 <= elapsedWithWrap 2 22)%Z.
Proof.
  assert (H2 : isHour 2) by (unfold isHour; lia).
  assert (H22 : isHour 22) by (unfold isHour; lia).
  split; [exact H2|]. split; [exact H22|].
  destruct (shouldStartInteraction_iff (InteractionManager.mk None 22 2.5)
              sceneReady 2 H2 (or_intror H22)) as ((To & _) & _ & _).
  specialize (To eq_refl). destruct To as (_ & [E|E] & _).
  - discriminate E.
  - split; [reflexivity|exact E].
Defined.

(** C7 fails on the code.  With two avatars in the array and none ready,
    [startNewInteraction(5)] starts nothing but has already assigned
    [lastInteractionHour]: the manager's state changes from -1 to 5, and
    the attempt is not made again at hours 5 to 8 even once both avatars
    are ready; it is made again at 9. *)
Theorem startNewInteraction_consumes_cooldown :
  readyCount sceneLoading = 0%nat
  /\ (let m1 :=
        InteractionManager.startNewInteraction refMath [0.1; 0.9] 0.5 5
          manager0 sceneLoading in
      InteractionManager.activeInteraction m1 = None
      /\ InteractionManager.lastInteractionHour manager0 = (-1)%Z
      /\ InteractionManager.lastInteractionHour m1 = 5%Z
      /\ InteractionManager.shouldStartInteraction m1 sceneLoading 5 = false
      /\ InteractionManager.shouldStartInteraction m1 sceneReady 5 = false
      /\ InteractionManager.shouldStartInteraction m1 sceneReady 6 = false
      /\ InteractionManager.shouldStartInteraction m1 sceneReady 7 = false
      /\ InteractionManager.shouldStartInteraction m1 sceneReady 8 = false
      /\ InteractionManager.shouldStartInteraction m1 sceneReady 9 = true).
Proof.
  split; [reflexivity|]. cbv zeta. vm_compute. repeat split.
Qed.

(** With fewer than two avatars in the array the manager is left as it
    was. *)
Lemma startNewInteraction_too_few (M : MathImpl) (draws : list Q) (u : Q)
    (h : Z) (m : InteractionManager.t) (s : Scene) :
  (List.length (gvrms s) < 2)%nat ->
  InteractionManager.startNewInteraction M draws u h m s = m.
Proof.
  intro H. unfold InteractionManager.startNewInteraction.
  replace (InteractionManager.shouldStartInteraction m s h) with false;
    [reflexivity|].
  unfold InteractionManager.shouldStartInteraction.
  destruct (InteractionManager.hasActive m); [reflexivity|].
  cbv zeta.
  match goal with |- false = (if ?b then _ else _) => destruct b end;
    [reflexivity|].
  apply Nat.ltb_lt in H. rewrite H. reflexivity.
Qed.

(** ** InteractionManager: weighted selection *)

Lemma remainderAfter_cons (r : Q) (x : InteractionClass * Q)
    (l : list (InteractionClass * Q)) (k : nat) :
  remainderAfter r (x :: l) (S k)
  = remainderAfter (Double.round (r - snd x)) l k.
Proof. reflexivity. Qed.

Lemma remainderAfter_zero (r : Q) (l : list (InteractionClass * Q)) :
  remainderAfter r l 0 = r.
Proof. destruct l; reflexivity. Qed.

(** The loop returns at the first item after which the remainder is not
    positive. *)
Lemma walkWeights_Some (ws : list (InteractionClass * Q)) :
  forall (r : Q) (c : InteractionClass),
  InteractionManager.walkWeights r ws = Some c
  <-> exists k w,
        nth_error ws k = Some (c, w)
        /\ remainderAfter r ws (S k) <= 0
        /\ forall j, (j < k)%nat -> 0 < remainderAfter r ws (S j).
Proof.
  induction ws as [|x l IH]; intros r c; cbn [InteractionManager.walkWeights].
  - split; [discriminate|]. intros (k & w & H & _). destruct k; discriminate H.
  - cbv zeta. destruct (Double.round (r - snd x) <=? 0) eqn:E.
    + apply Qleb_true in E. split.
      * intro H. injection H as <-. exists O, (snd x).
        split; [destruct x; reflexivity|].
        split; [rewrite remainderAfter_cons, remainderAfter_zero; exact E|].
        intros j Hj. lia.
      * intros (k & w & Hn & Hr & Hj). destruct k as [|k].
        -- cbn in Hn. injection Hn as ->. reflexivity.
        -- specialize (Hj O (Nat.lt_0_succ k)).
           rewrite remainderAfter_cons, remainderAfter_zero in Hj. lra.
    + apply Qleb_false in E. rewrite IH. split.
      * intros (k & w & Hn & Hr & Hj). exists (S k), w.
        split; [exact Hn|].
        split; [rewrite remainderAfter_cons; exact Hr|].
        intros j Hlt. rewrite remainderAfter_cons. destruct j as [|j].
        -- rewrite remainderAfter_zero. exact E.
        -- apply Hj. lia.
      * intros (k & w & Hn & Hr & Hj). destruct k as [|k].
        -- rewrite remainderAfter_cons, remainderAfter_zero in Hr. lra.
        -- exists k, w. split; [exact Hn|].
           split; [rewrite <- remainderAfter_cons; exact Hr|].
           intros j Hlt. rewrite <- remainderAfter_cons. apply Hj. lia.
Qed.








Lemma weightsOf_classes (t : Q) (d h1 h2 : Distance) (k : nat)
    (c : InteractionClass) (w : Q) :
  nth_error (InteractionManager.weightsOf t d h1 h2) k = Some (c, w) ->
  In c InteractionManager.interactionTypes.
Proof.
  intro H. apply nth_error_In in H.
  unfold InteractionManager.weightsOf in H. apply in_map_iff in H.
  destruct H as (c' & E & Hin). injection E as <- _. exact Hin.
Qed.


Example walkWeights_samples :
  let ws := [(GreetingInteraction, 1); (DancePartyInteraction, 3);
             (ChickenDanceInteraction, Double.round 0.3)] in
  InteractionManager.walkWeights 0 ws = Some GreetingInteraction
  /\ InteractionManager.walkWeights 0.5 ws = Some GreetingInteraction
  /\ InteractionManager.walkWeights 1.5 ws = Some DancePartyInteraction
  /\ InteractionManager.walkWeights 4.2 ws = Some ChickenDanceInteraction
  /\ InteractionManager.walkWeights 4.4 ws = None
  /\ InteractionManager.totalWeight ws == Double.round 4.3.
Proof. vm_compute. repeat split. Qed.



(** ** Interaction: meeting targets *)

(** Where the square root is exact and the avatars stand at the same
    height, the two targets are [interactionDistance] apart. *)
Lemma meetingTargets_distance (M : MathImpl) (d : Q) (p1 p2 : Vector3) :
  let v := subVectors p2 p1 in
  let l := lengthV M v in
  l * l == vx v * vx v + vy v * vy v + vz v * vz v ->
  ~ l == 0 ->
  vy p1 == vy p2 ->
  distanceXZ2 (fst (Interaction.meetingTargets M d p1 p2))
              (snd (Interaction.meetingTargets M d p1 p2)) == d * d.
Proof.
  intros v l Hl Hn Hy.
  assert (E : Interaction.meetingTargets M d p1 p2 = midpointTargets M d p1 p2).
  { unfold Interaction.meetingTargets, midpointTargets. cbv zeta.
    destruct (_ <? _); reflexivity. }
  rewrite E. unfold midpointTargets, distanceXZ2, normalize. cbv zeta.
  fold v. fold l.
  destruct (Qeq_bool l 0) eqn:Q0.
  - apply Qeq_bool_iff in Q0. contradiction.
  - cbn [fst snd vx vz subV addV subVectors multiplyScalar].
    assert (Hv : vy v == 0) by (unfold v; cbn [vy subVectors]; lra).
    assert (Hl2 : l * l == vx v * vx v + vz v * vz v).
    { rewrite Hl, Hv. lra. }
    clear Hl.
    transitivity ((vx v * vx v + vz v * vz v) * ((1 / l) * (1 / l)) * (d * d));
      [field; exact Hn|].
    rewrite <- Hl2. field. exact Hn.
Qed.

(** C6 fails on the code.  The branch for avatars closer than twice the
    interaction distance computes the same targets as the other branch
    ([walkDistance] is not used).  Two avatars 0.8 apart get their own
    positions as targets and stay put; two avatars 0.4 apart get targets
    0.8 apart, each on the far side of its avatar. *)
Theorem meetingTargets_close_branch_is_midpoint_branch :
  (forall M d p1 p2,
     Interaction.meetingTargets M d p1 p2 = midpointTargets M d p1 p2)
  /\ (let p1 := vec3 0 0 0 in
      let p2 := vec3 0.8 0 0 in
      distanceTo refMath p1 p2 < 0.8 * 2
      /\ Veq (fst (Interaction.meetingTargets refMath 0.8 p1 p2)) p1
      /\ Veq (snd (Interaction.meetingTargets refMath 0.8 p1 p2)) p2)
  /\ (let p1 := vec3 0 0 0 in
      let p2 := vec3 0.4 0 0 in
      distanceTo refMath p1 p2 < 0.8 * 2
      /\ vx (fst (Interaction.meetingTargets refMath 0.8 p1 p2)) == - 0.2
      /\ vx (snd (Interaction.meetingTargets refMath 0.8 p1 p2)) == 0.6).
Proof.
  split.
  - intros M d p1 p2.
    unfold Interaction.meetingTargets, midpointTargets. cbv zeta.
    destruct (_ <? _); reflexivity.
  - split; cbv zeta; vm_compute; repeat split; reflexivity.
Qed.

(** * Further properties *)

(** ** Walker: what the draws keep *)

Lemma setNewTarget_in_range (rx rz : Q) (w : Walker.t) :
  isDraw rx -> isDraw rz -> Walker.boundary w = 11.25 ->
  targetInRange (Walker.setNewTarget rx rz w).
Proof.
  intros [X0 X1] [Z0 Z1] Hb. unfold targetInRange, Walker.setNewTarget.
  cbn [Walker.targetX Walker.targetZ Walker.set_target]. rewrite Hb.
  split; apply Qabs_Qle_condition; split; lra.
Qed.

Lemma toggle_wellFormed (r : Walker.Rand) (w : Walker.t) :
  isDraw (Walker.rDuration r) -> wellFormed w -> wellFormed (Walker.toggle r w).
Proof.
  intros [D0 D1] (Hb & Ht & (Hw1 & Hw2) & (Hs1 & Hs2)).
  unfold wellFormed, targetInRange, durationsInRange in *.
  unfold Walker.toggle, Walker.switchToIdle, Walker.switchToWalking.
  split_ifs;
    cbn [Walker.boundary Walker.targetX Walker.targetZ Walker.walkDuration
         Walker.stopDuration Walker.set_walkTimer Walker.set_shouldWalk
         Walker.set_stopDuration Walker.set_walkDuration Walker.set_special
         Walker.set_isWalking Walker.set_currentAnimation];
    (split; [exact Hb|]); (split; [exact Ht|]); repeat split; lra.
Qed.

Lemma navigate_wellFormed (M : MathImpl) (r : Walker.Rand) (w : Walker.t)
    (c : Gvrm) :
  isDraw (Walker.rArriveX r) -> isDraw (Walker.rArriveZ r) ->
  wellFormed w -> wellFormed (Walker.navigate M r w c).
Proof.
  intros Dx Dz (Hb & Ht & Hd). unfold Walker.navigate.
  destruct (Walker.shouldWalk w); [|repeat split; assumption || apply Ht || apply Hd].
  cbv zeta. destruct (_ <? _).
  - split; [exact Hb|]. split; [|exact Hd].
    apply setNewTarget_in_range; assumption.
  - split; [exact Hb|]. split; [exact Ht|exact Hd].
Qed.

Lemma walk_wellFormed (M : MathImpl) (r : Walker.Rand) (b : bool)
    (w : Walker.t) (c : Gvrm) :
  isDraw (Walker.rBoundX r) -> isDraw (Walker.rBoundZ r) ->
  wellFormed w -> wellFormed (fst (Walker.walk M r b w c)).
Proof.
  intros Dx Dz (Hb & Ht & Hd). unfold Walker.walk.
  destruct (_ && _ && _); [|split; [exact Hb|split; assumption]].
  cbv zeta. destruct (_ && _); [split; [exact Hb|split; assumption]|].
  destruct (negb _); cbn [fst]; [|split; [exact Hb|split; assumption]].
  split; [exact Hb|]. split; [|exact Hd].
  apply (setNewTarget_in_range _ _ w Dx Dz Hb).
Qed.

Lemma update_wellFormed (M : MathImpl) (r : Walker.Rand) (w : Walker.t)
    (g : option Gvrm) :
  validRand r -> wellFormed w -> wellFormed (fst (Walker.update M r w g)).
Proof.
  intros (D & Ax & Az & _ & _ & Bx & Bz) Hw.
  destruct g as [c|]; [|exact Hw].
  destruct (active_dec w c) as [Ha|Hn].
  - rewrite (update_active M r w c Ha). cbv zeta. cbn [fst].
    apply walk_wellFormed; [exact Bx|exact Bz|].
    pose proof (navigate_wellFormed M r _ c Ax Az (toggle_wellFormed r w D Hw))
      as (Hb & Ht & Hd).
    split; [exact Hb|]. split; [exact Ht|exact Hd].
  - rewrite update_skipped; [exact Hw|].
    intros c' E. injection E as <-. exact Hn.
Qed.

Lemma constructor_wellFormed (r : Walker.CtorRand) (idx : nat) :
  validCtorRand r -> wellFormed (Walker.constructor r idx).
Proof.
  intros ([W0 W1] & [S0 S1] & _ & [X0 X1] & [Z0 Z1] & _).
  split; [reflexivity|]. split.
  - unfold targetInRange, Walker.constructor. cbv zeta.
    cbn [Walker.targetX Walker.targetZ Walker.set_currentRotation
         Walker.set_targetRotation Walker.setNewTarget Walker.set_target
         Walker.boundary].
    split; apply Qabs_Qle_condition; split; lra.
  - unfold durationsInRange, Walker.constructor. cbv zeta.
    cbn [Walker.walkDuration Walker.stopDuration Walker.set_currentRotation
         Walker.set_targetRotation Walker.setNewTarget Walker.set_target].
    repeat split; lra.
Qed.

Lemma wellDriven_wellFormed (w : Walker.t) : wellDriven w -> wellFormed w.
Proof.
  induction 1 as [r idx Hr|M r w g Hr Hw IH|g wa ia w Hw IH|name w Hw IH
                  |w Hw IH|wa ia u w [U0 U1] Hw IH|w Hw IH|w Hw IH|b w Hw IH].
  - apply constructor_wellFormed. exact Hr.
  - apply update_wellFormed; assumption.
  - unfold Walker.initAnimations. destruct g as [c|]; [|exact IH].
    split_ifs; exact IH.
  - exact IH.
  - unfold Walker.switchToIdle. split_ifs; exact IH.
  - destruct IH as (Hb & Ht & (Hw1 & Hw2) & _).
    split; [exact Hb|]. split; [exact Ht|].
    unfold durationsInRange, Walker.idleReloaded.
    cbn [Walker.walkDuration Walker.stopDuration Walker.set_stopDuration
         Walker.set_actions Walker.set_special Walker.set_isWalking
         Walker.set_currentAnimation].
    repeat split; lra.
  - exact IH.
  - exact IH.
  - exact IH.
Qed.

(** X1: whatever a walker goes through, its target stays within 85% of
    the boundary on both axes (|targetX|, |targetZ| <= 9.5625), strictly
    inside the region the boundary check keeps the avatar in. *)
Theorem target_stays_in_safe_range (w : Walker.t) :
  wellDriven w ->
  Qabs (Walker.targetX w) <= 9.5625 /\ Qabs (Walker.targetZ w) <= 9.5625
  /\ 9.5625 < Walker.boundary w - Walker.safetyMargin.
Proof.
  intro H. destruct (wellDriven_wellFormed w H) as (Hb & [Tx Tz] & _).
  rewrite Hb. unfold Walker.safetyMargin. repeat split; lra.
Qed.

Lemma rounded_duration (base span : Z) (x : Q) :
  (0 <= base)%Z -> (0 <= span)%Z -> (base + span < 2 ^ 53)%Z ->
  0 <= x -> x <= inject_Z span ->
  inject_Z base <= Double.round (inject_Z base + Double.round x)
  /\ Double.round (inject_Z base + Double.round x) <= inject_Z (base + span).
Proof.
  intros Hb Hs Hlt H0 H1.
  assert (R0 : 0 <= Double.round x) by (apply round_nonneg; exact H0).
  assert (R1 : Double.round x <= inject_Z span).
  { rewrite <- (round_int span) by lia. apply round_mono. exact H1. }
  split.
  - rewrite <- (round_int base) at 1 by lia. apply round_mono. lra.
  - rewrite <- (round_int (base + span)) by lia. apply round_mono.
    rewrite inject_Z_plus. lra.
Qed.

(** X2: whatever a walker goes through, its walk duration lies in
    [120, 300] frames and its stop duration in [60, 180] frames.  The
    same bounds hold for the durations as binary64 computes them from a
    draw, where the upper bounds are attained: the largest draw,
    1 - 2^-53, gives 300 and 180. *)
Theorem durations_stay_in_range (w : Walker.t) :
  wellDriven w ->
  (120 <= Walker.walkDuration w /\ Walker.walkDuration w <= 300)
  /\ (60 <= Walker.stopDuration w /\ Walker.stopDuration w <= 180)
  /\ (forall u, isDraw u ->
        (120 <= walkDuration64 u /\ walkDuration64 u <= 300)
        /\ (60 <= stopDuration64 u /\ stopDuration64 u <= 180))
  /\ walkDuration64 (1 - Double.eps) == 300
  /\ stopDuration64 (1 - Double.eps) == 180.
Proof.
  intro H.
  destruct (proj2 (proj2 (wellDriven_wellFormed w H))) as [[A B] [C D]].
  split; [split; lra|]. split; [split; lra|]. split.
  - intros u [U0 U1]. unfold walkDuration64, stopDuration64. split.
    + apply (rounded_duration 120 180 (u * 180)); try lia;
        change (inject_Z 180) with 180; lra.
    + apply (rounded_duration 60 120 (u * 120)); try lia;
        change (inject_Z 120) with 120; lra.
  - split; vm_compute; reflexivity.
Qed.

(** X1 and X2, on a walker after its first frame. *)
Lemma sample_wellDriven :
  wellDriven (fst (Walker.update refMath draws0 walker0 (Some avatar0))).
Proof.
  apply wd_update.
  - unfold validRand, isDraw, draws0. cbn. repeat split; lra.
  - apply wd_initAnimations, wd_constructor.
    unfold validCtorRand, isDraw, ctorDraws0. cbn. repeat split; lra.
Defined.

Lemma target_stays_in_safe_range_witness :
  wellDriven (fst (Walker.update refMath draws0 walker0 (Some avatar0)))
  /\ Qabs (Walker.targetX
             (fst (Walker.update refMath draws0 walker0 (Some avatar0))))
     <= 9.5625.
Proof.
  split; [exact sample_wellDriven|].
  exact (proj1 (target_stays_in_safe_range _ sample_wellDriven)).
Defined.

Lemma durations_stay_in_range_witness :
  wellDriven (fst (Walker.update refMath draws0 walker0 (Some avatar0)))
  /\ 60 <= Walker.stopDuration
             (fst (Walker.update refMath draws0 walker0 (Some avatar0))).
Proof.
  split; [exact sample_wellDriven|].
  exact (proj1 (proj1 (proj2 (durations_stay_in_range _ sample_wellDriven)))).
Defined.

(** ** Walker: turning, standing still, stopping *)

Lemma idle_run (M : MathImpl) (rs : list Walker.Rand) :
  forall (w : Walker.t) (c : Gvrm),
  active w c -> Walker.shouldWalk w = false ->
  Walker.walkTimer w + inject_Z (Z.of_nat (List.length rs)) < Walker.stopDuration w ->
  exists w' c',
    updates M rs w (Some c) = (w', Some c')
    /\ Walker.shouldWalk w' = false
    /\ Walker.walkTimer w'
       == Walker.walkTimer w + inject_Z (Z.of_nat (List.length rs))
    /\ Walker.stopDuration w' = Walker.stopDuration w
    /\ Walker.targetRotation w' = Walker.targetRotation w
    /\ position c' = position c
    /\ (rs <> [] -> yaw c' = Walker.currentRotation w').
Proof.
  induction rs as [|r rs IH]; intros w c Ha Hs Ht.
  - exists w, c. cbn [updates List.length Z.of_nat].
    change (inject_Z 0) with 0.
    split; [reflexivity|]. split; [exact Hs|]. split; [lra|].
    split; [reflexivity|]. split; [reflexivity|].
    split; [reflexivity|]. intro H. contradiction.
  - cbn [List.length] in Ht. rewrite Nat2Z.inj_succ in Ht.
    unfold Z.succ in Ht. rewrite inject_Z_plus in Ht.
    change (inject_Z 1) with 1 in Ht.
    assert (P : 0 <= inject_Z (Z.of_nat (List.length rs))).
    { change 0 with (inject_Z 0). rewrite <- Zle_Qle. lia. }
    cbn [updates]. rewrite (idle_frame M r w c Ha Hs) by lra.
    set (w1 := Walker.rotate (Walker.set_walkTimer (Walker.walkTimer w + 1) w)).
    set (c1 := setYaw (Walker.currentRotation w1) c).
    destruct Ha as (A1 & A2 & A3).
    destruct (IH w1 c1) as (w' & c' & E & Hs' & Ht' & Hd' & Htr & Hp & Hy).
    + repeat split; assumption.
    + exact Hs.
    + unfold w1.
      cbn [Walker.walkTimer Walker.rotate Walker.set_currentRotation
           Walker.set_walkTimer Walker.stopDuration]. lra.
    + exists w', c'. split; [exact E|]. split; [exact Hs'|].
      unfold w1 in Ht', Hd'.
      cbn [Walker.walkTimer Walker.rotate Walker.set_currentRotation
           Walker.set_walkTimer Walker.stopDuration] in Ht', Hd'.
      split.
      { rewrite Ht'. cbn [List.length]. rewrite Nat2Z.inj_succ.
        unfold Z.succ. rewrite inject_Z_plus. change (inject_Z 1) with 1.
        lra. }
      split; [exact Hd'|].
      split; [rewrite Htr; reflexivity|].
      split; [rewrite Hp; reflexivity|].
      intros _. destruct rs as [|r' rs'].
      * cbn [updates] in E. injection E as <- <-. reflexivity.
      * apply Hy. discriminate.
Qed.

(** X3: a stopped walker stands where it is and only turns.  A walker
    that has stood for k frames, with n more frames inside its stop
    period (at most 180 frames), is still stopped after them, its timer
    is at k + n, its target heading and the avatar's position are
    unchanged, and the avatar faces the walker's heading. *)
Theorem stopped_walker_stands_in_place (M : MathImpl)
    (rs : list Walker.Rand) (w : Walker.t) (c : Gvrm) (k : nat) :
  active w c -> Walker.shouldWalk w = false ->
  Walker.walkTimer w == inject_Z (Z.of_nat k) ->
  inject_Z (Z.of_nat (k + List.length rs)) < Walker.stopDuration w ->
  Walker.stopDuration w <= 180 ->
  exists w' c',
    updates M rs w (Some c) = (w', Some c')
    /\ Walker.shouldWalk w' = false
    /\ Walker.walkTimer w' == inject_Z (Z.of_nat (k + List.length rs))
    /\ Walker.walkTimer w' < 180
    /\ Walker.targetRotation w' = Walker.targetRotation w
    /\ position c' = position c
    /\ (rs <> [] -> yaw c' = Walker.currentRotation w').
Proof.
  intros Ha Hs Hk Ht Hd.
  rewrite Nat2Z.inj_add, inject_Z_plus in Ht |- *.
  destruct (idle_run M rs w c Ha Hs) as (w' & c' & E & Hs' & Ht' & _ & R).
  { lra. }
  exists w', c'. split; [exact E|]. split; [exact Hs'|].
  split; [lra|]. split; [lra|]. exact R.
Qed.

Lemma stopped_walker_stands_in_place_witness :
  active walker0 avatar0
  /\ Walker.walkTimer walker0 == inject_Z (Z.of_nat 0)
  /\ exists w' c',
       updates refMath (repeat draws0 20) walker0 (Some avatar0) = (w', Some c')
       /\ Walker.shouldWalk w' = false
       /\ position c' = position avatar0.
Proof.
  assert (A : active walker0 avatar0) by (repeat split; reflexivity).
  assert (K : Walker.walkTimer walker0 == inject_Z (Z.of_nat 0))
    by reflexivity.
  split; [exact A|]. split; [exact K|].
  destruct (stopped_walker_stands_in_place refMath (repeat draws0 20)
              walker0 avatar0 0 A eq_refl K)
    as (w' & c' & E & Hs & _ & _ & _ & Hp & _).
  - rewrite repeat_length. vm_compute. reflexivity.
  - vm_compute. discriminate.
  - exists w', c'. split; [exact E|]. split; [exact Hs|exact Hp].
Defined.

(** X4: while the avatar is missing or not ready, the animations are not
    loaded, or a special animation plays, any number of [update()] calls
    leaves the walker and the avatar exactly as they are. *)
Theorem frozen_walker_is_untouched (M : MathImpl) (rs : list Walker.Rand)
    (w : Walker.t) (g : option Gvrm) :
  frozen w g -> updates M rs w g = (w, g).
Proof.
  intro Hf.
  assert (Hn : forall c, g = Some c -> ~ active w c).
  { intros c E (A1 & A2 & A3).
    destruct Hf as [H|[H|[H|(c' & H1 & H2)]]]; try congruence. }
  induction rs as [|r rs IH]; [reflexivity|].
  cbn [updates]. rewrite (update_skipped M r w g Hn). exact IH.
Qed.

Lemma frozen_walker_is_untouched_witness :
  frozen (Walker.specialStarted "Flying" walker0) (Some avatar0)
  /\ updates refMath (repeat draws0 100)
       (Walker.specialStarted "Flying" walker0) (Some avatar0)
     = (Walker.specialStarted "Flying" walker0, Some avatar0).
Proof.
  assert (F : frozen (Walker.specialStarted "Flying" walker0) (Some avatar0))
    by (left; reflexivity).
  split; [exact F|].
  exact (frozen_walker_is_untouched refMath _ _ _ F).
Defined.

Lemma toggle_flags_after (M : MathImpl) (r : Walker.Rand) (w : Walker.t)
    (c : Gvrm) :
  let w2 := Walker.navigate M r (Walker.toggle r w) c in
  Walker.shouldWalk (turned M r w c) = Walker.shouldWalk w2
  /\ Walker.isWalking (turned M r w c) = Walker.isWalking w2
  /\ forall b c1,
       Walker.shouldWalk (fst (Walker.walk M r b (turned M r w c) c1))
       = Walker.shouldWalk w2
       /\ Walker.isWalking (fst (Walker.walk M r b (turned M r w c) c1))
          = Walker.isWalking w2.
Proof.
  cbv zeta. split; [reflexivity|]. split; [reflexivity|].
  intros b c1. unfold Walker.walk. split_ifs; split; reflexivity.
Qed.

(** X5: [update()] moves the avatar only along the ground and only when,
    after the walk/stop toggle, the walker should walk, is walking, and its
    heading error is below 0.1 rad.  Otherwise the position is the same
    after the call; in every case the height is the same and the avatar
    faces the walker's heading. *)
Theorem avatar_moves_only_when_walking_and_aligned (M : MathImpl)
    (r : Walker.Rand) (w : Walker.t) (c : Gvrm) :
  active w c ->
  exists w' c',
    Walker.update M r w (Some c) = (w', Some c')
    /\ posY c' = posY c
    /\ yaw c' = Walker.currentRotation w'
    /\ (Walker.shouldWalk w' = false
        \/ Walker.isWalking w' = false
        \/ Walker.rotationThreshold
           <= Qabs (Walker.rotDiffOf
                      (Walker.navigate M r (Walker.toggle r w) c)) ->
        posX c' = posX c /\ posZ c' = posZ c).
Proof.
  intro Ha.
  destruct (toggle_flags_after M r w c) as (F1 & F2 & F3). cbv zeta in *.
  destruct (stepsForward M r w c) eqn:Hs.
  - pose proof (update_stepping M r w c Ha Hs) as E. cbv zeta in E.
    unfold stepsForward in Hs. cbv zeta in Hs.
    apply andb_true_iff in Hs. destruct Hs as [Hs Hr].
    apply andb_true_iff in Hs. destruct Hs as [Hs1 Hs2].
    apply Qltb_true in Hr. unfold Math_abs in Hr.
    assert (Hw : forall w', Walker.shouldWalk w' = Walker.shouldWalk (turned M r w c) ->
                 Walker.isWalking w' = Walker.isWalking (turned M r w c) ->
                 Walker.shouldWalk w' = false \/ Walker.isWalking w' = false
                 \/ Walker.rotationThreshold
                    <= Qabs (Walker.rotDiffOf
                               (Walker.navigate M r (Walker.toggle r w) c)) ->
                 False).
    { intros w' E1 E2 [H|[H|H]].
      - rewrite E1, F1, Hs1 in H. discriminate.
      - rewrite E2, F2, Hs2 in H. discriminate.
      - lra. }
    destruct (wouldExit M r w c).
    + eexists _, _. split; [exact E|]. split; [reflexivity|].
      split; [destruct (negb _); reflexivity|].
      intro H. exfalso. revert H. apply Hw; destruct (negb _); reflexivity.
    + eexists _, _. split; [exact E|]. split; [reflexivity|].
      split; [reflexivity|].
      intro H. exfalso. revert H. apply Hw; reflexivity.
  - eexists _, _. split; [exact (update_not_stepping M r w c Ha Hs)|].
    repeat split; reflexivity.
Qed.

Lemma avatar_moves_only_when_walking_and_aligned_witness :
  active walker0 avatar0
  /\ exists w' c',
       Walker.update refMath draws0 walker0 (Some avatar0) = (w', Some c')
       /\ posX c' = posX avatar0 /\ posZ c' = posZ avatar0.
Proof.
  assert (A : active walker0 avatar0) by (repeat split; reflexivity).
  split; [exact A|].
  destruct (avatar_moves_only_when_walking_and_aligned refMath draws0 walker0
              avatar0 A) as (w' & c' & E & _ & _ & Hstay).
  exists w', c'. split; [exact E|]. apply Hstay. left.
  change w' with (fst (w', Some c')). rewrite <- E. vm_compute. reflexivity.
Defined.

(** X6: a walking walker whose walk period is over (walkTimer + 1 reaches
    walkDuration) stops in that frame: [shouldWalk] and [isWalking] become
    false, the timer restarts at 0, a stop duration 60 + draw * 120 is
    chosen, the animation is idle, and the avatar is not moved. *)
Theorem walking_walker_stops (M : MathImpl) (r : Walker.Rand) (w : Walker.t)
    (c : Gvrm) :
  active w c ->
  Walker.shouldWalk w = true ->
  Walker.walkDuration w <= Walker.walkTimer w + 1 ->
  Walker.walkingAction w = true -> Walker.idleAction w = true ->
  Walker.currentAnimation w = Walker.walking ->
  exists w' c',
    Walker.update M r w (Some c) = (w', Some c')
    /\ Walker.shouldWalk w' = false
    /\ Walker.isWalking w' = false
    /\ Walker.walkTimer w' = 0
    /\ Walker.stopDuration w' = 60 + Walker.rDuration r * 120
    /\ Walker.currentAnimation w' = Walker.idle
    /\ position c' = position c.
Proof.
  intros Ha Hs Ht Hwa Hia Hca.
  assert (T : Walker.toggle r w
              = Walker.set_special None false
                  (Walker.set_isWalking false
                     (Walker.set_currentAnimation Walker.idle
                        (Walker.set_stopDuration (60 + Walker.rDuration r * 120)
                           (Walker.set_walkTimer 0
                              (Walker.set_shouldWalk false
                                 (Walker.set_walkTimer (Walker.walkTimer w + 1)
                                    w))))))).
  { unfold Walker.toggle.
    cbn [Walker.shouldWalk Walker.set_walkTimer Walker.walkTimer
         Walker.walkDuration].
    rewrite Hs. apply Qleb_true in Ht. rewrite Ht.
    unfold Walker.switchToIdle.
    cbn [Walker.idleAction Walker.walkingAction Walker.currentAnimation
         Walker.isPlayingSpecial Walker.set_stopDuration Walker.set_walkTimer
         Walker.set_shouldWalk].
    rewrite Hia, Hwa, Hca. destruct Ha as (_ & _ & Hsp). rewrite Hsp.
    reflexivity. }
  assert (N : Walker.navigate M r (Walker.toggle r w) c = Walker.toggle r w).
  { unfold Walker.navigate. rewrite T.
    cbn [Walker.shouldWalk Walker.set_special Walker.set_isWalking
         Walker.set_currentAnimation Walker.set_stopDuration
         Walker.set_walkTimer Walker.set_shouldWalk].
    reflexivity. }
  assert (S : stepsForward M r w c = false).
  { unfold stepsForward. cbv zeta. rewrite N, T.
    cbn [Walker.shouldWalk Walker.set_special Walker.set_isWalking
         Walker.set_currentAnimation Walker.set_stopDuration
         Walker.set_walkTimer Walker.set_shouldWalk andb].
    reflexivity. }
  rewrite (update_not_stepping M r w c Ha S).
  unfold turned. rewrite N, T. clear T N S.
  eexists _, _. split; [reflexivity|].
  cbn [Walker.shouldWalk Walker.isWalking Walker.walkTimer Walker.stopDuration
       Walker.currentAnimation Walker.rotate Walker.set_currentRotation
       Walker.set_special Walker.set_isWalking Walker.set_currentAnimation
       Walker.set_stopDuration Walker.set_walkTimer Walker.set_shouldWalk
       position posX posY posZ setYaw].
  repeat split; reflexivity.
Qed.

Lemma walking_walker_stops_witness :
  let w := Walker.set_walkTimer 209
             (Walker.switchToWalking (Walker.set_shouldWalk true walker0)) in
  active w avatar0
  /\ Walker.walkDuration w <= Walker.walkTimer w + 1
  /\ exists w' c',
       Walker.update refMath draws0 w (Some avatar0) = (w', Some c')
       /\ Walker.shouldWalk w' = false /\ Walker.isWalking w' = false.
Proof.
  cbv zeta.
  set (w := Walker.set_walkTimer 209
              (Walker.switchToWalking (Walker.set_shouldWalk true walker0))).
  assert (A : active w avatar0) by (repeat split; reflexivity).
  assert (T : Walker.walkDuration w <= Walker.walkTimer w + 1).
  { vm_compute. discriminate. }
  split; [exact A|]. split; [exact T|].
  destruct (walking_walker_stops refMath draws0 w avatar0 A eq_refl T eq_refl
              eq_refl eq_refl) as (w' & c' & E & H1 & H2 & _).
  exists w', c'. repeat split; assumption.
Defined.

(** ** Interaction: the walkers of the participants *)

Lemma nth_error_updateNth_same {A : Type} (f : A -> A) (l : list A) (i : nat) :
  nth_error (updateNth i f l) i = option_map f (nth_error l i).
Proof.
  revert i. induction l as [|x l IH]; intros [|i]; cbn; auto.
Qed.

Lemma nth_error_updateNth_other {A : Type} (f : A -> A) (l : list A)
    (i j : nat) :
  i <> j -> nth_error (updateNth i f l) j = nth_error l j.
Proof.
  revert i j. induction l as [|x l IH]; intros [|i] [|j] H; cbn; auto;
    try contradiction.
Qed.

Lemma updateNth_length {A : Type} (f : A -> A) (l : list A) (i : nat) :
  List.length (updateNth i f l) = List.length l.
Proof.
  revert i. induction l as [|x l IH]; intros [|i]; cbn; auto.
Qed.











(** ** InteractionManager: the pair, the start, the running frames *)

Lemma randomIndex_lt (u : Q) (n : nat) :
  isDraw u -> (0 < n)%nat -> (InteractionManager.randomIndex u n < n)%nat.
Proof.
  intros [U0 U1] Hn. unfold InteractionManager.randomIndex, Math_floor.
  assert (Hq : 0 < inject_Z (Z.of_nat n)).
  { change 0 with (inject_Z 0). rewrite <- Zlt_Qlt. lia. }
  assert (Hlt : u * inject_Z (Z.of_nat n) < inject_Z (Z.of_nat n)) by nra.
  assert (Hge : 0 <= u * inject_Z (Z.of_nat n)) by nra.
  pose proof (Qfloor_le (u * inject_Z (Z.of_nat n))) as Hf.
  assert (F1 : (Qfloor (u * inject_Z (Z.of_nat n)) < Z.of_nat n)%Z).
  { rewrite Zlt_Qlt. lra. }
  assert (F0 : (0 <= Qfloor (u * inject_Z (Z.of_nat n)))%Z).
  { change 0%Z with (Qfloor 0). apply Qfloor_resp_le. exact Hge. }
  lia.
Qed.

Lemma redraw_distinct (index1 n : nat) (draws : list Q) :
  forall index2 j,
  Forall isDraw draws -> (0 < n)%nat -> (index2 < n)%nat ->
  InteractionManager.redraw index1 index2 n draws = Some j ->
  j <> index1 /\ (j < n)%nat.
Proof.
  induction draws as [|u rest IH]; intros index2 j Hd Hn H2 E; cbn in E.
  - destruct (Nat.eqb_spec index2 index1); [discriminate|].
    injection E as <-. split; assumption.
  - destruct (Nat.eqb_spec index2 index1).
    + inversion Hd as [|? ? Hu Hrest]; subst.
      apply (IH (InteractionManager.randomIndex u n) j Hrest Hn); [|exact E].
      apply randomIndex_lt; assumption.
    + injection E as <-. split; assumption.
Qed.

(** X9: with draws in [0, 1), [selectTwoRandomAvatars] returns null
    exactly when the array holds fewer than 2 avatars, and a pair it
    returns is made of two different indices of the array. *)
Theorem selectTwoRandomAvatars_distinct (draws : list Q) (s : Scene) :
  Forall isDraw draws ->
  (InteractionManager.selectTwoRandomAvatars draws s = InteractionManager.NoAvatars
   <-> (List.length (gvrms s) < 2)%nat)
  /\ (forall i j,
        InteractionManager.selectTwoRandomAvatars draws s = InteractionManager.Pair i j ->
        i <> j /\ (i < List.length (gvrms s))%nat
        /\ (j < List.length (gvrms s))%nat).
Proof.
  intro Hd. unfold InteractionManager.selectTwoRandomAvatars. cbv zeta.
  destruct (Nat.ltb_spec (List.length (gvrms s)) 2) as [Hlt|Hge].
  - split; [tauto|]. intros i j E. discriminate E.
  - split.
    + split; [|lia]. intro E.
      destruct draws as [|u1 [|u2 rest]]; try discriminate E.
      destruct (InteractionManager.redraw _ _ _ _); discriminate E.
    + intros i j E.
      destruct draws as [|u1 [|u2 rest]]; try discriminate E.
      inversion Hd as [|? ? Hu1 Hd1]; subst.
      inversion Hd1 as [|? ? Hu2 Hd2]; subst.
      destruct (InteractionManager.redraw _ _ _ _) as [k|] eqn:R;
        [|discriminate E].
      injection E as <- <-.
      assert (Hn : (0 < List.length (gvrms s))%nat) by lia.
      destruct (redraw_distinct _ _ _ _ _ Hd2 Hn
                  (randomIndex_lt u2 _ Hu2 Hn) R) as [Hne Hk].
      split; [intro Eq; apply Hne; symmetry; exact Eq|].
      split; [apply randomIndex_lt; assumption|exact Hk].
Qed.

Lemma selectTwoRandomAvatars_distinct_witness :
  Forall isDraw [0.1; 0.2; 0.9]
  /\ InteractionManager.selectTwoRandomAvatars [0.1; 0.2; 0.9] sceneReady
     = InteractionManager.Pair 0 1
  /\ 0%nat <> 1%nat.
Proof.
  assert (D : Forall isDraw [0.1; 0.2; 0.9]).
  { repeat (apply Forall_cons; [unfold isDraw; split; lra|]).
    apply Forall_nil. }
  split; [exact D|]. split; [reflexivity|].
  exact (proj1 (proj2 (selectTwoRandomAvatars_distinct _ sceneReady D)
                  0%nat 1%nat eq_refl)).
Defined.

Lemma weightedSelection_registered (t : Q) (d h1 h2 : Distance) (u : Q) :
  In (InteractionManager.weightedSelection
        (InteractionManager.weightsOf t d h1 h2) u)
     InteractionManager.interactionTypes.
Proof.
  unfold InteractionManager.weightedSelection. cbv zeta.
  destruct (InteractionManager.walkWeights _ _) as [c|] eqn:E.
  - apply walkWeights_Some in E. destruct E as (k & w & Hn & _).
    exact (weightsOf_classes _ _ _ _ k c w Hn).
  - left. reflexivity.
Qed.

(** X10: [startNewInteraction] leaves the manager as it is while an
    interaction is active.  When [shouldStartInteraction] holds and the
    two selected avatars are ready, the manager afterwards holds a fresh
    interaction on that pair: active, at frame 0, lasting 450 frames, of a
    registered class, and [lastInteractionHour] is the current hour. *)
Theorem startNewInteraction_starts_fresh (M : MathImpl) (draws : list Q)
    (u : Q) (h : Z) (m : InteractionManager.t) (s : Scene) (i j : nat) :
  InteractionManager.shouldStartInteraction m s h = true ->
  InteractionManager.selectTwoRandomAvatars draws s = InteractionManager.Pair i j ->
  InteractionManager.readyAt s i = true ->
  InteractionManager.readyAt s j = true ->
  let m' := InteractionManager.startNewInteraction M draws u h m s in
  InteractionManager.lastInteractionHour m' = h
  /\ (forall h', InteractionManager.startNewInteraction M draws u h' m' s = m')
  /\ exists x,
       InteractionManager.activeInteraction m' = Some x
       /\ Interaction.isActive x = true
       /\ Interaction.frameCount x = 0%Z
       /\ Interaction.duration x == 450
       /\ Interaction.endCalls x = 0%nat
       /\ Interaction.index1 x = i /\ Interaction.index2 x = j
       /\ In (Interaction.cls x) InteractionManager.interactionTypes.
Proof.
  intros Hs Hp Hi Hj m'.
  assert (E : m' = InteractionManager.mk
                     (Some (fst (Interaction.start M
                                   (InteractionManager.selectInteraction M u
                                      (InteractionManager.mk
                                         (InteractionManager.activeInteraction m)
                                         h (InteractionManager.timeOfDay m))
                                      s i j) s)))
                     h (InteractionManager.timeOfDay m)).
  { unfold m', InteractionManager.startNewInteraction.
    rewrite Hs, Hp, Hi, Hj. reflexivity. }
  rewrite E. split; [reflexivity|]. split.
  - intro h'. unfold InteractionManager.startNewInteraction,
      InteractionManager.shouldStartInteraction, InteractionManager.hasActive.
    reflexivity.
  - eexists. split; [reflexivity|].
    split; [reflexivity|]. split; [reflexivity|]. split; [reflexivity|].
    split; [reflexivity|]. split; [reflexivity|]. split; [reflexivity|].
    apply weightedSelection_registered.
Qed.

Lemma startNewInteraction_starts_fresh_witness :
  InteractionManager.shouldStartInteraction manager0 sceneReady 5 = true
  /\ InteractionManager.lastInteractionHour
       (InteractionManager.startNewInteraction refMath [0.1; 0.9] 0.5 5
          manager0 sceneReady) = 5%Z.
Proof.
  split; [reflexivity|].
  exact (proj1 (startNewInteraction_starts_fresh refMath [0.1; 0.9] 0.5 5
                  manager0 sceneReady 0 1 eq_refl eq_refl eq_refl eq_refl)).
Defined.

Lemma manager_update_active (M : MathImpl) (x : ManagerInput)
    (m : InteractionManager.t) (s : Scene) (i : Interaction.t) :
  InteractionManager.activeInteraction m = Some i ->
  Interaction.isActive i = true ->
  InteractionManager.update M (pairDraws x) (variantDraw x) (virtualTimeAt x) m s
  = (InteractionManager.mk
       (if Interaction.isActive (fst (Interaction.update M i s))
        then Some (fst (Interaction.update M i s)) else None)
       (InteractionManager.lastInteractionHour m) (virtualTimeAt x),
     snd (Interaction.update M i s)).
Proof.
  intros Hm Hi. unfold InteractionManager.update. cbv zeta.
  assert (E : InteractionManager.startNewInteraction M (pairDraws x)
                (variantDraw x) (Math_floor (virtualTimeAt x))
                (InteractionManager.updateContext (virtualTimeAt x) m) s
              = InteractionManager.updateContext (virtualTimeAt x) m).
  { unfold InteractionManager.startNewInteraction,
      InteractionManager.shouldStartInteraction, InteractionManager.hasActive,
      InteractionManager.updateContext.
    cbn [InteractionManager.activeInteraction]. rewrite Hm, Hi. reflexivity. }
  rewrite E. unfold InteractionManager.updateContext.
  cbn [InteractionManager.activeInteraction InteractionManager.lastInteractionHour
       InteractionManager.timeOfDay].
  rewrite Hm, Hi.
  destruct (Interaction.update M i s) as [i' s']. cbn [fst snd].
  destruct (Interaction.isActive i'); reflexivity.
Qed.

Lemma interaction_update_running (M : MathImpl) (i : Interaction.t) (s : Scene) :
  Interaction.isActive i = true ->
  inject_Z (Interaction.frameCount i + 1) < Interaction.duration i ->
  fst (Interaction.update M i s)
  = Interaction.set_frameCount (Interaction.frameCount i + 1) i.
Proof.
  intros Ha Hd. unfold Interaction.update. rewrite Ha. cbn [negb].
  cbn [Interaction.frameCount Interaction.duration Interaction.set_frameCount].
  apply Qleb_false in Hd. rewrite Hd. reflexivity.
Qed.

(** X11: while an interaction is running the manager starts no other one:
    over [n] calls of [update()] that stay below the interaction's
    duration, the manager keeps the same interaction (same class and
    participants), advanced by exactly [n] frames, and does not change
    [lastInteractionHour], whatever the virtual times and draws. *)
Theorem manager_keeps_running_interaction (M : MathImpl)
    (inputs : list ManagerInput) :
  forall (m : InteractionManager.t) (s : Scene) (i : Interaction.t),
  InteractionManager.activeInteraction m = Some i ->
  Interaction.isActive i = true ->
  inject_Z (Interaction.frameCount i + Z.of_nat (List.length inputs))
    < Interaction.duration i ->
  exists i',
    InteractionManager.activeInteraction (fst (managerRun M inputs m s)) = Some i'
    /\ i' = Interaction.set_frameCount
              (Interaction.frameCount i + Z.of_nat (List.length inputs)) i
    /\ InteractionManager.lastInteractionHour (fst (managerRun M inputs m s))
       = InteractionManager.lastInteractionHour m.
Proof.
  induction inputs as [|x rest IH]; intros m s i Hm Ha Hd.
  - exists i. cbn [managerRun fst List.length Z.of_nat].
    split; [exact Hm|]. split; [|reflexivity].
    rewrite Z.add_0_r. destruct i; reflexivity.
  - cbn [List.length] in Hd. rewrite Nat2Z.inj_succ in Hd.
    assert (P : (0 <= Z.of_nat (List.length rest))%Z) by lia.
    assert (Hd1 : inject_Z (Interaction.frameCount i + 1) < Interaction.duration i).
    { assert (Hle : inject_Z (Interaction.frameCount i + 1)
                    <= inject_Z (Interaction.frameCount i
                                 + Z.succ (Z.of_nat (List.length rest)))).
      { rewrite <- Zle_Qle. lia. }
      lra. }
    cbn [managerRun]. rewrite (manager_update_active M x m s i Hm Ha).
    rewrite (interaction_update_running M i s Ha Hd1).
    cbn [Interaction.isActive Interaction.set_frameCount]. rewrite Ha.
    destruct (IH (InteractionManager.mk
                    (Some (Interaction.set_frameCount
                             (Interaction.frameCount i + 1) i))
                    (InteractionManager.lastInteractionHour m) (virtualTimeAt x))
                 (snd (Interaction.update M i s))
                 (Interaction.set_frameCount (Interaction.frameCount i + 1) i))
      as (i' & E1 & E2 & E3).
    + reflexivity.
    + exact Ha.
    + cbn [Interaction.frameCount Interaction.duration
           Interaction.set_frameCount].
      replace (Interaction.frameCount i + 1 + Z.of_nat (List.length rest))%Z
        with (Interaction.frameCount i + Z.succ (Z.of_nat (List.length rest)))%Z
        by lia.
      exact Hd.
    + exists i'. split; [exact E1|]. split; [|exact E3].
      rewrite E2. cbn [List.length]. rewrite Nat2Z.inj_succ.
      cbn [Interaction.frameCount Interaction.set_frameCount
           Interaction.cls Interaction.index1 Interaction.index2
           Interaction.isActive Interaction.duration
           Interaction.interactionDistance Interaction.original1
           Interaction.original2 Interaction.targetPos Interaction.endCalls].
      unfold Interaction.set_frameCount. f_equal. lia.
Qed.

Lemma manager_keeps_running_interaction_witness :
  let m :=
    InteractionManager.startNewInteraction refMath [0.1; 0.9] 0.5 5 manager0
      sceneReady in
  let inputs := repeat (mkManagerInput [0.3; 0.4] 0.7 5.5) 100 in
  exists i i',
    InteractionManager.activeInteraction m = Some i
    /\ InteractionManager.activeInteraction
         (fst (managerRun refMath inputs m sceneReady)) = Some i'
    /\ Interaction.frameCount i' = 100%Z.
Proof.
  cbv zeta.
  set (m := InteractionManager.startNewInteraction refMath [0.1; 0.9] 0.5 5
              manager0 sceneReady).
  destruct (InteractionManager.activeInteraction m) as [i|] eqn:Em;
    [|discriminate Em].
  assert (Ha : Interaction.isActive i = true).
  { vm_compute in Em. injection Em as <-. reflexivity. }
  assert (Hf : Interaction.frameCount i = 0%Z).
  { vm_compute in Em. injection Em as <-. reflexivity. }
  assert (Hd : Interaction.duration i == 450).
  { vm_compute in Em. injection Em as <-. reflexivity. }
  destruct (manager_keeps_running_interaction refMath
              (repeat (mkManagerInput [0.3; 0.4] 0.7 5.5) 100) m sceneReady i
              Em Ha) as (i' & E1 & E2 & _).
  - rewrite repeat_length, Hf, Hd. reflexivity.
  - exists i, i'. split; [reflexivity|]. split; [exact E1|].
    rewrite E2, repeat_length, Hf. reflexivity.
Defined.

(** X12: the call of [update()] in which the running interaction reaches
    its duration ends it and empties the manager's slot in that same call:
    [end()] has run once more, both participants' walkers have
    [inInteraction] false, and [lastInteractionHour] is unchanged, so the
    cooldown still counts from the start of that interaction. *)
Theorem manager_frees_slot_when_interaction_ends (M : MathImpl)
    (x : ManagerInput) (m : InteractionManager.t) (s : Scene)
    (i : Interaction.t) (w1 w2 : Walker.t) :
  InteractionManager.activeInteraction m = Some i ->
  Interaction.isActive i = true ->
  Interaction.duration i <= inject_Z (Interaction.frameCount i + 1) ->
  Interaction.walker1 i s = Some w1 ->
  Interaction.walker2 i s = Some w2 ->
  let m' := fst (InteractionManager.update M (pairDraws x) (variantDraw x)
                   (virtualTimeAt x) m s) in
  let s' := snd (InteractionManager.update M (pairDraws x) (variantDraw x)
                   (virtualTimeAt x) m s) in
  InteractionManager.activeInteraction m' = None
  /\ InteractionManager.lastInteractionHour m'
     = InteractionManager.lastInteractionHour m
  /\ Interaction.endCalls (fst (Interaction.update M i s))
     = S (Interaction.endCalls i)
  /\ (exists w, Interaction.walker1 i s' = Some w
                /\ Walker.inInteraction w = Some false)
  /\ (exists w, Interaction.walker2 i s' = Some w
                /\ Walker.inInteraction w = Some false).
Proof.
  intros Hm Ha Hd H1 H2 m' s'.
  unfold m', s'. rewrite (manager_update_active M x m s i Hm Ha).
  assert (E : Interaction.update M i s
              = Interaction.end_
                  (Interaction.set_frameCount (Interaction.frameCount i + 1) i) s).
  { unfold Interaction.update. rewrite Ha. cbn [negb].
    cbn [Interaction.frameCount Interaction.duration Interaction.set_frameCount].
    apply Qleb_true in Hd. rewrite Hd. reflexivity. }
  rewrite E. unfold Interaction.end_. cbv zeta. cbn [fst snd].
  cbn [Interaction.isActive Interaction.endCalls Interaction.count_end
       Interaction.set_active Interaction.set_frameCount
       Interaction.index1 Interaction.index2 Interaction.original1
       Interaction.original2 InteractionManager.activeInteraction
       InteractionManager.lastInteractionHour].
  split; [reflexivity|]. split; [reflexivity|]. split; [reflexivity|].
  unfold Interaction.walker1, Interaction.walker2, onWalker in *.
  cbn [walkers].
  split.
  - destruct (Nat.eq_dec (Interaction.index1 i) (Interaction.index2 i)) as [Eq|Ne].
    + rewrite <- Eq. rewrite nth_error_updateNth_same.
      rewrite nth_error_updateNth_same, H1. cbn [option_map].
      eexists. split; reflexivity.
    + rewrite nth_error_updateNth_other by (intro X; apply Ne; symmetry; exact X).
      rewrite nth_error_updateNth_same, H1. cbn [option_map].
      eexists. split; reflexivity.
  - rewrite nth_error_updateNth_same.
    destruct (Nat.eq_dec (Interaction.index1 i) (Interaction.index2 i)) as [Eq|Ne].
    + rewrite <- Eq. rewrite nth_error_updateNth_same, H1. cbn [option_map].
      eexists. split; reflexivity.
    + rewrite nth_error_updateNth_other by exact Ne.
      rewrite H2. cbn [option_map]. eexists. split; reflexivity.
Qed.

Lemma manager_frees_slot_when_interaction_ends_witness :
  let i := Interaction.set_frameCount 449
             (Interaction.set_active true
                (Interaction.constructor GreetingInteraction 0 1)) in
  let m := InteractionManager.mk (Some i) 5 7.9 in
  Interaction.duration i <= inject_Z (Interaction.frameCount i + 1)
  /\ InteractionManager.activeInteraction
       (fst (InteractionManager.update refMath [0.3; 0.4] 0.7 8 m sceneReady))
     = None.
Proof.
  cbv zeta.
  assert (D : Interaction.duration
                (Interaction.set_frameCount 449
                   (Interaction.set_active true
                      (Interaction.constructor GreetingInteraction 0 1)))
              <= inject_Z 450).
  { vm_compute. discriminate. }
  split; [exact D|].
  exact (proj1 (manager_frees_slot_when_interaction_ends refMath
                  (mkManagerInput [0.3; 0.4] 0.7 8)
                  (InteractionManager.mk
                     (Some (Interaction.set_frameCount 449
                              (Interaction.set_active true
                                 (Interaction.constructor GreetingInteraction 0 1))))
                     5 7.9)
                  sceneReady _ walker0 _ eq_refl eq_refl D eq_refl eq_refl)).
Defined.

(** ** Main loop: the virtual clock *)

Lemma frame_step_close :
  (1 # 150) - Double.pow2 (- 60) <= Double.round (Main.timeSpeed / 60)
  /\ Double.round (Main.timeSpeed / 60) <= (1 # 150) + Double.pow2 (- 60).
Proof. split; vm_compute; discriminate. Qed.

Lemma advanceTime_step (vt : Q) :
  0 <= vt -> vt < 24 ->
  (0 <= Main.advanceTime vt /\ Main.advanceTime vt < 24)
  /\ exists j : Z,
       (0 <= j <= 1)%Z
       /\ Qabs (Main.advanceTime vt - (vt + (1 # 150) - 24 * inject_Z j))
          <= Double.pow2 (- 47).
Proof.
  intros H0 H1. unfold Main.advanceTime. cbv zeta.
  destruct frame_step_close as [D0 D1].
  set (d := Double.round (Main.timeSpeed / 60)) in *.
  assert (P60 : Double.pow2 (- 60) == 1 # 1152921504606846976) by reflexivity.
  assert (P47 : Double.pow2 (- 47) == 1 # 140737488355328) by reflexivity.
  assert (S0 : 0 <= Double.round (vt + d)) by (apply round_nonneg; lra).
  destruct (round_close (vt + d) 32) as [S1 S2].
  { apply Qabs_le_iff. lra. }
  set (s := Double.round (vt + d)) in *. unfold Double.eps in S1, S2.
  destruct (24 <=? s) eqn:E.
  - apply Qleb_true in E.
    assert (R0 : 0 <= Double.round (s - 24)) by (apply round_nonneg; lra).
    destruct (round_close (s - 24) 1) as [R1 R2].
    { apply Qabs_le_iff. lra. }
    unfold Double.eps in R1, R2.
    split; [split; lra|]. exists 1%Z. split; [lia|].
    change (inject_Z 1) with 1. apply Qabs_le_iff. lra.
  - apply Qleb_false in E.
    split; [split; lra|]. exists 0%Z. split; [lia|].
    change (inject_Z 0) with 0. apply Qabs_le_iff. lra.
Qed.

Lemma advanceFrames_closed (n : nat) (vt : Q) :
  0 <= vt -> vt < 24 ->
  (0 <= Main.advanceFrames n vt /\ Main.advanceFrames n vt < 24)
  /\ exists k : Z,
       Qabs (Main.advanceFrames n vt
             - (vt + inject_Z (Z.of_nat n) * (1 # 150) - 24 * inject_Z k))
       <= inject_Z (Z.of_nat n) * Double.pow2 (- 47).
Proof.
  intros H0 H1. induction n as [|n [[R0 R1] [k Hk]]].
  - split; [split; assumption|]. exists 0%Z. cbn [Main.advanceFrames].
    change (inject_Z (Z.of_nat 0)) with 0. change (inject_Z 0) with 0.
    apply Qabs_le_iff. lra.
  - cbn [Main.advanceFrames].
    destruct (advanceTime_step _ R0 R1) as [R (j & Hj & E)].
    split; [exact R|]. exists (k + j)%Z.
    rewrite Nat2Z.inj_succ. unfold Z.succ. rewrite !inject_Z_plus.
    change (inject_Z 1) with 1.
    apply Qabs_le_iff in Hk. apply Qabs_le_iff in E. apply Qabs_le_iff.
    lra.
Qed.

Lemma between_Z (k lo hi : Z) :
  inject_Z lo - 1 < inject_Z k -> inject_Z k < inject_Z hi + 1 ->
  (lo <= k <= hi)%Z.
Proof.
  intros A B.
  assert (A' : inject_Z (lo - 1) < inject_Z k).
  { unfold Z.sub. rewrite inject_Z_plus, inject_Z_opp.
    change (inject_Z 1) with 1. lra. }
  assert (B' : inject_Z k < inject_Z (hi + 1)).
  { rewrite inject_Z_plus. change (inject_Z 1) with 1. lra. }
  rewrite <- Zlt_Qlt in A', B'. lia.
Qed.

(** The clock of the page in binary64: one frame from midnight, and 150
    frames and a minute of frames (3600) from 8 o'clock. *)
Example advanceFrames_samples :
  Main.advanceFrames 1 0 == 7686143364045647 # 1152921504606846976
  /\ Main.advanceFrames 150 8 == 2533274790395873 # 281474976710656
  /\ Main.advanceFrames 3600 8 == 4503599627370777 # 562949953421312.
Proof. split; [|split]; vm_compute; reflexivity. Qed.

(** X13: the virtual time stays in [0, 24) frame after frame, and after n
    frames it is the start plus n/150 hours around the clock, up to
    n * 2^-47 hours of rounding in binary64 (n frames are k days and the
    rest).  So 3600 frames (one minute at 60 frames per second) bring it
    back to the same time of day up to 2^-35 hours, and the 450 frames of
    an interaction advance it by 3 hours around the clock up to 2^-38. *)
Theorem virtual_clock_keeps_time (vt : Q) (n : nat) :
  0 <= vt -> vt < 24 ->
  (0 <= Main.advanceFrames n vt /\ Main.advanceFrames n vt < 24)
  /\ (exists k : Z,
        Qabs (Main.advanceFrames n vt
              - (vt + inject_Z (Z.of_nat n) * (1 # 150) - 24 * inject_Z k))
        <= inject_Z (Z.of_nat n) * Double.pow2 (- 47))
  /\ (exists k : Z,
        (0 <= k <= 2)%Z
        /\ Qabs (Main.advanceFrames 3600 vt - (vt + 24 - 24 * inject_Z k))
           <= Double.pow2 (- 35))
  /\ (exists k : Z,
        (0 <= k <= 1)%Z
        /\ Qabs (Main.advanceFrames 450 vt - (vt + 3 - 24 * inject_Z k))
           <= Double.pow2 (- 38)).
Proof.
  intros H0 H1.
  assert (P47 : Double.pow2 (- 47) == 1 # 140737488355328) by reflexivity.
  assert (P35 : Double.pow2 (- 35) == 1 # 34359738368) by reflexivity.
  assert (P38 : Double.pow2 (- 38) == 1 # 274877906944) by reflexivity.
  split; [exact (proj1 (advanceFrames_closed n vt H0 H1))|].
  split; [exact (proj2 (advanceFrames_closed n vt H0 H1))|].
  split.
  - destruct (advanceFrames_closed 3600 vt H0 H1) as [[R0 R1] [k Hk]].
    change (inject_Z (Z.of_nat 3600)) with 3600 in Hk.
    apply Qabs_le_iff in Hk. exists k. split.
    + apply between_Z; change (inject_Z 0) with 0; change (inject_Z 2) with 2;
        lra.
    + apply Qabs_le_iff. lra.
  - destruct (advanceFrames_closed 450 vt H0 H1) as [[R0 R1] [k Hk]].
    change (inject_Z (Z.of_nat 450)) with 450 in Hk.
    apply Qabs_le_iff in Hk. exists k. split.
    + apply between_Z; change (inject_Z 0) with 0; change (inject_Z 1) with 1;
        lra.
    + apply Qabs_le_iff. lra.
Qed.

Lemma virtual_clock_keeps_time_witness :
  0 <= 8 /\ 8 < 24
  /\ 0 <= Main.advanceFrames 3600 8 /\ Main.advanceFrames 3600 8 < 24.
Proof.
  assert (A : 0 <= 8) by (unfold Qle; cbn; lia).
  assert (B : 8 < 24) by reflexivity.
  split; [exact A|]. split; [exact B|].
  exact (proj1 (virtual_clock_keeps_time 8 3600 A B)).
Defined.

Lemma floor_fraction (vt : Q) :
  0 <= vt - inject_Z (Math_floor vt) /\ vt - inject_Z (Math_floor vt) < 1.
Proof.
  unfold Math_floor. pose proof (Qfloor_le vt) as A.
  pose proof (Qlt_floor vt) as B.
  rewrite inject_Z_plus in B. change (inject_Z 1) with 1 in B. split; lra.
Qed.

(** X14: for a virtual time that is not negative, both clock hands point
    at an angle in [0, 360) degrees, and the hour hand turns evenly, 30
    degrees per hour of the time taken modulo 12 hours. *)
Theorem clock_hands_in_range (vt : Q) :
  0 <= vt ->
  (0 <= Main.hourDegrees vt /\ Main.hourDegrees vt < 360)
  /\ (0 <= Main.minuteDegrees vt /\ Main.minuteDegrees vt < 360)
  /\ Main.hourDegrees vt
     == 30 * (vt - inject_Z (12 * (Math_floor vt / 12))).
Proof.
  intro H0.
  destruct (floor_fraction vt) as [F0 F1].
  assert (Hf : (0 <= Math_floor vt)%Z).
  { unfold Math_floor. change 0%Z with (Qfloor 0). apply Qfloor_resp_le.
    exact H0. }
  assert (Hr : Main.clockHours vt = (Math_floor vt mod 12)%Z).
  { unfold Main.clockHours. apply Z.rem_mod_nonneg; lia. }
  pose proof (Z.mod_pos_bound (Math_floor vt) 12 ltac:(lia)) as [M0 M1].
  assert (Q0 : 0 <= inject_Z (Math_floor vt mod 12)).
  { change 0 with (inject_Z 0). rewrite <- Zle_Qle. exact M0. }
  assert (Q1 : inject_Z (Math_floor vt mod 12) <= 11).
  { change 11 with (inject_Z 11). rewrite <- Zle_Qle. lia. }
  unfold Main.hourDegrees, Main.minuteDegrees, Main.clockMinutes.
  rewrite Hr.
  split; [split; lra|]. split; [split; lra|].
  assert (Hm : inject_Z (Math_floor vt mod 12)
               == inject_Z (Math_floor vt)
                  - inject_Z (12 * (Math_floor vt / 12))).
  { rewrite (Z.mod_eq (Math_floor vt) 12) by lia.
    unfold Z.sub. rewrite inject_Z_plus, inject_Z_opp. reflexivity. }
  rewrite Hm. lra.
Qed.

Lemma clock_hands_in_range_witness :
  0 <= 13.5 /\ Main.hourDegrees 13.5 == 45 /\ Main.minuteDegrees 13.5 == 180.
Proof.
  assert (A : 0 <= 13.5) by (unfold Qle; cbn; lia).
  split; [exact A|].
  destruct (clock_hands_in_range 13.5 A) as (_ & _ & E).
  split; [rewrite E; reflexivity|reflexivity].
Defined.

(** ** Main loop: timeline *)

Lemma padStart2_twoDigits (n : nat) :
  (n < 100)%nat -> Main.padStart2 (Main.toString (Z.of_nat n)) = twoDigits n.
Proof.
  intro H.
  assert (All : forallb
                  (fun k => String.eqb
                              (Main.padStart2 (Main.toString (Z.of_nat k)))
                              (twoDigits k))
                  (seq 0 100) = true) by (vm_compute; reflexivity).
  rewrite forallb_forall in All.
  apply String.eqb_eq. apply All. apply in_seq. lia.
Qed.

Lemma double_fraction (vt : Q) :
  0 <= vt -> Double.round vt == vt ->
  vt - inject_Z (Math_floor vt) <= 1 - Double.eps.
Proof.
  intros H0 Hd. destruct (floor_fraction vt) as [F0 F1].
  set (hz := Math_floor vt) in *.
  destruct (Qlt_le_dec vt 1) as [L|L].
  - assert (Hh : (0 <= hz)%Z).
    { unfold hz, Math_floor. change 0%Z with (Qfloor 0).
      apply Qfloor_resp_le. exact H0. }
    rewrite Zle_Qle in Hh. change (inject_Z 0) with 0 in Hh.
    pose proof (double_below_one vt Hd L). lra.
  - assert (Hp : 0 < vt) by lra.
    destruct (double_significand vt Hp Hd) as (m & Hm & E).
    assert (He : (0 <= Double.ilog2 vt)%Z).
    { assert (E1 : Double.ilog2 1 = 0%Z) by reflexivity.
      rewrite <- E1. apply ilog2_mono; [reflexivity|exact L]. }
    set (e := Double.ilog2 vt) in *.
    assert (P52 : Double.pow2 (- 52) == 1 # 4503599627370496) by reflexivity.
    assert (EN : vt == inject_Z (m * 2 ^ e) * (1 # 4503599627370496)).
    { rewrite E. change (e - 52)%Z with (e + - 52)%Z.
      rewrite pow2_add, P52, inject_Z_mult, pow2_inject by exact He. ring. }
    set (N := (m * 2 ^ e)%Z) in *.
    assert (Hlt : (N < hz * 4503599627370496 + 4503599627370496)%Z).
    { rewrite Zlt_Qlt, inject_Z_plus, inject_Z_mult.
      change (inject_Z 4503599627370496) with 4503599627370496. lra. }
    assert (Hle : (N <= hz * 4503599627370496 + 4503599627370495)%Z) by lia.
    rewrite Zle_Qle, inject_Z_plus, inject_Z_mult in Hle.
    change (inject_Z 4503599627370496) with 4503599627370496 in Hle.
    change (inject_Z 4503599627370495) with 4503599627370495 in Hle.
    unfold Double.eps. lra.
Qed.

(** [formatTimeHM] on binary64 times: at 0.95 (the nearest binary64
    number, just below 57 minutes) the product rounds up to 57. *)
Example formatTimeHM_samples :
  Main.formatTimeHM (4278419646001971 # 4503599627370496) = "00:57"%string
  /\ Main.formatTimeHM (6755399441055743 # 281474976710656) = "23:59"%string
  /\ Main.formatTimeHM (9007199254740991 # 9007199254740992) = "00:59"%string
  /\ Main.formatTimeHM 9.75 = "09:45"%string.
Proof. split; [|split; [|split]]; vm_compute; reflexivity. Qed.

(** X15: for a binary64 virtual time in [0, 24), [formatTimeHM] is the
    two-digit hour (00 to 23) of the time rounded down, a colon, and a
    two-digit minute (00 to 59): five characters.  The minute is the
    fraction of the hour in minutes rounded down, up to 2^-46 minutes of
    rounding in binary64. *)
Theorem formatTimeHM_two_digits (vt : Q) :
  0 <= vt -> vt < 24 -> Double.round vt == vt ->
  exists h mi : nat,
    (h < 24)%nat /\ (mi < 60)%nat
    /\ inject_Z (Z.of_nat h) <= vt /\ vt < inject_Z (Z.of_nat h) + 1
    /\ inject_Z (Z.of_nat mi) - Double.pow2 (- 46)
       <= (vt - inject_Z (Z.of_nat h)) * 60
    /\ (vt - inject_Z (Z.of_nat h)) * 60
       < inject_Z (Z.of_nat mi) + 1 + Double.pow2 (- 46)
    /\ Main.formatTimeHM vt = (twoDigits h ++ ":" ++ twoDigits mi)%string
    /\ String.length (Main.formatTimeHM vt) = 5%nat.
Proof.
  intros H0 H1 Hd.
  destruct (floor_fraction vt) as [F0 F1].
  pose proof (double_fraction vt H0 Hd) as F2.
  set (hz := Math_floor vt) in *.
  assert (P46 : Double.pow2 (- 46) == 1 # 70368744177664) by reflexivity.
  assert (Hh0 : (0 <= hz)%Z).
  { unfold hz, Math_floor. change 0%Z with (Qfloor 0).
    apply Qfloor_resp_le. exact H0. }
  assert (Hh1 : (hz < 24)%Z).
  { rewrite Zlt_Qlt. change (inject_Z 24) with 24. lra. }
  assert (A0 : 0 <= Double.round (vt - inject_Z hz))
    by (apply round_nonneg; exact F0).
  destruct (round_close (vt - inject_Z hz) 1) as [A1 A2].
  { apply Qabs_le_iff. lra. }
  assert (A3 : Double.round (vt - inject_Z hz) < 1).
  { apply round_below_double; [reflexivity|reflexivity|exact F0|lra]. }
  pose proof (double_below_one _ (round_idem (vt - inject_Z hz)) A3) as A4.
  set (f := Double.round (vt - inject_Z hz)) in *.
  assert (B0 : 0 <= Double.round (f * 60)) by (apply round_nonneg; lra).
  assert (C : Double.round ((1 - Double.eps) * 60) < 60)
    by (vm_compute; reflexivity).
  assert (B3 : Double.round (f * 60) <= Double.round ((1 - Double.eps) * 60)).
  { apply round_mono. lra. }
  destruct (round_close (f * 60) 64) as [B1 B2].
  { apply Qabs_le_iff. lra. }
  unfold Double.eps in A1, A2, A4, B1, B2.
  destruct (floor_fraction (Double.round (f * 60))) as [G0 G1].
  set (mz := Math_floor (Double.round (f * 60))) in *.
  assert (Hm0 : (0 <= mz)%Z).
  { unfold mz, Math_floor. change 0%Z with (Qfloor 0).
    apply Qfloor_resp_le. exact B0. }
  assert (Hm1 : (mz < 60)%Z).
  { rewrite Zlt_Qlt. change (inject_Z 60) with 60. lra. }
  exists (Z.to_nat hz), (Z.to_nat mz).
  rewrite !Z2Nat.id by assumption.
  split; [lia|]. split; [lia|].
  assert (Ef : Main.formatTimeHM vt
               = (twoDigits (Z.to_nat hz) ++ ":" ++ twoDigits (Z.to_nat mz))%string).
  { unfold Main.formatTimeHM. cbv zeta. fold hz. fold f. fold mz.
    rewrite <- (Z2Nat.id hz Hh0) at 1. rewrite <- (Z2Nat.id mz Hm0) at 1.
    rewrite !padStart2_twoDigits by lia. reflexivity. }
  split; [lra|]. split; [lra|]. split; [lra|]. split; [lra|].
  split; [exact Ef|rewrite Ef; reflexivity].
Qed.

Lemma formatTimeHM_two_digits_witness :
  0 <= 9.75 /\ 9.75 < 24 /\ Double.round 9.75 == 9.75
  /\ Main.formatTimeHM 9.75 = "09:45"%string.
Proof.
  assert (A : 0 <= 9.75) by (unfold Qle; cbn; lia).
  assert (B : 9.75 < 24) by reflexivity.
  assert (D : Double.round 9.75 == 9.75) by (vm_compute; reflexivity).
  split; [exact A|]. split; [exact B|]. split; [exact D|].
  destruct (formatTimeHM_two_digits 9.75 A B D)
    as (h & mi & _ & _ & _ & _ & _ & _ & _ & _).
  reflexivity.
Defined.

Lemma limitEntries_firstn (fuel : nat) :
  forall l : list Main.TimelineEntry,
  (List.length l <= 50 + fuel)%nat -> Main.limitEntries fuel l = firstn 50 l.
Proof.
  induction fuel as [|f IH]; intros l H; cbn [Main.limitEntries].
  - symmetry. apply firstn_all2. lia.
  - destruct (Nat.ltb_spec 50 (List.length l)) as [Hlt|Hge].
    + rewrite IH.
      * rewrite removelast_firstn_len, firstn_firstn.
        f_equal. lia.
      * rewrite removelast_firstn_len, length_firstn. lia.
    + symmetry. apply firstn_all2. exact Hge.
Qed.

(** X16: [addTimelineEvent] puts the new entry, labelled with the
    formatted time, first and keeps the 50 newest entries: the list
    afterwards is the first 50 of the new entry followed by the old ones,
    however long the old list was; a missing timeline element stays
    missing. *)
Theorem addTimelineEvent_keeps_50_newest (vt : Q) (text : string)
    (old : list Main.TimelineEntry) :
  Main.addTimelineEvent vt text None = None
  /\ Main.addTimelineEvent vt text (Some old)
     = Some (firstn 50 ((Main.formatTimeHM vt, text) :: old))
  /\ (forall l, Main.addTimelineEvent vt text (Some old) = Some l ->
        (List.length l <= 50)%nat
        /\ hd_error l = Some (Main.formatTimeHM vt, text)
        /\ ((List.length old < 50)%nat ->
            l = (Main.formatTimeHM vt, text) :: old)).
Proof.
  assert (E : Main.addTimelineEvent vt text (Some old)
              = Some (firstn 50 ((Main.formatTimeHM vt, text) :: old))).
  { unfold Main.addTimelineEvent. cbv zeta. f_equal.
    apply limitEntries_firstn. apply Nat.le_add_l. }
  split; [reflexivity|]. split; [exact E|].
  intros l Hl. rewrite E in Hl.
  assert (El : firstn 50 ((Main.formatTimeHM vt, text) :: old) = l)
    by congruence.
  rewrite <- El.
  split; [apply firstn_le_length|]. split; [reflexivity|].
  intro H. apply firstn_all2. cbn [Datatypes.length]. apply H.
Qed.

Lemma addTimelineEvent_keeps_50_newest_witness :
  Main.addTimelineEvent 9.75 "hello"%string
    (Some [("09:00"%string, "first"%string)])
  = Some [("09:45"%string, "hello"%string); ("09:00"%string, "first"%string)]
  /\ (List.length
        [("09:45"%string, "hello"%string); ("09:00"%string, "first"%string)]
      <= 50)%nat.
Proof.
  split; [reflexivity|].
  exact (proj1 (proj2 (proj2 (addTimelineEvent_keeps_50_newest 9.75
                                "hello"%string
                                [("09:00"%string, "first"%string)]))
                  _ eq_refl)).
Defined.

(** ** Main loop: shuffling the animations *)

Lemma setNth_length (i v : nat) (l : list nat) :
  List.length (Main.setNth i v l) = List.length l.
Proof. apply updateNth_length. Qed.

Lemma nth_setNth (i j v : nat) (l : list nat) :
  (i < List.length l)%nat ->
  nth j (Main.setNth i v l) O = if (j =? i)%nat then v else nth j l O.
Proof.
  unfold Main.setNth. revert i j.
  induction l as [|x l IH]; intros i j H; cbn in H; [lia|].
  destruct i as [|i], j as [|j]; cbn; auto.
  apply IH. lia.
Qed.

Lemma setNth_perm (i v : nat) (l : list nat) :
  (i < List.length l)%nat ->
  Permutation (v :: l) (nth i l O :: Main.setNth i v l).
Proof.
  unfold Main.setNth. revert i.
  induction l as [|x l IH]; intros i H; cbn in H; [lia|].
  destruct i as [|i]; cbn.
  - apply perm_swap.
  - apply Permutation_trans with (x :: v :: l); [apply perm_swap|].
    apply Permutation_trans with (x :: nth i l O :: updateNth i (fun _ => v) l).
    + apply perm_skip. apply IH. lia.
    + apply perm_swap.
Qed.

Lemma swap_perm (i j : nat) (l : list nat) :
  (i < List.length l)%nat -> (j < List.length l)%nat ->
  Permutation l (Main.swap i j l)
  /\ List.length (Main.swap i j l) = List.length l.
Proof.
  intros Hi Hj. unfold Main.swap. cbv zeta. split.
  - pose proof (setNth_perm i (nth j l O) l Hi) as P1.
    assert (Hj' : (j < List.length (Main.setNth i (nth j l O) l))%nat)
      by (rewrite setNth_length; exact Hj).
    pose proof (setNth_perm j (nth i l O) (Main.setNth i (nth j l O) l) Hj')
      as P2.
    rewrite (nth_setNth i j _ l Hi) in P2.
    assert (E : (if (j =? i)%nat then nth j l O else nth j l O) = nth j l O)
      by (destruct (j =? i)%nat; reflexivity).
    rewrite E in P2.
    apply (Permutation_cons_inv (a := nth j l O)).
    apply Permutation_trans with (nth i l O :: Main.setNth i (nth j l O) l);
      assumption.
  - rewrite !setNth_length. reflexivity.
Qed.

Lemma shuffleLoop_perm (draws : nat -> Q) :
  (forall i, isDraw (draws i)) ->
  forall (i : nat) (l : list nat),
  (i < List.length l)%nat ->
  Permutation l (Main.shuffleLoop i draws l).
Proof.
  intros Hd. induction i as [|i IH]; intros l Hl; cbn [Main.shuffleLoop].
  - apply Permutation_refl.
  - cbv zeta.
    assert (Hj : (Z.to_nat (Math_floor (draws (S i)
                                        * inject_Z (Z.of_nat (S i + 1))))
                  < S i + 1)%nat).
    { apply (randomIndex_lt (draws (S i)) (S i + 1)); [apply Hd|lia]. }
    assert (Hj2 : (Z.to_nat (Math_floor (draws (S i)
                                         * inject_Z (Z.of_nat (S i + 1))))
                   < List.length l)%nat) by lia.
    destruct (swap_perm (S i) _ l Hl Hj2) as [P L].
    apply Permutation_trans with (1 := P).
    apply IH. rewrite L. lia.
Qed.

(** X17: with draws in [0, 1), [shuffleAnimations] returns a permutation
    of the indices 0 .. n-1: every animation index once and no other
    value. *)
Theorem shuffleAnimations_is_permutation (n : nat) (draws : nat -> Q) :
  (forall i, isDraw (draws i)) ->
  Permutation (seq 0 n) (Main.shuffleAnimations n draws)
  /\ NoDup (Main.shuffleAnimations n draws)
  /\ List.length (Main.shuffleAnimations n draws) = n.
Proof.
  intro Hd.
  assert (P : Permutation (seq 0 n) (Main.shuffleAnimations n draws)).
  { unfold Main.shuffleAnimations. cbv zeta. rewrite length_seq.
    destruct n as [|n]; [apply Permutation_refl|].
    apply shuffleLoop_perm; [exact Hd|]. rewrite length_seq. lia. }
  split; [exact P|]. split.
  - apply (Permutation_NoDup P). apply seq_NoDup.
  - rewrite <- (Permutation_length P). apply length_seq.
Qed.

Lemma shuffleAnimations_is_permutation_witness :
  (forall i : nat, isDraw ((fun _ => 0.6) i))
  /\ Permutation (seq 0 7) (Main.shuffleAnimations 7 (fun _ => 0.6)).
Proof.
  assert (D : forall i : nat, isDraw ((fun _ => 0.6) i)).
  { intro i. unfold isDraw. split; lra. }
  split; [exact D|].
  exact (proj1 (shuffleAnimations_is_permutation 7 (fun _ => 0.6) D)).
Defined.

(** ** Main loop: placing the avatars *)

Lemma attemptPosition_in_square (b : Q) (d : Q * Q) :
  0 <= b -> isDraw (fst d) -> isDraw (snd d) ->
  Qabs (fst (Main.attemptPosition b d)) <= b
  /\ Qabs (snd (Main.attemptPosition b d)) <= b.
Proof.
  intros Hb [X0 X1] [Z0 Z1]. unfold Main.attemptPosition. cbn [fst snd].
  split; apply Qabs_Qle_condition; split; nra.
Qed.

Lemma attemptLoop_first (M : MathImpl) (b hr : Q) (draws : nat -> Q * Q) :
  forall remaining start,
  (exists k,
     (start <= k < start + remaining)%nat
     /\ outsideHouse M b hr draws k
     /\ (forall j, (start <= j < k)%nat -> ~ outsideHouse M b hr draws j)
     /\ Main.attemptLoop M b hr remaining start draws
        = Some (Main.attemptPosition b (draws k)))
  \/ ((forall j, (start <= j < start + remaining)%nat ->
         ~ outsideHouse M b hr draws j)
      /\ Main.attemptLoop M b hr remaining start draws = None).
Proof.
  induction remaining as [|r IH]; intro start; cbn [Main.attemptLoop].
  - right. split; [|reflexivity]. intros j Hj. lia.
  - destruct (Main.attemptPosition b (draws start)) as [x z] eqn:Ep.
    destruct (hr <? Math_sqrt M (x * x + z * z)) eqn:E.
    + left. exists start. apply Qltb_true in E.
      split; [lia|]. split.
      * unfold outsideHouse. cbv zeta. rewrite Ep. exact E.
      * split; [intros j Hj; lia|rewrite Ep; reflexivity].
    + apply Qltb_false in E.
      assert (Hn : ~ outsideHouse M b hr draws start).
      { unfold outsideHouse. cbv zeta. rewrite Ep. cbn [fst snd]. lra. }
      destruct (IH (S start)) as [(k & Hk & Ho & Hf & Er)|[Hall Er]].
      * left. exists k. split; [lia|]. split; [exact Ho|].
        split; [|exact Er]. intros j Hj.
        destruct (Nat.eq_dec j start) as [->|Hne]; [exact Hn|].
        apply Hf. lia.
      * right. split; [|exact Er]. intros j Hj.
        destruct (Nat.eq_dec j start) as [->|Hne]; [exact Hn|].
        apply Hall. lia.
Qed.

(** X18: [generateRandomPosition] returns the position of the first of
    its (at most 50) attempts that lies farther than [houseRadius] from
    the centre, and that position is within [boundary] of the centre on
    both axes -- up to the boundary itself, beyond the safety margin of
    the walkers.  When all 50 attempts fail it returns the point of the
    circle of radius 0.8 * boundary at the drawn angle. *)
Theorem generateRandomPosition_first_valid (M : MathImpl) (b hr : Q)
    (draws : nat -> Q * Q) (fallbackDraw : Q) :
  0 <= b ->
  (forall k, isDraw (fst (draws k)) /\ isDraw (snd (draws k))) ->
  let p := Main.generateRandomPosition M b hr draws fallbackDraw in
  (exists k,
     (k < 50)%nat
     /\ outsideHouse M b hr draws k
     /\ (forall j, (j < k)%nat -> ~ outsideHouse M b hr draws j)
     /\ p = Main.attemptPosition b (draws k)
     /\ Qabs (fst p) <= b /\ Qabs (snd p) <= b
     /\ hr < Math_sqrt M (fst p * fst p + snd p * snd p))
  \/ ((forall j, (j < 50)%nat -> ~ outsideHouse M b hr draws j)
      /\ p = (Math_cos M (fallbackDraw * Math_PI * 2) * (b * 0.8),
              Math_sin M (fallbackDraw * Math_PI * 2) * (b * 0.8))).
Proof.
  intros Hb Hd p. unfold p, Main.generateRandomPosition.
  destruct (attemptLoop_first M b hr draws Main.maxAttempts 0)
    as [(k & Hk & Ho & Hf & Er)|[Hall Er]]; rewrite Er.
  - left. exists k. unfold Main.maxAttempts in Hk.
    split; [lia|]. split; [exact Ho|].
    split; [intros j Hj; apply Hf; lia|]. split; [reflexivity|].
    destruct (attemptPosition_in_square b (draws k) Hb (proj1 (Hd k))
                (proj2 (Hd k))) as [Px Pz].
    split; [exact Px|]. split; [exact Pz|exact Ho].
  - right. split; [|reflexivity].
    intros j Hj. apply Hall. unfold Main.maxAttempts. lia.
Qed.

Lemma generateRandomPosition_first_valid_witness :
  0 <= 11.25
  /\ Main.generateRandomPosition refMath 11.25 3.5
       (fun k => if (k =? 0)%nat then (0.5, 0.5) else (0.99, 0.5)) 0.3
     = Main.attemptPosition 11.25 (0.99, 0.5)
  /\ Qabs (fst (Main.attemptPosition 11.25 (0.99, 0.5))) == 11.025.
Proof.
  assert (B : 0 <= 11.25) by (unfold Qle; cbn; lia).
  split; [exact B|].
  destruct (generateRandomPosition_first_valid refMath 11.25 3.5
              (fun k => if (k =? 0)%nat then (0.5, 0.5) else (0.99, 0.5)) 0.3 B)
    as [(k & _ & _ & _ & _)|[_ _]].
  - intro k. destruct (k =? 0)%nat; cbn [fst snd]; unfold isDraw;
      repeat split; lra.
  - split; [vm_compute; reflexivity|reflexivity].
  - split; [vm_compute; reflexivity|reflexivity].
Defined.

(** ** Main loop: speech *)

Lemma nth_draw_in {A : Type} (u : Q) (l : list A) (d : A) :
  isDraw u -> l <> [] ->
  In (nth (Z.to_nat (Math_floor (u * inject_Z (Z.of_nat (List.length l))))) l d) l.
Proof.
  intros Hu Hl. apply nth_In.
  apply (randomIndex_lt u (List.length l) Hu).
  destruct l; [contradiction|cbn; lia].
Qed.

(** X19: [getRandomGag] returns the default text while the gags are not
    loaded or the list is empty, and otherwise, for a draw in [0, 1), one
    of the loaded gags. *)
Theorem getRandomGag_member_or_default (gags : list string) (u : Q) :
  isDraw u ->
  Main.getRandomGag None u = Main.defaultGag
  /\ Main.getRandomGag (Some []) u = Main.defaultGag
  /\ (gags <> [] -> In (Main.getRandomGag (Some gags) u) gags).
Proof.
  intro Hu. split; [reflexivity|]. split; [reflexivity|].
  intro Hne. unfold Main.getRandomGag.
  destruct gags as [|g rest]; [contradiction|].
  cbn [List.length Nat.eqb]. cbv zeta.
  apply (nth_draw_in u (g :: rest) Main.defaultGag Hu). discriminate.
Qed.

Lemma getRandomGag_member_or_default_witness :
  isDraw 0.7
  /\ In (Main.getRandomGag (Some ["a"; "b"; "c"]%string) 0.7)
        ["a"; "b"; "c"]%string.
Proof.
  assert (D : isDraw 0.7) by (unfold isDraw; split; lra).
  split; [exact D|].
  apply (proj2 (proj2 (getRandomGag_member_or_default
                         ["a"; "b"; "c"]%string 0.7 D))).
  discriminate.
Defined.

(** X20: when [updateSpeechBubbles] asks an avatar to speak, that avatar
    is not the first one (index 0), is an index of the array, and its
    bubble was not showing; the call records the current two-hour block
    and the time, so a further call within the same block asks nobody and
    changes nothing.  The call throws only on a ready avatar that has no
    bubble, and then the time of the speech is not recorded; with a bubble
    for every avatar it does not throw. *)
Theorem updateSpeechBubbles_speaker (gvrms : list Gvrm)
    (gagsData : option (list string)) (vt : Q) (now : Z) (uIndex uGag : Q)
    (sp : Main.Speech) :
  isDraw uIndex ->
  let r := Main.updateSpeechBubbles gvrms gagsData vt now uIndex uGag sp in
  (forall k, snd r = Main.Asked k ->
     (1 <= k < List.length gvrms)%nat
     /\ Main.isShown (Main.speechBubbles sp) k = false
     /\ Main.lastTwoHourBlock (fst r) = Math_floor (vt / 2)
     /\ Main.lastRandomSpeechTime (fst r) = now
     /\ (forall vt' now' u1 u2,
           Math_floor (vt' / 2) = Math_floor (vt / 2) ->
           Main.updateSpeechBubbles gvrms gagsData vt' now' u1 u2 (fst r)
           = (fst r, Main.Nobody)))
  /\ (forall k, snd r = Main.Threw k ->
        (1 <= k < List.length gvrms)%nat
        /\ (exists g, nth_error gvrms k = Some g /\ isReady g = true)
        /\ (forall b, nth_error (Main.speechBubbles sp) k <> Some (Some b))
        /\ Main.lastTwoHourBlock (fst r) = Math_floor (vt / 2)
        /\ Main.lastRandomSpeechTime (fst r) = Main.lastRandomSpeechTime sp)
  /\ ((forall i, (i < List.length gvrms)%nat ->
         exists b, nth_error (Main.speechBubbles sp) i = Some (Some b)) ->
      forall k, snd r <> Main.Threw k).
Proof.
  intros Hu r.
  assert (Main_case :
    (snd r = Main.Nobody)
    \/ exists k,
         (1 <= k < List.length gvrms)%nat
         /\ Main.isShown (Main.speechBubbles sp) k = false
         /\ ((exists bubbles,
                r = (Main.mkSpeech bubbles (Math_floor (vt / 2)) now,
                     Main.Asked k))
             \/ (r = (Main.mkSpeech (Main.speechBubbles sp)
                        (Math_floor (vt / 2)) (Main.lastRandomSpeechTime sp),
                      Main.Threw k)
                 /\ (exists g, nth_error gvrms k = Some g /\ isReady g = true)
                 /\ (forall b,
                       nth_error (Main.speechBubbles sp) k <> Some (Some b))))).
  { unfold r, Main.updateSpeechBubbles. cbv zeta.
    destruct (negb (Math_floor (vt / 2) =? Main.lastTwoHourBlock sp)%Z
              && (1 <? List.length gvrms)%nat
              && (1000 <? now - Main.lastRandomSpeechTime sp)%Z);
      [|left; reflexivity].
    destruct (Nat.ltb_spec 0
                (List.length (Main.availableIndices (List.length gvrms)
                                (Main.speechBubbles sp)))) as [Hne|Hemp];
      [|left; reflexivity].
    right.
    set (k := nth (Z.to_nat (Math_floor
                    (uIndex * inject_Z (Z.of_nat (List.length
                       (Main.availableIndices (List.length gvrms)
                          (Main.speechBubbles sp)))))))
                (Main.availableIndices (List.length gvrms)
                   (Main.speechBubbles sp)) O).
    assert (Hin : In k (Main.availableIndices (List.length gvrms)
                          (Main.speechBubbles sp))).
    { apply nth_draw_in; [exact Hu|].
      intro H0. rewrite H0 in Hne. cbn in Hne. lia. }
    unfold Main.availableIndices in Hin. apply filter_In in Hin.
    destruct Hin as [Hseq Hshown]. apply in_seq in Hseq.
    apply negb_true_iff in Hshown.
    exists k. split; [lia|]. split; [exact Hshown|].
    unfold Main.showSpeechBubble.
    destruct (nth_error gvrms k) as [g|] eqn:Eg;
      [|left; eexists; reflexivity].
    destruct (isReady g) eqn:Er; [|left; eexists; reflexivity].
    destruct (nth_error (Main.speechBubbles sp) k) as [[b|]|] eqn:Eb.
    - left. eexists. reflexivity.
    - right. split; [reflexivity|]. split; [exists g; split; [reflexivity|exact Er]|].
      intros b. discriminate.
    - right. split; [reflexivity|]. split; [exists g; split; [reflexivity|exact Er]|].
      intros b. discriminate. }
  split; [|split].
  - intros k Hk. destruct Main_case as [N|(k' & Hr & Hs & [[bubbles E]|[E _]])];
      [rewrite N in Hk; discriminate| |rewrite E in Hk; discriminate].
    rewrite E in Hk |- *. cbn [snd fst] in *. injection Hk as <-.
    split; [exact Hr|]. split; [exact Hs|].
    cbn [Main.lastTwoHourBlock Main.lastRandomSpeechTime].
    split; [reflexivity|]. split; [reflexivity|].
    intros vt' now' u1 u2 Hb. unfold Main.updateSpeechBubbles. cbv zeta.
    cbn [Main.lastTwoHourBlock]. rewrite Hb, Z.eqb_refl. reflexivity.
  - intros k Hk.
    destruct Main_case as [N|(k' & Hr & Hs & [[bubbles E]|[E [Hg Hb]]])];
      [rewrite N in Hk; discriminate|rewrite E in Hk; discriminate|].
    rewrite E in Hk |- *. cbn [snd fst] in *. injection Hk as <-.
    split; [exact Hr|]. split; [exact Hg|]. split; [exact Hb|].
    split; reflexivity.
  - intros Hall k Hk.
    destruct Main_case as [N|(k' & Hr & Hs & [[bubbles E]|[E [Hg Hb]]])];
      [rewrite N in Hk; discriminate|rewrite E in Hk; discriminate|].
    destruct (Hall k' ltac:(lia)) as [b Eb]. exact (Hb b Eb).
Qed.

Lemma updateSpeechBubbles_speaker_witness :
  isDraw 0.5
  /\ snd (Main.updateSpeechBubbles sceneReady.(gvrms) None 10.2 5000 0.5 0.5
            (Main.mkSpeech
               [Some (Main.mkBubble false EmptyString); Some (Main.mkBubble false EmptyString)]
               4 0)) = Main.Asked 1%nat
  /\ (1 <= 1 < List.length sceneReady.(gvrms))%nat.
Proof.
  assert (D : isDraw 0.5) by (unfold isDraw; split; lra).
  split; [exact D|]. split; [reflexivity|].
  exact (proj1 (proj1 (updateSpeechBubbles_speaker sceneReady.(gvrms) None
                         10.2 5000 0.5 0.5
                         (Main.mkSpeech
                            [Some (Main.mkBubble false EmptyString);
                             Some (Main.mkBubble false EmptyString)] 4 0) D)
                  1%nat eq_refl)).
Defined.

(** ** Performance system: one character at a time *)

Lemma nth_updateNth_other {A : Type} (f : A -> A) (l : list A) (i j : nat)
    (d : A) :
  i <> j -> nth j (updateNth i f l) d = nth j l d.
Proof.
  revert i j. induction l as [|x l IH]; intros [|i] [|j] H; cbn; auto;
    try contradiction.
Qed.

Lemma nth_updateNth_same {A : Type} (f : A -> A) (l : list A) (i : nat)
    (d : A) :
  (i < List.length l)%nat -> nth i (updateNth i f l) d = f (nth i l d).
Proof.
  revert i. induction l as [|x l IH]; intros [|i] H; cbn in *; auto; try lia.
  apply IH. lia.
Qed.

Ltac perf_simpl :=
  unfold Performance.view, Performance.setGvrm, Performance.setState,
    Performance.setVelocity;
  cbn [Performance.gvrms Performance.characterStates
       Performance.characterFallVelocities].

Lemma stepCharacter_other (N : nat) (gd : option (list string))
    (x : Performance.FrameInput) (i j : nat) (p : Performance.t) :
  j <> i ->
  Performance.view (Performance.stepCharacter N gd x j p) i
  = Performance.view p i
  /\ List.length (Performance.gvrms (Performance.stepCharacter N gd x j p))
     = List.length (Performance.gvrms p).
Proof.
  intro Hne. unfold Performance.stepCharacter.
  destruct (nth_error (Performance.gvrms p) j) as [g|]; [|split; reflexivity].
  destruct (negb (isReady g)); [split; reflexivity|].
  destruct (nth_error (Performance.characterStates p) j) as [[| | |]|];
    cbv zeta; split_ifs; perf_simpl;
    rewrite ?updateNth_length, ?nth_error_updateNth_other,
      ?nth_updateNth_other by exact Hne;
    split; reflexivity.
Qed.

Lemma stepCharacter_length (N : nat) (gd : option (list string))
    (x : Performance.FrameInput) (j : nat) (p : Performance.t) :
  List.length (Performance.gvrms (Performance.stepCharacter N gd x j p))
  = List.length (Performance.gvrms p).
Proof.
  unfold Performance.stepCharacter.
  destruct (nth_error (Performance.gvrms p) j) as [g|]; [|reflexivity].
  destruct (negb (isReady g)); [reflexivity|].
  destruct (nth_error (Performance.characterStates p) j) as [[| | |]|];
    cbv zeta; split_ifs; perf_simpl; rewrite ?updateNth_length; reflexivity.
Qed.

Lemma steps_other (N : nat) (gd : option (list string))
    (x : Performance.FrameInput) (i : nat) (js : list nat) :
  forall p : Performance.t,
  ~ In i js ->
  Performance.view
    (fold_left (fun q j => Performance.stepCharacter N gd x j q) js p) i
  = Performance.view p i.
Proof.
  induction js as [|j js IH]; intros p Hn; [reflexivity|].
  cbn [fold_left]. rewrite IH by (intro H; apply Hn; right; exact H).
  apply stepCharacter_other. intro E. apply Hn. left. exact E.
Qed.

Lemma steps_length (N : nat) (gd : option (list string))
    (x : Performance.FrameInput) (js : list nat) :
  forall p : Performance.t,
  List.length (Performance.gvrms
                 (fold_left (fun q j => Performance.stepCharacter N gd x j q)
                    js p))
  = List.length (Performance.gvrms p).
Proof.
  induction js as [|j js IH]; intro p; [reflexivity|].
  cbn [fold_left]. rewrite IH. apply stepCharacter_length.
Qed.

(** In the loop, character [i] is stepped once, on a state in which it is
    as it was at the start of the frame. *)
Lemma loop_view (N : nat) (gd : option (list string))
    (x : Performance.FrameInput) (p : Performance.t) (i : nat) :
  (i < List.length (Performance.gvrms p))%nat ->
  exists q,
    Performance.view q i = Performance.view p i
    /\ Performance.view (Performance.updatePerformanceSystem N gd x p) i
       = Performance.view (Performance.stepCharacter N gd x i q) i.
Proof.
  intro Hi. unfold Performance.updatePerformanceSystem.
  assert (E : seq 0 (List.length (Performance.gvrms p))
              = seq 0 i ++ i :: seq (S i) (List.length (Performance.gvrms p) - S i)).
  { replace (List.length (Performance.gvrms p))
      with (i + S (List.length (Performance.gvrms p) - S i))%nat at 1 by lia.
    rewrite seq_app. cbn [seq]. reflexivity. }
  rewrite E, fold_left_app. cbn [fold_left].
  exists (fold_left (fun q j => Performance.stepCharacter N gd x j q)
            (seq 0 i) p).
  split.
  - apply steps_other. rewrite in_seq. lia.
  - apply steps_other. rewrite in_seq. lia.
Qed.

Lemma update_length (N : nat) (gd : option (list string))
    (x : Performance.FrameInput) (p : Performance.t) :
  List.length (Performance.gvrms (Performance.updatePerformanceSystem N gd x p))
  = List.length (Performance.gvrms p).
Proof. apply steps_length. Qed.

Lemma view_index (p : Performance.t) (i : nat) (g : Gvrm)
    (st : option Performance.CharacterState) (v : Q) :
  Performance.view p i = (Some g, st, v) ->
  (i < List.length (Performance.gvrms p))%nat.
Proof.
  intro H. unfold Performance.view in H. injection H as Hg _ _.
  apply nth_error_Some. rewrite Hg. discriminate.
Qed.


(** The step of a falling character, read on its own view. *)
Lemma step_falling (N : nat) (gd : option (list string))
    (x : Performance.FrameInput) (q : Performance.t) (i : nat) (g : Gvrm)
    (v : Q) :
  Performance.view q i = (Some g, Some Performance.falling, v) ->
  isReady g = true ->
  (i < List.length (Performance.characterFallVelocities q))%nat ->
  Performance.view (Performance.stepCharacter N gd x i q) i
  = if posY g - (v + Performance.GRAVITY) <=? - (100) then
      (Some (setYaw Math_PI
               (Performance.placeAt (Performance.watchingX N i) 0 5
                  (Performance.placeAt (posX g)
                     (posY g - (v + Performance.GRAVITY)) (posZ g) g))),
       Some Performance.watching, v + Performance.GRAVITY)
    else
      (Some (Performance.placeAt (posX g)
               (posY g - (v + Performance.GRAVITY)) (posZ g) g),
       Some Performance.falling, v + Performance.GRAVITY).
Proof.
  intros Hv Hr Hl. pose proof (view_index q i g _ v Hv) as Hi.
  unfold Performance.view in Hv. injection Hv as Hg Hs Hvel.
  unfold Performance.stepCharacter. rewrite Hg, Hr, Hs. cbn [negb]. cbv zeta.
  rewrite Hvel.
  destruct (posY g - (v + Performance.GRAVITY) <=? - (100)); perf_simpl;
    rewrite ?nth_error_updateNth_same, ?Hg, ?Hs,
      ?(nth_updateNth_same _ _ _ 0 Hl);
    cbn [option_map]; reflexivity.
Qed.

Lemma stepCharacter_velocities (N : nat) (gd : option (list string))
    (x : Performance.FrameInput) (j : nat) (p : Performance.t) :
  List.length
    (Performance.characterFallVelocities (Performance.stepCharacter N gd x j p))
  = List.length (Performance.characterFallVelocities p).
Proof.
  unfold Performance.stepCharacter.
  destruct (nth_error (Performance.gvrms p) j) as [g|]; [|reflexivity].
  destruct (negb (isReady g)); [reflexivity|].
  destruct (nth_error (Performance.characterStates p) j) as [[| | |]|];
    cbv zeta; split_ifs; perf_simpl; rewrite ?updateNth_length; reflexivity.
Qed.

Lemma update_velocities (N : nat) (gd : option (list string))
    (x : Performance.FrameInput) (p : Performance.t) :
  List.length
    (Performance.characterFallVelocities
       (Performance.updatePerformanceSystem N gd x p))
  = List.length (Performance.characterFallVelocities p).
Proof.
  unfold Performance.updatePerformanceSystem.
  generalize (seq 0 (List.length (Performance.gvrms p))). intro js.
  revert p. induction js as [|j js IH]; intro p; [reflexivity|].
  cbn [fold_left]. rewrite IH. apply stepCharacter_velocities.
Qed.

Lemma steps_velocities (N : nat) (gd : option (list string))
    (x : Performance.FrameInput) (js : list nat) :
  forall p : Performance.t,
  List.length
    (Performance.characterFallVelocities
       (fold_left (fun q j => Performance.stepCharacter N gd x j q) js p))
  = List.length (Performance.characterFallVelocities p).
Proof.
  induction js as [|j js IH]; intro p; [reflexivity|].
  cbn [fold_left]. rewrite IH. apply stepCharacter_velocities.
Qed.

(** As [loop_view], with the length of the velocity array. *)
Lemma loop_view_velocities (N : nat) (gd : option (list string))
    (x : Performance.FrameInput) (p : Performance.t) (i : nat) :
  (i < List.length (Performance.gvrms p))%nat ->
  exists q,
    Performance.view q i = Performance.view p i
    /\ List.length (Performance.characterFallVelocities q)
       = List.length (Performance.characterFallVelocities p)
    /\ Performance.view (Performance.updatePerformanceSystem N gd x p) i
       = Performance.view (Performance.stepCharacter N gd x i q) i.
Proof.
  intro Hi. unfold Performance.updatePerformanceSystem.
  assert (E : seq 0 (List.length (Performance.gvrms p))
              = seq 0 i ++ i :: seq (S i) (List.length (Performance.gvrms p) - S i)).
  { replace (List.length (Performance.gvrms p))
      with (i + S (List.length (Performance.gvrms p) - S i))%nat at 1 by lia.
    rewrite seq_app. cbn [seq]. reflexivity. }
  rewrite E, fold_left_app. cbn [fold_left].
  exists (fold_left (fun q j => Performance.stepCharacter N gd x j q)
            (seq 0 i) p).
  split; [|split].
  - apply steps_other. rewrite in_seq. lia.
  - apply steps_velocities.
  - apply steps_other. rewrite in_seq. lia.
Qed.



Lemma show0_view :
  Performance.view show0 1
  = (Some (Performance.placeAt 0 0 (- (10))
             (setYaw Math_PI
                (Performance.placeAt (Performance.watchingX 3 1) 0 5 avatar1))),
     Some Performance.walking_to_center, 0).
Proof. reflexivity. Qed.


Lemma inject_S (n : nat) :
  inject_Z (Z.of_nat (S n)) == inject_Z (Z.of_nat n) + 1.
Proof.
  rewrite Nat2Z.inj_succ. unfold Z.succ. rewrite inject_Z_plus. reflexivity.
Qed.

Lemma inject_nat_nonneg (n : nat) : 0 <= inject_Z (Z.of_nat n).
Proof. change 0 with (inject_Z 0). rewrite <- Zle_Qle. lia. Qed.

(** *** The walk-in and the fall in binary64 *)

Lemma holdsAlong_spec {A : Type} (step : A -> A) (P : nat -> A -> bool)
    (n : nat) :
  forall (j : nat) (a : A),
  holdsAlong step P n j a = true ->
  forall m, (m < n)%nat -> P (j + m)%nat (after step m a) = true.
Proof.
  induction n as [|n IH]; intros j a H m Hm; [lia|].
  cbn [holdsAlong] in H. apply andb_true_iff in H. destruct H as [H0 H1].
  destruct m as [|m].
  - rewrite Nat.add_0_r. exact H0.
  - cbn [after]. replace (j + S m)%nat with (S j + m)%nat by lia.
    apply IH; [exact H1|lia].
Qed.

Ltac perf64_simpl :=
  unfold Performance.view, Performance.setGvrm, Performance.setState,
    Performance.setVelocity;
  cbn [Performance.gvrms Performance.characterStates
       Performance.characterFallVelocities].

Lemma stepCharacter64_other (N : nat) (gd : option (list string))
    (x : Performance.FrameInput) (i j : nat) (p : Performance.t) :
  j <> i ->
  Performance.view (Performance64.stepCharacter N gd x j p) i
  = Performance.view p i.
Proof.
  intro Hne. unfold Performance64.stepCharacter.
  destruct (nth_error (Performance.gvrms p) j) as [g|]; [|reflexivity].
  destruct (negb (isReady g)); [reflexivity|].
  destruct (nth_error (Performance.characterStates p) j) as [[| | |]|];
    cbv zeta; split_ifs; perf64_simpl;
    rewrite ?updateNth_length, ?nth_error_updateNth_other,
      ?nth_updateNth_other by exact Hne;
    reflexivity.
Qed.

Lemma stepCharacter64_lengths (N : nat) (gd : option (list string))
    (x : Performance.FrameInput) (j : nat) (p : Performance.t) :
  List.length (Performance.gvrms (Performance64.stepCharacter N gd x j p))
  = List.length (Performance.gvrms p)
  /\ List.length
       (Performance.characterFallVelocities
          (Performance64.stepCharacter N gd x j p))
     = List.length (Performance.characterFallVelocities p).
Proof.
  unfold Performance64.stepCharacter.
  destruct (nth_error (Performance.gvrms p) j) as [g|]; [|split; reflexivity].
  destruct (negb (isReady g)); [split; reflexivity|].
  destruct (nth_error (Performance.characterStates p) j) as [[| | |]|];
    cbv zeta; split_ifs; perf64_simpl; rewrite ?updateNth_length;
    split; reflexivity.
Qed.

Lemma steps64 (N : nat) (gd : option (list string))
    (x : Performance.FrameInput) (i : nat) (js : list nat) :
  forall p : Performance.t,
  let q := fold_left (fun q j => Performance64.stepCharacter N gd x j q) js p in
  (~ In i js -> Performance.view q i = Performance.view p i)
  /\ List.length (Performance.gvrms q) = List.length (Performance.gvrms p)
  /\ List.length (Performance.characterFallVelocities q)
     = List.length (Performance.characterFallVelocities p).
Proof.
  induction js as [|j js IH]; intros p; cbv zeta.
  - split; [reflexivity|]. split; reflexivity.
  - cbn [fold_left].
    destruct (IH (Performance64.stepCharacter N gd x j p)) as (V & L & W).
    destruct (stepCharacter64_lengths N gd x j p) as [L1 W1].
    split; [|split; [rewrite L; exact L1|rewrite W; exact W1]].
    intro Hn. rewrite V by (intro H; apply Hn; right; exact H).
    apply stepCharacter64_other. intro E. apply Hn. left. exact E.
Qed.

(** In the loop, character [i] is stepped once, on a state in which it is
    as it was at the start of the frame. *)
Lemma loop64_view (N : nat) (gd : option (list string))
    (x : Performance.FrameInput) (p : Performance.t) (i : nat) :
  (i < List.length (Performance.gvrms p))%nat ->
  exists q,
    Performance.view q i = Performance.view p i
    /\ List.length (Performance.characterFallVelocities q)
       = List.length (Performance.characterFallVelocities p)
    /\ Performance.view (Performance64.updatePerformanceSystem N gd x p) i
       = Performance.view (Performance64.stepCharacter N gd x i q) i
    /\ List.length
         (Performance.characterFallVelocities
            (Performance64.updatePerformanceSystem N gd x p))
       = List.length (Performance.characterFallVelocities p).
Proof.
  intro Hi. unfold Performance64.updatePerformanceSystem.
  assert (E : seq 0 (List.length (Performance.gvrms p))
              = seq 0 i ++ i :: seq (S i) (List.length (Performance.gvrms p) - S i)).
  { replace (List.length (Performance.gvrms p))
      with (i + S (List.length (Performance.gvrms p) - S i))%nat at 1 by lia.
    rewrite seq_app. cbn [seq]. reflexivity. }
  rewrite E. clear E. rewrite fold_left_app. cbn [fold_left].
  exists (fold_left (fun q j => Performance64.stepCharacter N gd x j q)
            (seq 0 i) p).
  destruct (steps64 N gd x i (seq 0 i) p) as (V1 & _ & W1).
  cbv zeta in V1, W1.
  split; [apply V1; rewrite in_seq; lia|]. split; [exact W1|].
  destruct (steps64 N gd x i
              (seq (S i) (List.length (Performance.gvrms p) - S i))
              (Performance64.stepCharacter N gd x i
                 (fold_left (fun q j => Performance64.stepCharacter N gd x j q)
                    (seq 0 i) p))) as (V2 & _ & W2).
  cbv zeta in V2, W2.
  split; [apply V2; rewrite in_seq; lia|].
  rewrite W2, (proj2 (stepCharacter64_lengths N gd x i _)). exact W1.
Qed.

(** The step of a walking character in binary64, read on its own view. *)
Lemma step64_walking (N : nat) (gd : option (list string))
    (x : Performance.FrameInput) (q : Performance.t) (i : nat) (g : Gvrm)
    (v : Q) :
  Performance.view q i = (Some g, Some Performance.walking_to_center, v) ->
  isReady g = true ->
  Performance.view (Performance64.stepCharacter N gd x i q) i
  = if Performance64.farFromCentre (posZ g) then
      (Some (setYaw Math_PI
               (Performance.placeAt (posX g) (posY g)
                  (Performance64.walkStep (posZ g)) g)),
       Some Performance.walking_to_center, v)
    else
      (Some (Performance.placeAt (posX g) (posY g) 0 g),
       Some Performance.performing, v).
Proof.
  intros Hv Hr. pose proof (view_index q i g _ v Hv) as Hi.
  unfold Performance.view in Hv. injection Hv as Hg Hs Hvel.
  unfold Performance64.stepCharacter, Performance64.farFromCentre,
    Performance64.walkStep.
  rewrite Hg, Hr, Hs. cbn [negb]. cbv zeta.
  destruct (Double.round 0.1 <? Math_abs (Double.round (0 - posZ g)));
    perf64_simpl;
    rewrite ?nth_error_updateNth_same, ?Hg, ?Hs, ?Hvel; reflexivity.
Qed.

(** The step of a falling character in binary64, read on its own view. *)
Lemma step64_falling (N : nat) (gd : option (list string))
    (x : Performance.FrameInput) (q : Performance.t) (i : nat) (g : Gvrm)
    (v : Q) :
  Performance.view q i = (Some g, Some Performance.falling, v) ->
  isReady g = true ->
  (i < List.length (Performance.characterFallVelocities q))%nat ->
  Performance.view (Performance64.stepCharacter N gd x i q) i
  = if Performance64.keepsFalling (v, posY g) then
      (Some (Performance.placeAt (posX g)
               (snd (Performance64.fallStep (v, posY g))) (posZ g) g),
       Some Performance.falling, fst (Performance64.fallStep (v, posY g)))
    else
      (Some (setYaw Math_PI
               (Performance.placeAt (Performance64.watchingX N i) 0 5
                  (Performance.placeAt (posX g)
                     (snd (Performance64.fallStep (v, posY g))) (posZ g) g))),
       Some Performance.watching, fst (Performance64.fallStep (v, posY g))).
Proof.
  intros Hv Hr Hl. pose proof (view_index q i g _ v Hv) as Hi.
  unfold Performance.view in Hv. injection Hv as Hg Hs Hvel.
  unfold Performance64.stepCharacter, Performance64.keepsFalling,
    Performance64.fallStep.
  rewrite Hg, Hr, Hs. cbn [negb fst snd]. cbv zeta. rewrite Hvel.
  destruct (Double.round (posY g - Double.round (v + Performance64.GRAVITY))
            <=? - (100)); cbn [negb]; perf64_simpl;
    rewrite ?nth_error_updateNth_same, ?Hg, ?Hs,
      ?(nth_updateNth_same _ _ _ 0 Hl);
    cbn [option_map]; reflexivity.
Qed.

Lemma frames64_app (N : nat) (gd : option (list string))
    (xs ys : list Performance.FrameInput) :
  forall p : Performance.t,
  Performance64.frames N gd (xs ++ ys) p
  = Performance64.frames N gd ys (Performance64.frames N gd xs p).
Proof.
  induction xs as [|x xs IH]; intro p; [reflexivity|].
  cbn [app Performance64.frames]. apply IH.
Qed.

(** A performer walks on as long as each frame sees it far from the
    centre; its z follows [walkStep]. *)
Lemma walking_frames (N : nat) (gd : option (list string)) (i : nat) (v : Q)
    (xs : list Performance.FrameInput) :
  forall (p : Performance.t) (g : Gvrm),
  Performance.view p i = (Some g, Some Performance.walking_to_center, v) ->
  isReady g = true ->
  (forall m, (m < List.length xs)%nat ->
     Performance64.farFromCentre
       (after Performance64.walkStep m (posZ g)) = true) ->
  exists g',
    Performance.view (Performance64.frames N gd xs p) i
    = (Some g', Some Performance.walking_to_center, v)
    /\ isReady g' = true
    /\ posZ g' = after Performance64.walkStep (List.length xs) (posZ g)
    /\ posX g' = posX g /\ posY g' = posY g.
Proof.
  induction xs as [|x xs IH]; intros p g Hv Hr Hfar.
  - exists g. cbn [Performance64.frames List.length after].
    split; [exact Hv|]. split; [exact Hr|]. split; [reflexivity|].
    split; reflexivity.
  - cbn [Performance64.frames List.length after].
    destruct (loop64_view N gd x p i (view_index p i g _ v Hv))
      as (q & Hq & _ & E & _).
    rewrite Hv in Hq.
    rewrite (step64_walking N gd x q i g v Hq Hr) in E.
    pose proof (Hfar O ltac:(cbn [List.length]; lia)) as F0.
    cbn [after] in F0. rewrite F0 in E.
    destruct (IH _ _ E) as (g' & Hv' & Hr' & Hz' & Hx' & Hy').
    + exact Hr.
    + intros m Hm. cbn [setYaw Performance.placeAt posZ].
      apply (Hfar (S m)). cbn [List.length]. lia.
    + exists g'. split; [exact Hv'|]. split; [exact Hr'|].
      cbn [setYaw Performance.placeAt posX posY posZ] in Hz', Hx', Hy'.
      split; [exact Hz'|]. split; assumption.
Qed.

(** The walk from z = -10: 198 frames far from the centre, each within
    2^-40 of the exact place, and the 199th within reach of the centre. *)
Lemma walk_from_entrance :
  holdsAlong Performance64.walkStep
    (fun _ z => Performance64.farFromCentre z) 198 0 (- (10)) = true
  /\ holdsAlong Performance64.walkStep Performance64.nearWalk 199 0 (- (10))
     = true
  /\ Performance64.farFromCentre
       (after Performance64.walkStep 198 (- (10))) = false.
Proof. split; [|split]; vm_compute; reflexivity. Qed.

(** Where the 198 frames leave the performer: -0.09999999999999236. *)
Example walk_from_entrance_ends :
  after Performance64.walkStep 198 (- (10))
  == - (7205759403792243 # 72057594037927936).
Proof. vm_compute. reflexivity. Qed.

(** X22: a ready performer placed at z = -10, where [startNextPerformer]
    puts it, walks in for 198 frames in binary64: after n of them it is
    still walking, within 2^-40 of z = -10 + 0.05 n, with x and y as they
    were; the 199th frame puts it on z = 0 and starts the performance. *)
Theorem performer_walks_in (N : nat) (gd : option (list string))
    (xs : list Performance.FrameInput) (x : Performance.FrameInput)
    (p : Performance.t) (i : nat) (g : Gvrm) (v : Q) :
  Performance.view p i = (Some g, Some Performance.walking_to_center, v) ->
  isReady g = true ->
  posZ g = - (10) ->
  (List.length xs <= 198)%nat ->
  (exists g',
     Performance.view (Performance64.frames N gd xs p) i
     = (Some g', Some Performance.walking_to_center, v)
     /\ Qabs (posZ g'
              - (- (10) + 0.05 * inject_Z (Z.of_nat (List.length xs))))
        <= Double.pow2 (- 40)
     /\ posX g' = posX g /\ posY g' = posY g)
  /\ (List.length xs = 198%nat ->
      exists g'',
        Performance.view (Performance64.frames N gd (xs ++ [x]) p) i
        = (Some g'', Some Performance.performing, v)
        /\ posX g'' = posX g /\ posY g'' = posY g /\ posZ g'' = 0).
Proof.
  intros Hv Hr Hz Hn.
  destruct walk_from_entrance as (Far & Near & Arrive).
  destruct (walking_frames N gd i v xs p g Hv Hr)
    as (g' & Hv' & Hr' & Hz' & Hx' & Hy').
  { intros m Hm. rewrite Hz.
    apply (holdsAlong_spec _ _ _ _ _ Far m). lia. }
  rewrite Hz in Hz'. split.
  - exists g'. split; [exact Hv'|]. split; [|split; assumption].
    pose proof (holdsAlong_spec _ _ _ _ _ Near (List.length xs)
                  ltac:(lia)) as Hc.
    cbn [Nat.add] in Hc. unfold Performance64.nearWalk, Math_abs in Hc.
    apply Qleb_true in Hc. rewrite Hz'. exact Hc.
  - intro H198. rewrite frames64_app. cbn [Performance64.frames].
    destruct (loop64_view N gd x (Performance64.frames N gd xs p) i
                (view_index _ i g' _ v Hv')) as (q & Hq & _ & E & _).
    rewrite Hv' in Hq.
    rewrite (step64_walking N gd x q i g' v Hq Hr') in E.
    rewrite Hz', H198, Arrive in E. eexists. split; [exact E|].
    cbn [Performance.placeAt posX posY posZ].
    split; [exact Hx'|]. split; [exact Hy'|reflexivity].
Qed.

Lemma performer_walks_in_witness :
  (List.length (repeat frame0 198) <= 198)%nat
  /\ exists g'',
       Performance.view
         (Performance64.frames 3 (Some gags0) (repeat frame0 198 ++ [frame0])
            show0) 1
       = (Some g'', Some Performance.performing, 0)
       /\ posX g'' = 0 /\ posY g'' = 0 /\ posZ g'' = 0.
Proof.
  assert (L : (List.length (repeat frame0 198) <= 198)%nat)
    by (rewrite repeat_length; lia).
  split; [exact L|].
  apply (proj2 (performer_walks_in 3 (Some gags0) (repeat frame0 198) frame0
                  show0 1 _ 0 show0_view eq_refl eq_refl L)).
  apply repeat_length.
Defined.

(** A character falls on as long as each frame leaves it above
    y = -100; its speed and height follow [fallStep]. *)
Lemma falling_frames (N : nat) (gd : option (list string)) (i : nat)
    (xs : list Performance.FrameInput) :
  forall (p : Performance.t) (g : Gvrm) (v : Q),
  Performance.view p i = (Some g, Some Performance.falling, v) ->
  isReady g = true ->
  (i < List.length (Performance.characterFallVelocities p))%nat ->
  (forall m, (m < List.length xs)%nat ->
     Performance64.keepsFalling
       (after Performance64.fallStep m (v, posY g)) = true) ->
  exists g' v',
    Performance.view (Performance64.frames N gd xs p) i
    = (Some g', Some Performance.falling, v')
    /\ isReady g' = true
    /\ (i < List.length
              (Performance.characterFallVelocities
                 (Performance64.frames N gd xs p)))%nat
    /\ (v', posY g')
       = after Performance64.fallStep (List.length xs) (v, posY g)
    /\ posX g' = posX g /\ posZ g' = posZ g.
Proof.
  induction xs as [|x xs IH]; intros p g v Hv Hr Hl Hfall.
  - exists g, v. cbn [Performance64.frames List.length after].
    split; [exact Hv|]. split; [exact Hr|]. split; [exact Hl|].
    split; [reflexivity|]. split; reflexivity.
  - cbn [Performance64.frames List.length after].
    destruct (loop64_view N gd x p i (view_index p i g _ v Hv))
      as (q & Hq & Hlq & E & Hlu).
    rewrite Hv in Hq. rewrite <- Hlq in Hl.
    rewrite (step64_falling N gd x q i g v Hq Hr Hl) in E.
    pose proof (Hfall O ltac:(cbn [List.length]; lia)) as F0.
    cbn [after] in F0. rewrite F0 in E.
    destruct (IH _ _ _ E)
      as (g' & v' & Hv' & Hr' & Hl' & Hs' & Hx' & Hz').
    + exact Hr.
    + rewrite Hlu, <- Hlq. exact Hl.
    + intros m Hm. cbn [Performance.placeAt posY].
      rewrite <- surjective_pairing.
      apply (Hfall (S m)). cbn [List.length]. lia.
    + exists g', v'. split; [exact Hv'|]. split; [exact Hr'|].
      split; [exact Hl'|].
      cbn [Performance.placeAt posX posY posZ] in Hs', Hx', Hz'.
      rewrite <- surjective_pairing in Hs'.
      split; [exact Hs'|]. split; assumption.
Qed.

(** The fall from rest at height 0: 99 frames above y = -100, each within
    2^-40 of the exact speed and height, and the 100th at or below it. *)
Lemma fall_from_stage :
  holdsAlong Performance64.fallStep
    (fun _ s => Performance64.keepsFalling s) 99 0 (0, 0) = true
  /\ holdsAlong Performance64.fallStep Performance64.nearFall 100 0 (0, 0)
     = true
  /\ Performance64.keepsFalling (after Performance64.fallStep 99 (0, 0))
     = false.
Proof. split; [|split]; vm_compute; reflexivity. Qed.

(** Where the 99 frames leave the character: speed 1.9800000000000013 at
    height -99.00000000000006. *)
Example fall_from_stage_ends :
  fst (after Performance64.fallStep 99 (0, 0))
  == 2229281815548397 # 1125899906842624
  /\ snd (after Performance64.fallStep 99 (0, 0))
     == - (1741626418397185 # 17592186044416).
Proof. split; vm_compute; reflexivity. Qed.

(** X23: free fall in binary64.  A ready character that starts to fall
    from the stage, at height 0 with speed 0, is still falling after n
    frames for n up to 99, with speed within 2^-40 of 0.02 n, height
    within 2^-40 of -0.01 n (n + 1), and x and z as they were; the 100th
    frame takes it to -100 or below and so to its watching place at
    height 0 on the row z = 5. *)
Theorem falling_is_uniformly_accelerated (N : nat) (gd : option (list string))
    (xs : list Performance.FrameInput) (x : Performance.FrameInput)
    (p : Performance.t) (i : nat) (g : Gvrm) :
  Performance.view p i = (Some g, Some Performance.falling, 0) ->
  isReady g = true ->
  (i < List.length (Performance.characterFallVelocities p))%nat ->
  posY g = 0 ->
  (List.length xs <= 99)%nat ->
  (exists g' v',
     Performance.view (Performance64.frames N gd xs p) i
     = (Some g', Some Performance.falling, v')
     /\ Qabs (v' - 0.02 * inject_Z (Z.of_nat (List.length xs)))
        <= Double.pow2 (- 40)
     /\ Qabs (posY g' + 0.01 * inject_Z (Z.of_nat (List.length xs))
                        * (inject_Z (Z.of_nat (List.length xs)) + 1))
        <= Double.pow2 (- 40)
     /\ posX g' = posX g /\ posZ g' = posZ g)
  /\ (List.length xs = 99%nat ->
      exists g'' v'',
        Performance.view (Performance64.frames N gd (xs ++ [x]) p) i
        = (Some g'', Some Performance.watching, v'')
        /\ posX g'' = Performance64.watchingX N i
        /\ posY g'' = 0 /\ posZ g'' = 5 /\ yaw g'' = Math_PI).
Proof.
  intros Hv Hr Hl Hy Hn.
  destruct fall_from_stage as (Fall & Near & Land).
  destruct (falling_frames N gd i xs p g 0 Hv Hr Hl)
    as (g' & v' & Hv' & Hr' & Hl' & Hs' & Hx' & Hz').
  { intros m Hm. rewrite Hy.
    apply (holdsAlong_spec _ _ _ _ _ Fall m). lia. }
  rewrite Hy in Hs'. split.
  - exists g', v'. split; [exact Hv'|].
    pose proof (holdsAlong_spec _ _ _ _ _ Near (List.length xs)
                  ltac:(lia)) as Hc.
    cbn [Nat.add] in Hc. rewrite <- Hs' in Hc.
    unfold Performance64.nearFall, Math_abs in Hc. cbn [fst snd] in Hc.
    apply andb_true_iff in Hc. destruct Hc as [C1 C2].
    apply Qleb_true in C1. apply Qleb_true in C2.
    split; [exact C1|]. split; [exact C2|]. split; assumption.
  - intro H99. rewrite frames64_app. cbn [Performance64.frames].
    destruct (loop64_view N gd x (Performance64.frames N gd xs p) i
                (view_index _ i g' _ v' Hv')) as (q & Hq & Hlq & E & _).
    rewrite Hv' in Hq. rewrite <- Hlq in Hl'.
    rewrite (step64_falling N gd x q i g' v' Hq Hr' Hl') in E.
    rewrite Hs', H99, Land in E. eexists. eexists. split; [exact E|].
    cbn [setYaw Performance.placeAt posX posY posZ yaw].
    repeat split; reflexivity.
Qed.

Lemma showFalling_view :
  Performance.view showFalling 1
  = (Some (Performance.placeAt 0 0 0
             (Performance.placeAt 0 0 (- (10))
                (setYaw Math_PI
                   (Performance.placeAt (Performance.watchingX 3 1) 0 5
                      avatar1)))),
     Some Performance.falling, 0).
Proof. reflexivity. Qed.

Lemma falling_is_uniformly_accelerated_witness :
  (List.length (repeat frame0 99) <= 99)%nat
  /\ exists g'' v'',
       Performance.view
         (Performance64.frames 3 (Some gags0) (repeat frame0 99 ++ [frame0])
            showFalling) 1
       = (Some g'', Some Performance.watching, v'')
       /\ posX g'' = Performance64.watchingX 3 1
       /\ posY g'' = 0 /\ posZ g'' = 5 /\ yaw g'' = Math_PI.
Proof.
  assert (L : (List.length (repeat frame0 99) <= 99)%nat)
    by (rewrite repeat_length; lia).
  assert (V : (1 < List.length
                     (Performance.characterFallVelocities showFalling))%nat)
    by (cbn; lia).
  split; [exact L|].
  apply (proj2 (falling_is_uniformly_accelerated 3 (Some gags0)
                  (repeat frame0 99) frame0 showFalling 1 _ showFalling_view
                  eq_refl V eq_refl L)).
  apply repeat_length.
Defined.

Lemma watchingX_spacing (N : nat) :
  exists s : Q,
    0 < s /\ (forall i, Performance.watchingX N i
                        == - (5) + inject_Z (Z.of_nat i) * s)
    /\ ((2 <= N)%nat -> s * (inject_Z (Z.of_nat N) - 1) == 10)
    /\ ((N <= 1)%nat -> s == 10).
Proof.
  unfold Performance.watchingX. cbv zeta. unfold Math_max.
  destruct (inject_Z (Z.of_nat N) - 1 <? 1) eqn:E.
  - apply Qltb_true in E. exists 10. split; [lra|].
    split; [intro i; field|]. split.
    + intro H2. exfalso.
      assert (A : 2 <= inject_Z (Z.of_nat N)).
      { change 2 with (inject_Z 2). rewrite <- Zle_Qle. lia. }
      lra.
    + intros _. reflexivity.
  - apply Qltb_false in E.
    exists (10 / (inject_Z (Z.of_nat N) - 1)).
    assert (Hpos : 0 < inject_Z (Z.of_nat N) - 1) by lra.
    split.
    + apply Qlt_shift_div_l; [exact Hpos|lra].
    + split; [intro i; reflexivity|]. split.
      * intros _. field. lra.
      * intro H1. exfalso.
        assert (A : inject_Z (Z.of_nat N) <= 1).
        { change 1 with (inject_Z 1). rewrite <- Zle_Qle. lia. }
        lra.
Qed.

(** X24: the frame in which a ready falling character reaches y <= -100
    puts it back in the audience: it is watching again, at
    (watchingX, 0, 5), facing the origin; and for a character index below
    N that place is on the row, -5 <= x <= 5. *)
Theorem landing_returns_to_the_row (N : nat) (gd : option (list string))
    (x : Performance.FrameInput) (p : Performance.t) (i : nat) (g : Gvrm)
    (v : Q) :
  Performance.view p i = (Some g, Some Performance.falling, v) ->
  isReady g = true ->
  (i < List.length (Performance.characterFallVelocities p))%nat ->
  posY g - (v + 0.02) <= - (100) ->
  exists g',
    Performance.view (Performance.updatePerformanceSystem N gd x p) i
    = (Some g', Some Performance.watching, v + 0.02)
    /\ posX g' = Performance.watchingX N i
    /\ posY g' = 0 /\ posZ g' = 5 /\ yaw g' = Math_PI
    /\ ((i < N)%nat -> - (5) <= posX g' /\ posX g' <= 5).
Proof.
  intros Hv Hr Hl Hy.
  destruct (loop_view_velocities N gd x p i (view_index p i g _ v Hv))
    as (q & Hq & Hlq & E).
  rewrite Hv in Hq. rewrite <- Hlq in Hl.
  rewrite (step_falling N gd x q i g v Hq Hr Hl) in E.
  unfold Performance.GRAVITY in E.
  assert (Ec : (posY g - (v + 0.02) <=? - (100)) = true)
    by (apply Qleb_true; exact Hy).
  rewrite Ec in E. eexists. split; [exact E|].
  cbn [setYaw Performance.placeAt posX posY posZ yaw].
  repeat (split; [reflexivity|]).
  intro Hi. destruct (watchingX_spacing N) as (s & Hs & Hx & H2 & H1).
  rewrite (Hx i).
  pose proof (inject_nat_nonneg i) as Hi0.
  assert (Hi1 : inject_Z (Z.of_nat i) <= inject_Z (Z.of_nat N) - 1).
  { assert (A : inject_Z (Z.of_nat i) + 1 <= inject_Z (Z.of_nat N)).
    { change 1 with (inject_Z 1). rewrite <- inject_Z_plus, <- Zle_Qle. lia. }
    lra. }
  destruct (Nat.le_gt_cases 2 N) as [HN|HN].
  - specialize (H2 HN). split; nra.
  - assert (i = 0)%nat by lia. subst i. change (inject_Z (Z.of_nat 0)) with 0.
    split; lra.
Qed.

Lemma landing_returns_to_the_row_witness :
  exists g',
    Performance.view
      (Performance.updatePerformanceSystem 3 (Some gags0) frame0 showLanding) 1
    = (Some g', Some Performance.watching, 1.98 + 0.02)
    /\ posX g' = Performance.watchingX 3 1
    /\ posY g' = 0 /\ posZ g' = 5 /\ yaw g' = Math_PI
    /\ ((1 < 3)%nat -> - (5) <= posX g' /\ posX g' <= 5).
Proof.
  apply (landing_returns_to_the_row 3 (Some gags0) frame0 showLanding 1
           (Performance.placeAt 0 (- (99)) 0
              (Performance.placeAt 0 0 0
                 (Performance.placeAt 0 0 (- (10))
                    (setYaw Math_PI
                       (Performance.placeAt (Performance.watchingX 3 1) 0 5
                          avatar1)))))
           1.98).
  - reflexivity.
  - reflexivity.
  - cbn. lia.
  - cbn [Performance.placeAt posY]. lra.
Defined.

(** X25: the places on the watching row, used by [loadAllModels()] and by
    the landing, are evenly spaced from x = -5: different indices give
    different places, each step to the next index adds the same positive
    spacing, and with two characters or more the last one, N - 1, stands
    at x = 5. *)
Theorem watching_places_are_evenly_spaced (N i j : nat) :
  (i <> j -> ~ Performance.watchingX N i == Performance.watchingX N j)
  /\ Performance.watchingX N (S i) - Performance.watchingX N i
     == Performance.watchingX N 1 - Performance.watchingX N 0
  /\ 0 < Performance.watchingX N 1 - Performance.watchingX N 0
  /\ Performance.watchingX N 0 == - (5)
  /\ ((2 <= N)%nat -> Performance.watchingX N (N - 1) == 5).
Proof.
  destruct (watchingX_spacing N) as (s & Hs & Hx & H2 & H1).
  rewrite !Hx. split; [|split; [|split; [|split]]].
  - intros Hne E.
    assert (D : (inject_Z (Z.of_nat i) - inject_Z (Z.of_nat j)) * s == 0) by lra.
    apply Qmult_integral in D. destruct D as [D|D]; [|lra].
    apply Hne. apply Nat2Z.inj.
    assert (D' : inject_Z (Z.of_nat i) == inject_Z (Z.of_nat j)) by lra.
    rewrite inject_Z_injective in D'. exact D'.
  - rewrite inject_S. change (inject_Z (Z.of_nat 1)) with 1.
    change (inject_Z (Z.of_nat 0)) with 0. ring.
  - change (inject_Z (Z.of_nat 1)) with 1.
    change (inject_Z (Z.of_nat 0)) with 0. lra.
  - change (inject_Z (Z.of_nat 0)) with 0. ring.
  - intro HN. specialize (H2 HN).
    assert (A : inject_Z (Z.of_nat (N - 1)) == inject_Z (Z.of_nat N) - 1).
    { rewrite Nat2Z.inj_sub by lia. unfold Z.sub. rewrite inject_Z_plus.
      reflexivity. }
    rewrite A. lra.
Qed.

Lemma watching_places_are_evenly_spaced_witness :
  (1%nat <> 2%nat ->
   ~ Performance.watchingX 3 1 == Performance.watchingX 3 2)
  /\ Performance.watchingX 3 2 - Performance.watchingX 3 1
     == Performance.watchingX 3 1 - Performance.watchingX 3 0
  /\ 0 < Performance.watchingX 3 1 - Performance.watchingX 3 0
  /\ Performance.watchingX 3 0 == - (5)
  /\ ((2 <= 3)%nat -> Performance.watchingX 3 (3 - 1) == 5).
Proof. exact (watching_places_are_evenly_spaced 3 1 2). Defined.

(** X26: [startNextPerformer()] goes back to the first character when the
    index has run past the last one; a ready character at that index is
    put at (0, 0, -10) and set to walk to the centre, with its fall
    velocity as it was, and no other character is touched. *)
Theorem startNextPerformer_places_one_performer (p : Performance.t)
    (idx : nat) (g : Gvrm) (st : Performance.CharacterState) :
  idx = (if (List.length (Performance.gvrms p)
             <=? Performance.currentPerformerIndex p)%nat
         then O else Performance.currentPerformerIndex p) ->
  nth_error (Performance.gvrms p) idx = Some g ->
  isReady g = true ->
  nth_error (Performance.characterStates p) idx = Some st ->
  Performance.currentPerformerIndex (Performance.startNextPerformer p) = idx
  /\ (idx < List.length (Performance.gvrms p))%nat
  /\ Performance.view (Performance.startNextPerformer p) idx
     = (Some (Performance.placeAt 0 0 (- (10)) g),
        Some Performance.walking_to_center,
        nth idx (Performance.characterFallVelocities p) 0)
  /\ (forall j, j <> idx ->
      Performance.view (Performance.startNextPerformer p) j
      = Performance.view p j).
Proof.
  intros Hidx Hg Hr Hs. unfold Performance.startNextPerformer. cbv zeta.
  rewrite <- Hidx. cbn [Performance.gvrms]. rewrite Hg, Hr. cbn [negb].
  split; [reflexivity|]. split.
  { apply nth_error_Some. rewrite Hg. discriminate. }
  split.
  - perf_simpl. rewrite !nth_error_updateNth_same, Hg, Hs. reflexivity.
  - intros j Hj. perf_simpl.
    rewrite !nth_error_updateNth_other by (intro E; apply Hj; symmetry; exact E).
    reflexivity.
Qed.

Lemma startNextPerformer_places_one_performer_witness :
  Performance.currentPerformerIndex
    (Performance.startNextPerformer
       (Performance.mk (Performance.gvrms showLanding)
          (Performance.characterStates (loaded 3 audience))
          (Performance.characterFallVelocities showLanding) 3 0 [] 1)) = O
  /\ (0 < 3)%nat
  /\ Performance.view
       (Performance.startNextPerformer
          (Performance.mk (Performance.gvrms showLanding)
             (Performance.characterStates (loaded 3 audience))
             (Performance.characterFallVelocities showLanding) 3 0 [] 1)) 0
     = (Some (Performance.placeAt 0 0 (- (10))
                (setYaw Math_PI
                   (Performance.placeAt (Performance.watchingX 3 0) 0 5
                      avatar0))),
        Some Performance.walking_to_center, 0)
  /\ (forall j, j <> O ->
      Performance.view
        (Performance.startNextPerformer
           (Performance.mk (Performance.gvrms showLanding)
              (Performance.characterStates (loaded 3 audience))
              (Performance.characterFallVelocities showLanding) 3 0 [] 1)) j
      = Performance.view
          (Performance.mk (Performance.gvrms showLanding)
             (Performance.characterStates (loaded 3 audience))
             (Performance.characterFallVelocities showLanding) 3 0 [] 1) j).
Proof.
  exact (startNextPerformer_places_one_performer
           (Performance.mk (Performance.gvrms showLanding)
              (Performance.characterStates (loaded 3 audience))
              (Performance.characterFallVelocities showLanding) 3 0 [] 1)
           O _ Performance.watching eq_refl eq_refl eq_refl eq_refl).
Defined.

(** ** One performer at a time *)

Lemma onStage_updateNth (l : list Performance.CharacterState) (i : nat)
    (st st' : Performance.CharacterState) :
  nth_error l i = Some st ->
  (onStage (updateNth i (fun _ => st') l)
   + (if isWatching st then 0 else 1)
   = onStage l + (if isWatching st' then 0 else 1))%nat.
Proof.
  revert i. induction l as [|a l IH]; intros [|i] H; cbn in H; try discriminate.
  - injection H as ->. unfold onStage. cbn [updateNth filter].
    destruct (isWatching st), (isWatching st'); cbn [negb List.length]; lia.
  - specialize (IH i H). unfold onStage in *. cbn [updateNth filter].
    destruct (negb (isWatching a)); cbn [List.length]; lia.
Qed.

Lemma onStage_updateNth_le (l : list Performance.CharacterState) (i : nat)
    (st' : Performance.CharacterState) :
  (onStage (updateNth i (fun _ => st') l) <= onStage l + 1)%nat.
Proof.
  revert i. induction l as [|a l IH]; intros [|i]; unfold onStage in *;
    cbn [updateNth filter List.length]; try lia.
  - destruct (negb (isWatching st')), (negb (isWatching a));
      cbn [List.length]; lia.
  - specialize (IH i). destruct (negb (isWatching a)); cbn [List.length]; lia.
Qed.

Lemma onStage_repeat (n : nat) : onStage (repeat Performance.watching n) = O.
Proof.
  induction n as [|n IH]; [reflexivity|].
  unfold onStage in *. cbn [repeat filter isWatching negb]. exact IH.
Qed.

(** The body of the loop keeps the number of characters off the row plus
    the number of timers set. *)
Lemma stepCharacter_conserves (N : nat) (gd : option (list string))
    (x : Performance.FrameInput) (j : nat) (p : Performance.t) :
  (onStage (Performance.characterStates (Performance.stepCharacter N gd x j p))
   + Performance.timersSet (Performance.stepCharacter N gd x j p)
   = onStage (Performance.characterStates p) + Performance.timersSet p)%nat
  /\ (Performance.timersSet p
      <= Performance.timersSet (Performance.stepCharacter N gd x j p))%nat.
Proof.
  unfold Performance.stepCharacter.
  destruct (nth_error (Performance.gvrms p) j) as [g|]; [|split; reflexivity].
  destruct (negb (isReady g)); [split; reflexivity|].
  destruct (nth_error (Performance.characterStates p) j) as [[| | |]|] eqn:Es;
    cbv zeta; try (split; reflexivity).
  - destruct (0.1 <? Math_abs (0 - posZ g)); perf_simpl;
      cbn [Performance.characterStates Performance.timersSet];
      [split; reflexivity|].
    pose proof (onStage_updateNth _ j _ Performance.performing Es) as H.
    cbn [isWatching] in H. split; lia.
  - destruct (Performance.now x - Performance.performanceTimer p
              >=? Performance.SPEECH_DURATION)%Z;
      perf_simpl; cbn [Performance.characterStates Performance.timersSet];
      [|split; reflexivity].
    pose proof (onStage_updateNth _ j _ Performance.falling Es) as H.
    cbn [isWatching] in H. split; lia.
  - destruct (posY g - (nth j (Performance.characterFallVelocities p) 0
                        + Performance.GRAVITY) <=? - (100)); perf_simpl;
      cbn [Performance.characterStates Performance.timersSet];
      [|split; reflexivity].
    pose proof (onStage_updateNth _ j _ Performance.watching Es) as H.
    cbn [isWatching] in H. split; lia.
Qed.

Lemma update_conserves (N : nat) (gd : option (list string))
    (x : Performance.FrameInput) (p : Performance.t) :
  (onStage (Performance.characterStates
              (Performance.updatePerformanceSystem N gd x p))
   + Performance.timersSet (Performance.updatePerformanceSystem N gd x p)
   = onStage (Performance.characterStates p) + Performance.timersSet p)%nat
  /\ (Performance.timersSet p
      <= Performance.timersSet (Performance.updatePerformanceSystem N gd x p))%nat.
Proof.
  unfold Performance.updatePerformanceSystem.
  generalize (seq 0 (List.length (Performance.gvrms p))). intro js.
  revert p. induction js as [|j js IH]; intro p; [split; reflexivity|].
  cbn [fold_left].
  destruct (IH (Performance.stepCharacter N gd x j p)) as [A B].
  destruct (stepCharacter_conserves N gd x j p) as [C D].
  split; lia.
Qed.

Lemma startNextPerformer_onStage (p : Performance.t) :
  (onStage (Performance.characterStates (Performance.startNextPerformer p))
   <= onStage (Performance.characterStates p) + 1)%nat
  /\ Performance.timersSet (Performance.startNextPerformer p)
     = Performance.timersSet p.
Proof.
  unfold Performance.startNextPerformer. cbv zeta. cbn [Performance.gvrms].
  destruct (nth_error (Performance.gvrms p) _) as [g|];
    [|cbn [Performance.characterStates Performance.timersSet]; split; [lia|reflexivity]].
  destruct (negb (isReady g));
    [cbn [Performance.characterStates Performance.timersSet]; split; [lia|reflexivity]|].
  perf_simpl. cbn [Performance.characterStates Performance.timersSet].
  split; [apply onStage_updateNth_le|reflexivity].
Qed.

Lemma handle_invariant (N : nat) (gd : option (list string)) (e : ShowEvent)
    (s : Show) :
  (onStage (Performance.characterStates (system s))
   + Performance.timersSet (system s) <= 1 + timersFired s)%nat ->
  (timersFired s <= Performance.timersSet (system s))%nat ->
  (onStage (Performance.characterStates (system (handle N gd e s)))
   + Performance.timersSet (system (handle N gd e s))
   <= 1 + timersFired (handle N gd e s))%nat
  /\ (timersFired (handle N gd e s)
      <= Performance.timersSet (system (handle N gd e s)))%nat.
Proof.
  intros A B. destruct e as [x|]; cbn [handle].
  - cbn [system timersFired].
    destruct (update_conserves N gd x (system s)) as [C D]. split; lia.
  - destruct (Nat.ltb_spec (timersFired s) (Performance.timersSet (system s)))
      as [Hlt|Hge]; [|split; assumption].
    cbn [system timersFired].
    destruct (startNextPerformer_onStage (system s)) as [C D]. split; lia.
Qed.

(** X27: one performer at a time.  From the state in which all models
    are loaded, whatever frames run and whenever the timers fire, the
    characters off the watching row and the [startNextPerformer] timers
    still pending are together at most one: nobody is sent to the centre
    while another character walks, performs or falls. *)
Theorem one_performer_at_a_time (N : nat) (gd : option (list string))
    (gs : list Gvrm) (es : list ShowEvent) :
  (onStage (Performance.characterStates
              (system (runShow N gd es (mkShow (loaded N gs) 0))))
   + pendingTimers (runShow N gd es (mkShow (loaded N gs) 0)) <= 1)%nat.
Proof.
  assert (Inv : forall s,
    (onStage (Performance.characterStates (system s))
     + Performance.timersSet (system s) <= 1 + timersFired s)%nat ->
    (timersFired s <= Performance.timersSet (system s))%nat ->
    (onStage (Performance.characterStates (system (runShow N gd es s)))
     + Performance.timersSet (system (runShow N gd es s))
     <= 1 + timersFired (runShow N gd es s))%nat
    /\ (timersFired (runShow N gd es s)
        <= Performance.timersSet (system (runShow N gd es s)))%nat).
  { unfold runShow. induction es as [|e es IH]; intros s A B;
      [split; assumption|].
    cbn [fold_left]. destruct (handle_invariant N gd e s A B) as [A' B'].
    apply IH; assumption. }
  destruct (Inv (mkShow (loaded N gs) 0)) as [A B].
  - cbn [system timersFired loaded Performance.characterStates
         Performance.timersSet].
    rewrite onStage_repeat. lia.
  - cbn. lia.
  - unfold pendingTimers. lia.
Qed.

(** ** The gags of the performers *)

Lemma includes_In (k : nat) (used : list Z) :
  Performance.includes k used = true <-> In (Z.of_nat k) used.
Proof.
  unfold Performance.includes. rewrite existsb_exists. split.
  - intros (z & Hin & E). apply Z.eqb_eq in E. subst z. exact Hin.
  - intro Hin. exists (Z.of_nat k). split; [exact Hin|apply Z.eqb_refl].
Qed.

Lemma in_combine_seq {A : Type} (l : list A) :
  forall (a k : nat) (x : A),
  In (k, x) (combine (seq a (List.length l)) l)
  <-> (a <= k)%nat /\ nth_error l (k - a) = Some x.
Proof.
  induction l as [|y l IH]; intros a k x; cbn [List.length seq combine In].
  - split; [contradiction|]. intros [_ H]. destruct (k - a)%nat; discriminate.
  - rewrite IH. split.
    + intros [E|[Hle Hn]].
      * injection E as -> ->. rewrite Nat.sub_diag. split; [lia|reflexivity].
      * split; [lia|]. replace (k - a)%nat with (S (k - S a)) by lia.
        exact Hn.
    + intros [Hle Hn]. destruct (Nat.eq_dec a k) as [->|Hne].
      * rewrite Nat.sub_diag in Hn. cbn in Hn. injection Hn as ->.
        left. reflexivity.
      * right. split; [lia|].
        replace (k - a)%nat with (S (k - S a)) in Hn by lia. exact Hn.
Qed.

(** An element of [availableGags] is a gag whose index is not used. *)
Lemma availableGags_In (gags : list string) (used : list Z) (s : string) :
  In s (Performance.availableGags gags used)
  <-> exists k, nth_error gags k = Some s /\ ~ In (Z.of_nat k) used.
Proof.
  unfold Performance.availableGags. rewrite in_map_iff. split.
  - intros ([k x] & E & Hin). cbn [snd] in E. subst x.
    apply filter_In in Hin. destruct Hin as [Hc Hf]. cbn [fst] in Hf.
    apply in_combine_seq in Hc. destruct Hc as [_ Hn].
    rewrite Nat.sub_0_r in Hn. exists k. split; [exact Hn|].
    intro Hu. apply includes_In in Hu. rewrite Hu in Hf. discriminate.
  - intros (k & Hn & Hu). exists (k, s). split; [reflexivity|].
    apply filter_In. split.
    + apply in_combine_seq. rewrite Nat.sub_0_r. split; [lia|exact Hn].
    + cbn [fst]. destruct (Performance.includes k used) eqn:E; [|reflexivity].
      apply includes_In in E. contradiction.
Qed.

(** Pigeonhole: fewer used entries than gags leaves a gag available. *)
Lemma availableGags_nonempty (gags : list string) (used : list Z) :
  (List.length used < List.length gags)%nat ->
  Performance.availableGags gags used <> [].
Proof.
  intros Hlt Hnil.
  assert (Hall : incl (map Z.of_nat (seq 0 (List.length gags))) used).
  { intros z Hz. apply in_map_iff in Hz. destruct Hz as (k & <- & Hk).
    apply in_seq in Hk.
    destruct (nth_error gags k) as [s|] eqn:En.
    - destruct (in_dec Z.eq_dec (Z.of_nat k) used) as [Hin|Hnin];
        [exact Hin|].
      assert (Hs : In s (Performance.availableGags gags used)).
      { apply availableGags_In. exists k. split; assumption. }
      rewrite Hnil in Hs. contradiction.
    - apply nth_error_None in En. lia. }
  assert (Hnd : NoDup (map Z.of_nat (seq 0 (List.length gags)))).
  { apply Finite.Injective_map_NoDup; [intros a b; apply Nat2Z.inj|].
    apply seq_NoDup. }
  pose proof (NoDup_incl_length Hnd Hall) as Hlen.
  rewrite length_map, length_seq in Hlen. lia.
Qed.

Lemma indexOfFrom_spec (s : string) (l : list string) :
  forall i, In s l ->
  exists k, Performance.indexOfFrom s l i = Z.of_nat (i + k)
            /\ nth_error l k = Some s
            /\ (forall k', (k' < k)%nat -> nth_error l k' <> Some s).
Proof.
  induction l as [|x l IH]; intros i Hin; [contradiction|].
  cbn [Performance.indexOfFrom]. destruct (String.eqb_spec x s) as [->|Hne].
  - exists O. rewrite Nat.add_0_r. split; [reflexivity|].
    split; [reflexivity|]. intros k' Hk'. lia.
  - destruct Hin as [E|Hin]; [contradiction|].
    destruct (IH (S i) Hin) as (k & Ek & Hn & Hfirst).
    exists (S k). split; [rewrite Ek; f_equal; lia|].
    split; [exact Hn|]. intros [|k'] Hk'; cbn [nth_error].
    + intro E. injection E as E. contradiction.
    + apply Hfirst. lia.
Qed.

(** What one call of [getNextGag()] does on loaded, non-empty gags. *)
Lemma getNextGag_call (gags : list string) (used : list Z) (u : Q) :
  gags <> [] -> isDraw u ->
  exists s k,
    Performance.getNextGag (Some gags) used u
    = (Some s,
       (if (List.length gags <=? List.length used)%nat then [] else used)
       ++ [Z.of_nat k])
    /\ nth_error gags k = Some s
    /\ (forall k', (k' < k)%nat -> nth_error gags k' <> Some s)
    /\ exists k0, nth_error gags k0 = Some s
         /\ ~ In (Z.of_nat k0)
              (if (List.length gags <=? List.length used)%nat then []
               else used).
Proof.
  intros Hne Hu. unfold Performance.getNextGag.
  destruct (Nat.eqb_spec (List.length gags) 0) as [E0|E0].
  { destruct gags; [contradiction|discriminate]. }
  cbv zeta.
  set (used0 := if (List.length gags <=? List.length used)%nat then []
                else used).
  assert (Hlt : (List.length used0 < List.length gags)%nat).
  { unfold used0. destruct (Nat.leb_spec (List.length gags) (List.length used));
      [cbn; lia|lia]. }
  pose proof (availableGags_nonempty gags used0 Hlt) as Hav.
  assert (Hpos : (0 < List.length (Performance.availableGags gags used0))%nat).
  { destruct (Performance.availableGags gags used0); [contradiction|cbn; lia]. }
  pose proof (randomIndex_lt u _ Hu Hpos) as Hidx.
  unfold InteractionManager.randomIndex in Hidx.
  destruct (nth_error (Performance.availableGags gags used0)
              (Z.to_nat (Math_floor (u * inject_Z (Z.of_nat
                 (List.length (Performance.availableGags gags used0)))))))
    as [s|] eqn:En.
  2:{ apply nth_error_None in En. lia. }
  apply nth_error_In in En. apply availableGags_In in En.
  destruct En as (k0 & Hk0 & Hfresh).
  destruct (indexOfFrom_spec s gags 0 (nth_error_In _ _ Hk0))
    as (k & Ek & Hk & Hfirst).
  exists s, k. cbn [Performance.indexOf]. rewrite Ek. cbn [Nat.add].
  split; [reflexivity|]. split; [exact Hk|]. split; [exact Hfirst|].
  exists k0. split; assumption.
Qed.

(** X28: with gags loaded and not empty, [getNextGag()] never returns
    [undefined], whatever [usedGags] holds: for a draw in [0, 1) it
    returns one of the gags, and records the index of the first
    occurrence of that text, after emptying [usedGags] when it had
    reached the number of gags. *)
Theorem getNextGag_returns_a_gag (gags : list string) (used : list Z) (u : Q) :
  gags <> [] -> isDraw u ->
  exists s k,
    Performance.getNextGag (Some gags) used u
    = (Some s,
       (if (List.length gags <=? List.length used)%nat then [] else used)
       ++ [Z.of_nat k])
    /\ In s gags
    /\ nth_error gags k = Some s
    /\ (forall k', (k' < k)%nat -> nth_error gags k' <> Some s).
Proof.
  intros Hne Hu.
  destruct (getNextGag_call gags used u Hne Hu) as (s & k & E & Hk & Hf & _).
  exists s, k. split; [exact E|]. split; [|split; assumption].
  apply nth_error_In in Hk. exact Hk.
Qed.

Lemma getNextGag_returns_a_gag_witness :
  exists s k,
    Performance.getNextGag (Some gags0) [0%Z; 2%Z] 0.5
    = (Some s,
       (if (List.length gags0 <=? List.length [0%Z; 2%Z])%nat then []
        else [0%Z; 2%Z]) ++ [Z.of_nat k])
    /\ In s gags0
    /\ nth_error gags0 k = Some s
    /\ (forall k', (k' < k)%nat -> nth_error gags0 k' <> Some s).
Proof.
  apply (getNextGag_returns_a_gag gags0 [0%Z; 2%Z] 0.5).
  - discriminate.
  - unfold isDraw. split; lra.
Defined.

Lemma map_nth_error_seq {A : Type} (l : list A) :
  map (nth_error l) (seq 0 (List.length l)) = map Some l.
Proof.
  induction l as [|x l IH]; [reflexivity|].
  cbn [List.length seq map nth_error]. f_equal.
  rewrite <- seq_shift, map_map. cbn [nth_error]. exact IH.
Qed.

(** Within a cycle every call takes a gag whose index is new. *)
Lemma tellGags_within_cycle (gags : list string) :
  NoDup gags -> gags <> [] ->
  forall (us : list Q) (used : list Z),
  Forall isDraw us ->
  (List.length used + List.length us <= List.length gags)%nat ->
  exists ks,
    fst (tellGags gags us used) = map (nth_error gags) ks
    /\ snd (tellGags gags us used) = used ++ map Z.of_nat ks
    /\ (NoDup used -> NoDup (used ++ map Z.of_nat ks))
    /\ Forall (fun k => (k < List.length gags)%nat) ks
    /\ List.length ks = List.length us.
Proof.
  intros Hnd Hne. induction us as [|u us IH]; intros used Hus Hlen.
  - exists []. cbn [tellGags fst snd map]. rewrite app_nil_r.
    repeat split; auto.
  - cbn [List.length] in Hlen. inversion Hus as [|? ? Hu Hus']; subst.
    destruct (getNextGag_call gags used u Hne Hu)
      as (s & k & E & Hk & _ & k0 & Hk0 & Hfresh).
    destruct (Nat.leb_spec (List.length gags) (List.length used)) as [Hge|_];
      [lia|].
    assert (Ek : k0 = k).
    { assert (Hlt : (k0 < List.length gags)%nat)
        by (apply nth_error_Some; rewrite Hk0; discriminate).
      apply (proj1 (NoDup_nth_error gags) Hnd k0 k Hlt). congruence. }
    subst k0.
    destruct (IH (used ++ [Z.of_nat k]) Hus') as (ks & Ef & Es & Hn & Hv & Hl).
    { rewrite length_app. cbn [List.length]. lia. }
    exists (k :: ks). cbn [tellGags]. rewrite E. cbn [fst snd map].
    rewrite Ef, Es, <- app_assoc. cbn [app].
    split; [rewrite Hk; reflexivity|]. split; [reflexivity|]. split.
    + intro Hnu. rewrite <- app_assoc in Hn. cbn [app] in Hn. apply Hn.
      apply NoDup_app; [exact Hnu|repeat constructor; intros []|].
      intros z Hz [<-|[]]. contradiction.
    + split; [|cbn [List.length]; lia].
      constructor; [|exact Hv].
      apply nth_error_Some. rewrite Hk. discriminate.
Qed.

(** X29: with gags that are all different, as many calls of
    [getNextGag()] as there are gags, starting from an empty [usedGags]
    and with draws in [0, 1), return every gag exactly once, in some
    order. *)
Theorem every_gag_once_per_cycle (gags : list string) (us : list Q) :
  NoDup gags ->
  Forall isDraw us ->
  List.length us = List.length gags ->
  Permutation (fst (tellGags gags us [])) (map Some gags).
Proof.
  intros Hnd Hus Hlen.
  destruct gags as [|g0 gags'] eqn:Eg.
  { destruct us; [constructor|discriminate]. }
  rewrite <- Eg in *.
  assert (Hne : gags <> []) by (rewrite Eg; discriminate).
  destruct (tellGags_within_cycle gags Hnd Hne us [] Hus)
    as (ks & Ef & _ & Hn & Hv & Hl).
  { cbn [List.length]. lia. }
  rewrite Ef, <- map_nth_error_seq. apply Permutation_map.
  specialize (Hn (NoDup_nil Z)). cbn [app] in Hn.
  apply NoDup_map_inv in Hn.
  apply NoDup_Permutation_bis; [exact Hn|rewrite length_seq; lia|].
  intros k Hk. rewrite Forall_forall in Hv. apply in_seq.
  specialize (Hv k Hk). lia.
Qed.

Lemma every_gag_once_per_cycle_witness :
  Permutation (fst (tellGags gags0 [0.5; 0.9; 0] [])) (map Some gags0).
Proof.
  apply (every_gag_once_per_cycle gags0 [0.5; 0.9; 0]).
  - repeat constructor; cbn; intuition discriminate.
  - repeat (apply Forall_cons; [unfold isDraw; split; lra|]). apply Forall_nil.
  - reflexivity.
Defined.

Lemma step_idle (N : nat) (gd : option (list string))
    (x : Performance.FrameInput) (q : Performance.t) (i : nat)
    (og : option Gvrm) (st : option Performance.CharacterState) (v : Q) :
  Performance.view q i = (og, st, v) ->
  (forall g, og = Some g -> isReady g = true ->
             st = Some Performance.watching \/ st = None) ->
  Performance.stepCharacter N gd x i q = q.
Proof.
  intros Hv Hidle. unfold Performance.view in Hv. injection Hv as Hg Hs _.
  unfold Performance.stepCharacter. rewrite Hg, Hs.
  destruct og as [g|]; [|reflexivity].
  destruct (isReady g) eqn:Er; [|reflexivity]. cbn [negb].
  destruct (Hidle g eq_refl Er) as [->| ->]; reflexivity.
Qed.

(** X30: the frames never touch the audience.  A character that is
    watching, or whose avatar is not ready, has the same avatar, state
    and fall velocity after any number of frames, whatever the other
    characters do in them. *)
Theorem frames_leave_the_audience_alone (N : nat) (gd : option (list string))
    (xs : list Performance.FrameInput) (p : Performance.t) (i : nat)
    (g : Gvrm) (st : option Performance.CharacterState) (v : Q) :
  Performance.view p i = (Some g, st, v) ->
  isReady g = false \/ st = Some Performance.watching ->
  Performance.view (Performance.frames N gd xs p) i = (Some g, st, v).
Proof.
  intros Hv Hidle. revert p Hv.
  induction xs as [|x xs IH]; intros p Hv; [exact Hv|].
  cbn [Performance.frames]. apply IH.
  destruct (loop_view N gd x p i (view_index p i g st v Hv)) as (q & Hq & E).
  rewrite Hv in Hq. rewrite E.
  rewrite (step_idle N gd x q i (Some g) st v Hq); [exact Hq|].
  intros g' Eg Hr. injection Eg as <-.
  destruct Hidle as [Hn|Hw]; [congruence|left; exact Hw].
Qed.

Lemma frames_leave_the_audience_alone_witness :
  Performance.view
    (Performance.frames 3 (Some gags0) (repeat frame0 5) show0) 2
  = (Some (setYaw Math_PI
             (Performance.placeAt (Performance.watchingX 3 2) 0 5 avatar0)),
     Some Performance.watching, 0).
Proof.
  apply (frames_leave_the_audience_alone 3 (Some gags0) (repeat frame0 5)
           show0 2).
  - reflexivity.
  - right. reflexivity.
Defined.
